(** * Stochastic evolution engine of the LEI calculator

    Shallow embedding of [lei_calculator/simulation.py], of the metric
    functions of [lei_calculator/metrics.py], two of which it calls, and
    of the parameter functions of [lei_calculator/parameters.py].

    Numbers: Python floats are read as exact reals ([R]); the statements
    below are therefore statements in exact arithmetic.  Effects: the
    module-level NumPy generator and the [warnings] log form an explicit
    world that every operation threads; a Python exception is an
    [Raise] outcome that keeps the world reached so far. *)

From Stdlib Require Import Reals Lra Lia ZArith String List Bool Permutation.
Import ListNotations.

Local Open Scope R_scope.

(** ** Comparisons on floats, as booleans *)

Definition Rleb (x y : R) : bool := if Rle_dec x y then true else false.
Definition Rltb (x y : R) : bool := if Rlt_dec x y then true else false.
Definition Reqb (x y : R) : bool := if Req_dec_T x y then true else false.

(** [0 <= x <= 1], the chained comparison of the validation loops. *)
Definition in_unit (x : R) : bool := Rleb 0 x && Rleb x 1.

(** ** Rounding and clipping *)

(** Nearest integer, ties to the even one (what [round] and [np.round]
    do to the scaled value). *)
Definition rint (x : R) : Z :=
  let f := Int_part x in
  let r := x - IZR f in
  if Rltb r (1 / 2) then f
  else if Rltb (1 / 2) r then (f + 1)%Z
  else if Z.even f then f else (f + 1)%Z.

(** [round(x, ndigits)]. *)
Definition round (x : R) (ndigits : nat) : R :=
  IZR (rint (x * 10 ^ ndigits)) / 10 ^ ndigits.

(** [int(x)]: truncation toward zero. *)
Definition int (x : R) : Z :=
  if Rleb 0 x then Int_part x else (- Int_part (- x))%Z.

(** [np.clip(x, lo, hi)] = [minimum(maximum(x, lo), hi)]. *)
Definition clip (x lo hi : R) : R := Rmin (Rmax x lo) hi.

(** Golden ratio, [PHI = (1 + np.sqrt(5)) / 2]. *)
Definition PHI : R := (1 + sqrt 5) / 2.

(** ** Exceptions, warnings and the world *)

Inductive exn : Type :=
| ValueError_range (name : string) (got : R)
    (* "{name} must be in [0, 1], got {param}" *)
| ValueError_seed (s : Z)
    (* np.random.seed outside 0 .. 2**32 - 1 *)
| ZeroDivisionError
| IndexError
| OverflowError.
    (* a Python float power whose result is out of range *)

Inductive warning : Type :=
| Warn_LEI_V0          (* "V=0 leads to undefined H/V ratio. Returning LEI=0." *)
| Warn_d_phi_V0        (* "V=0 leads to infinite d_phi. Returning large value (10.0)." *)
| Warn_empty_slice     (* NumPy's RuntimeWarning for a mean over nothing *)
| Warn_ODEint          (* scipy's ODEintWarning: the integration did not succeed *)
| Warn_simulation_failed (i : nat) (e : exn).
    (* "Simulation {i} failed: {e}" *)

Inductive outcome (A : Type) : Type :=
| Ok (a : A)
| Raise (e : exn).
Arguments Ok {A} a.
Arguments Raise {A} e.

Record World (G : Type) : Type := mkWorld {
  rng : G;                      (* state of the global np.random generator *)
  warnings : list warning       (* warnings issued so far, oldest first *)
}.
Arguments mkWorld {G} _ _.
Arguments rng {G} _.
Arguments warnings {G} _.

Definition M (G A : Type) : Type := World G -> outcome A * World G.

Definition ret {G A} (a : A) : M G A := fun w => (Ok a, w).

Definition raise {G A} (e : exn) : M G A := fun w => (Raise e, w).

Definition bind {G A B} (m : M G A) (k : A -> M G B) : M G B :=
  fun w => match m w with
           | (Ok a, w') => k a w'
           | (Raise e, w') => (Raise e, w')
           end.

Definition warn {G} (x : warning) : M G unit :=
  fun w => (Ok tt, mkWorld (rng w) (warnings w ++ [x])).

(** [try: m  except Exception as e: h e]. *)
Definition try_except {G A} (m : M G A) (h : exn -> M G A) : M G A :=
  fun w => match m w with
           | (Ok a, w') => (Ok a, w')
           | (Raise e, w') => h e w'
           end.

Declare Scope py_scope.
Delimit Scope py_scope with py.
Notation "x <- m ;; k" := (bind m (fun x => k))
  (at level 61, m at next level, right associativity) : py_scope.
Notation "m ;;; k" := (bind m (fun _ => k))
  (at level 61, right associativity) : py_scope.
Local Open Scope py_scope.

(** [for x in xs: body x], run for its effects. *)
Fixpoint for_each {G A} (xs : list A) (body : A -> M G unit) : M G unit :=
  match xs with
  | [] => ret tt
  | x :: xs' => body x ;;; for_each xs' body
  end.

(** [[f x for x in xs]]. *)
Fixpoint map_M {G A B} (f : A -> M G B) (xs : list A) : M G (list B) :=
  match xs with
  | [] => ret []
  | x :: xs' => y <- f x ;; ys <- map_M f xs' ;; ret (y :: ys)
  end.

(** ** metrics.py *)

(** The validation loop shared by [calculate_LEI] and
    [simulate_evolution]: the first field outside [[0, 1]] raises. *)
Definition check_unit {G} (fields : list (R * string)) : M G unit :=
  for_each fields (fun pn =>
    if in_unit (fst pn) then ret tt
    else raise (ValueError_range (snd pn) (fst pn))).

(** [a / b] on Python floats, the type the signatures declare for their
    arguments: a zero divisor raises. *)
Definition float_truediv {G} (a b : R) : M G R :=
  if Reqb b 0 then raise ZeroDivisionError else ret (a / b).

Definition calculate_LEI {G} (H V alpha phi epsilon : R) : M G R :=
  check_unit [(H, "H"%string); (V, "V"%string); (alpha, "alpha"%string)] ;;;
  if Reqb V 0 then
    warn Warn_LEI_V0 ;;; ret 0
  else
    let HV_ratio := H / V in
    let distance_phi := Rabs (HV_ratio - phi) in
    LEI <- float_truediv (V * alpha) (distance_phi + epsilon) ;;
    ret (round LEI 3).

Definition calculate_d_phi {G} (H V phi : R) : M G R :=
  if Reqb V 0 then
    warn Warn_d_phi_V0 ;;; ret 10
  else
    let HV_ratio := H / V in
    let d_phi_value := Rabs (HV_ratio - phi) in
    ret (round d_phi_value 3).

(** ** simulation.py: equilibrium *)

(** The values of [H_eq], [V_eq], [alpha_eq] before the three [np.clip]
    lines of [calculate_equilibrium].  The quotient is the value of the
    division for a [target_ratio] other than [-1]; at [-1] a Python float
    divisor is zero and the call raises [ZeroDivisionError].  The program
    passes the default [PHI] only, and the theorems keep away from [-1]. *)
Definition equilibrium_unclipped (H0 V0 alpha0 target_ratio : R)
  : R * R * R :=
  let total := H0 + V0 in
  let V_eq := total / (target_ratio + 1) in
  let H_eq := target_ratio * V_eq in
  let alpha_eq := Rmin 0.70 (alpha0 + 0.15) in
  (H_eq, V_eq, alpha_eq).

Definition calculate_equilibrium (H0 V0 alpha0 target_ratio : R)
  : R * R * R :=
  let '(H_eq, V_eq, alpha_eq) :=
    equilibrium_unclipped H0 V0 alpha0 target_ratio in
  (clip H_eq 0 1, clip V_eq 0 1, clip alpha_eq 0 1).

(** ** The black-box integrator

    [scipy.integrate.odeint] is compiled library code.  What the source
    relies on is its calling convention: the first output row is the
    initial vector, and each later row is what the LSODA stepper returns
    after advancing from the previous grid time to the next one, calling
    the right-hand side at points of its own choosing.  A stepper is
    modelled as a finite strategy that asks for right-hand-side values and
    finally answers; a stepper that gives up is one that answers with
    whatever its work area holds, and the library then logs its
    [ODEintWarning], which a strategy does by complaining.  An exception
    of the callback ends the integration and is passed on. *)

Definition State : Type := R * R * R.

Inductive Solver (A : Type) : Type :=
| Done (a : A)
| Ask (y : State) (t : R) (k : State -> Solver A)
| Complain (s : Solver A).
Arguments Done {A} a.
Arguments Ask {A} y t k.
Arguments Complain {A} s.

(** One explicit Euler update of a state by a derivative. *)
Definition euler_update (y : State) (dt : R) (d : State) : State :=
  (fst (fst y) + dt * fst (fst d),
   snd (fst y) + dt * snd (fst d),
   snd y + dt * snd d).

(** The stepper that evaluates the right-hand side once, at the start of
    the interval, and advances by [dt * f(y, t)]: the explicit
    Euler-Maruyama step.  Used as a reference stepper in examples. *)
Definition euler_stepper (wk : unit) (y : State) (t tout : R)
  : Solver (unit * State) :=
  Ask y t (fun d => Done (wk, euler_update y (tout - t) d)).

(** ** Parameter dictionaries and results *)

Definition dict_get {A} (o : option A) (default : A) : A :=
  match o with Some a => a | None => default end.

Record Params : Type := mkParams {
  p_H_eq : R;
  p_V_eq : R;
  p_alpha_eq : R;
  p_gamma_H : option R;
  p_gamma_V : option R;
  p_beta : option R;
  p_sigma_H : option R;
  p_sigma_V : option R;
  p_sigma_alpha : option R;
  p_noise_seed : option Z
}.

(** The dictionary returned by [simulate_evolution]. *)
Record SimResult : Type := mkSimResult {
  r_time : list R;
  r_H : list R;
  r_V : list R;
  r_alpha : list R;
  r_LEI : list R;
  r_d_phi : list R;
  r_H_eq : R;
  r_V_eq : R;
  r_alpha_eq : R
}.

(** The same dictionary after the sampler has added its four keys. *)
Record Run : Type := mkRun {
  run_result : SimResult;
  simulation_id : nat;
  run_H0 : R;
  run_V0 : R;
  run_alpha0 : R
}.

(** [**kwargs] of the sampler: the keyword arguments of
    [simulate_evolution] that a caller may pass on. *)
Record Kwargs : Type := mkKwargs {
  kw_gamma_H : option R;
  kw_gamma_V : option R;
  kw_beta : option R;
  kw_sigma_H : option R;
  kw_sigma_V : option R;
  kw_sigma_alpha : option R;
  kw_noise_seed : option Z
}.

Definition no_kwargs : Kwargs :=
  mkKwargs None None None None None None None.

Definition set_noise_seed (k : Kwargs) (s : Z) : Kwargs :=
  mkKwargs (kw_gamma_H k) (kw_gamma_V k) (kw_beta k) (kw_sigma_H k)
           (kw_sigma_V k) (kw_sigma_alpha k) (Some s).

(** [np.linspace(start, stop, num)] with [endpoint=True]. *)
Definition linspace (start stop : R) (num : nat) : list R :=
  let div := (num - 1)%nat in
  let delta := stop - start in
  let step := if (0 <? div)%nat then delta / INR div else delta in
  let y := map (fun i => INR i * step + start) (seq 0 num) in
  if (1 <? num)%nat then removelast y ++ [stop] else y.

(** Selection pressure, the [if V > 0] block of [ode_system]. *)
Definition selection_pressure (H V : R) : R :=
  if Rltb 0 V then
    let HV_ratio := H / V in
    let distance_phi := Rabs (HV_ratio - PHI) in
    exp (- distance_phi)
  else 0.

(** [xs[-1]]. *)
Definition last_item {G A} (xs : list A) : M G A :=
  match rev xs with
  | x :: _ => ret x
  | [] => raise IndexError
  end.

(** [xs[i]] for a nonnegative index. *)
Definition item {G A} (xs : list A) (i : nat) : M G A :=
  match nth_error xs i with
  | Some x => ret x
  | None => raise IndexError
  end.

(** [a / b] on Python ints. *)
Definition int_truediv {G} (a b : nat) : M G R :=
  if (b =? 0)%nat then raise ZeroDivisionError else ret (INR a / INR b).

(** Aggregate values that may be not-a-number. *)
Inductive stat : Type :=
| Num (x : R)
| NaN.

Definition Rsum (xs : list R) : R := fold_right Rplus 0 xs.

Definition mean (xs : list R) : R := Rsum xs / INR (length xs).

(** [np.mean]: a mean over nothing warns and is not-a-number. *)
Definition np_mean {G} (xs : list R) : M G stat :=
  match xs with
  | [] => warn Warn_empty_slice ;;; ret NaN
  | _ => ret (Num (mean xs))
  end.

(** [np.std] (population standard deviation). *)
Definition np_std {G} (xs : list R) : M G stat :=
  match xs with
  | [] => warn Warn_empty_slice ;;; ret NaN
  | _ => let m := mean xs in
         ret (Num (sqrt (mean (map (fun x => (x - m) * (x - m)) xs))))
  end.

(** The dictionary returned by [analyze_convergence]. *)
Record Report : Type := mkReport {
  n_total : nat;
  n_converged : nat;
  convergence_rate : R;
  mean_convergence_time : stat;
  std_convergence_time : stat;
  final_mean_dphi : stat;
  final_std_dphi : stat;
  final_mean_HV_ratio : stat;
  final_std_HV_ratio : stat;
  distance_to_phi : stat
}.

(** ** simulation.py: the engine *)

Section Engine.

(** NumPy's generator, kept abstract: the state reached by seeding, and
    the two draws the module uses. *)
Variable G : Type.
Variable seed_state : Z -> G.
Variable draw_uniform : R -> R -> G -> R * G.
Variable draw_normal : R -> R -> G -> R * G.

(** LSODA, kept abstract: from its work area, the current vector, the
    current time and the next output time, a strategy that ends with the
    new work area and the vector at the output time. *)
Variable Work : Type.
Variable work0 : Work.
Variable lsoda : Work -> State -> R -> R -> Solver (Work * State).

(** [np.random.seed(s)]: resets the global generator; a seed outside
    [0 .. 2**32 - 1] is a [ValueError]. *)
Definition np_random_seed (s : Z) : M G unit :=
  fun w =>
    if ((0 <=? s) && (s <? 2 ^ 32))%Z
    then (Ok tt, mkWorld (seed_state s) (warnings w))
    else (Raise (ValueError_seed s), w).

Definition np_random_uniform (low high : R) : M G R :=
  fun w => let (x, g) := draw_uniform low high (rng w) in
           (Ok x, mkWorld g (warnings w)).

Definition np_random_normal (loc scale : R) : M G R :=
  fun w => let (x, g) := draw_normal loc scale (rng w) in
           (Ok x, mkWorld g (warnings w)).

Definition ode_system (state : State) (t : R) (params : Params)
  : M G State :=
  let '(H, V, alpha) := state in
  let H_eq := p_H_eq params in
  let V_eq := p_V_eq params in
  let alpha_eq := p_alpha_eq params in
  let gamma_H := dict_get (p_gamma_H params) 0.05 in
  let gamma_V := dict_get (p_gamma_V params) 0.08 in
  let beta := dict_get (p_beta params) 0.015 in
  let sigma_H := dict_get (p_sigma_H params) 0.01 in
  let sigma_V := dict_get (p_sigma_V params) 0.01 in
  let sigma_alpha := dict_get (p_sigma_alpha params) 0.005 in
  np_random_seed (dict_get (p_noise_seed params) 42 + int (t * 1000))%Z ;;;
  noise_H <- np_random_normal 0 1 ;;
  noise_V <- np_random_normal 0 1 ;;
  noise_alpha <- np_random_normal 0 1 ;;
  let dH_dt := gamma_H * (H_eq - H) + sigma_H * noise_H in
  let dV_dt := gamma_V * (V_eq - V) + sigma_V * noise_V in
  let dalpha_dt :=
    beta * (alpha_eq - alpha) * selection_pressure H V
    + sigma_alpha * noise_alpha in
  ret (dH_dt, dV_dt, dalpha_dt).

(** Running a stepper strategy against the Python callback. *)
Fixpoint run_solver {A} (s : Solver A) (func : State -> R -> M G State)
  : M G A :=
  match s with
  | Done a => ret a
  | Ask y t k => d <- func y t ;; run_solver (k d) func
  | Complain s' => warn Warn_ODEint ;;; run_solver s' func
  end.

(** The loop of [odeint] over the output times after the first. *)
Fixpoint odeint_rows (func : State -> R -> M G State)
         (wk : Work) (y : State) (t : R) (touts : list R)
  : M G (list State) :=
  match touts with
  | [] => ret []
  | tout :: rest =>
      wy <- run_solver (lsoda wk y t tout) func ;;
      rows <- odeint_rows func (fst wy) (snd wy) tout rest ;;
      ret (snd wy :: rows)
  end.

(** [odeint(func, y0, t, args=(args,))].  The grid built by
    [simulate_evolution] is never empty. *)
Definition odeint (func : State -> R -> Params -> M G State)
           (y0 : State) (t : list R) (args : Params)
  : M G (list State) :=
  match t with
  | [] => raise IndexError
  | t0 :: touts =>
      rows <- odeint_rows (fun y s => func y s args) work0 y0 t0 touts ;;
      ret (y0 :: rows)
  end.

Definition column_H (solution : list State) : list R :=
  map (fun s => fst (fst s)) solution.
Definition column_V (solution : list State) : list R :=
  map (fun s => snd (fst s)) solution.
Definition column_alpha (solution : list State) : list R :=
  map (fun s => snd s) solution.

(** [zip(xs, ys, zs)]. *)
Definition zip3 (xs ys zs : list R) : list State :=
  combine (combine xs ys) zs.

Definition simulate_evolution
           (H0 V0 alpha0 : R) (years : nat)
           (gamma_H gamma_V beta sigma_H sigma_V sigma_alpha : R)
           (noise_seed : Z)
  : M G SimResult :=
  check_unit [(H0, "H0"%string); (V0, "V0"%string);
              (alpha0, "alpha0"%string)] ;;;
  let '(H_eq, V_eq, alpha_eq) := calculate_equilibrium H0 V0 alpha0 PHI in
  let params :=
    mkParams H_eq V_eq alpha_eq (Some gamma_H) (Some gamma_V) (Some beta)
             (Some sigma_H) (Some sigma_V) (Some sigma_alpha)
             (Some noise_seed) in
  let t := linspace 0 (INR years) (years + 1) in
  let state0 := (H0, V0, alpha0) in
  solution <- odeint ode_system state0 t params ;;
  let H_traj := column_H solution in
  let V_traj := column_V solution in
  let alpha_traj := column_alpha solution in
  LEI_traj <- map_M (fun s : State =>
                       calculate_LEI (fst (fst s)) (snd (fst s)) (snd s)
                                     PHI 0.1)
                    (zip3 H_traj V_traj alpha_traj) ;;
  d_phi_traj <- map_M (fun hv : R * R =>
                         calculate_d_phi (fst hv) (snd hv) PHI)
                      (combine H_traj V_traj) ;;
  ret (mkSimResult t H_traj V_traj alpha_traj LEI_traj d_phi_traj
                   H_eq V_eq alpha_eq).

(** [simulate_evolution(H0, V0, alpha0, years, **kwargs)]: keyword
    arguments that are absent take the defaults of the signature. *)
Definition simulate_evolution_kw
           (H0 V0 alpha0 : R) (years : nat) (kwargs : Kwargs)
  : M G SimResult :=
  simulate_evolution H0 V0 alpha0 years
    (dict_get (kw_gamma_H kwargs) 0.05)
    (dict_get (kw_gamma_V kwargs) 0.08)
    (dict_get (kw_beta kwargs) 0.015)
    (dict_get (kw_sigma_H kwargs) 0.01)
    (dict_get (kw_sigma_V kwargs) 0.01)
    (dict_get (kw_sigma_alpha kwargs) 0.005)
    (dict_get (kw_noise_seed kwargs) 42%Z).

(** One pass of the [for i in range(n_simulations)] loop. *)
Definition sampler_body (years : nat) (H_range V_range alpha_range : R * R)
           (kwargs : Kwargs) (trajectories : list Run) (i : nat)
  : M G (list Run) :=
  H0 <- np_random_uniform (fst H_range) (snd H_range) ;;
  V0 <- np_random_uniform (fst V_range) (snd V_range) ;;
  alpha0 <- np_random_uniform (fst alpha_range) (snd alpha_range) ;;
  let kwargs_copy :=
    set_noise_seed kwargs
      (dict_get (kw_noise_seed kwargs) 42 + Z.of_nat i)%Z in
  try_except
    (result <- simulate_evolution_kw H0 V0 alpha0 years kwargs_copy ;;
     ret (trajectories ++ [mkRun result i H0 V0 alpha0]))
    (fun e => warn (Warn_simulation_failed i e) ;;; ret trajectories).

Fixpoint sampler_loop (years : nat) (H_range V_range alpha_range : R * R)
         (kwargs : Kwargs) (indices : list nat) (trajectories : list Run)
  : M G (list Run) :=
  match indices with
  | [] => ret trajectories
  | i :: rest =>
      trajectories' <- sampler_body years H_range V_range alpha_range
                                    kwargs trajectories i ;;
      sampler_loop years H_range V_range alpha_range kwargs rest
                   trajectories'
  end.

Definition simulate_multiple_trajectories
           (n_simulations years : nat)
           (H_range V_range alpha_range : R * R) (kwargs : Kwargs)
  : M G (list Run) :=
  np_random_seed (dict_get (kw_noise_seed kwargs) 42%Z) ;;;
  sampler_loop years H_range V_range alpha_range kwargs
               (seq 0 n_simulations) [].

End Engine.

(** ** simulation.py: convergence analysis *)

(** [np.where(xs < threshold)[0]]: the indices whose value is below the
    threshold, in increasing order. *)
Definition where_lt (xs : list R) (threshold : R) : list nat :=
  map fst (filter (fun ix => Rltb (snd ix) threshold)
                  (combine (seq 0 (List.length xs)) xs)).

(** The four lists that the loop of [analyze_convergence] grows. *)
Record Tally : Type := mkTally {
  converged : list Run;
  convergence_times : list R;
  final_dphis : list R;
  final_ratios : list R
}.

Definition analyze_body {G} (threshold_dphi : R) (acc : Tally) (traj : Run)
  : M G Tally :=
  let d_phi_traj := r_d_phi (run_result traj) in
  final_dphi <- last_item d_phi_traj ;;
  let final_dphis' := final_dphis acc ++ [final_dphi] in
  ct <- (if Rltb final_dphi threshold_dphi then
           let converged' := converged acc ++ [traj] in
           let conv_idx := where_lt d_phi_traj threshold_dphi in
           match conv_idx with
           | i0 :: _ =>
               tm <- item (r_time (run_result traj)) i0 ;;
               ret (converged', convergence_times acc ++ [tm])
           | [] => ret (converged', convergence_times acc)
           end
         else ret (converged acc, convergence_times acc)) ;;
  V_last <- last_item (r_V (run_result traj)) ;;
  if Rltb 0.1 V_last then
    H_last <- last_item (r_H (run_result traj)) ;;
    ret (mkTally (fst ct) (snd ct) final_dphis'
                 (final_ratios acc ++ [H_last / V_last]))
  else
    ret (mkTally (fst ct) (snd ct) final_dphis' (final_ratios acc)).

Fixpoint analyze_loop {G} (threshold_dphi : R) (trajectories : list Run)
         (acc : Tally) : M G Tally :=
  match trajectories with
  | [] => ret acc
  | traj :: rest =>
      acc' <- analyze_body threshold_dphi acc traj ;;
      analyze_loop threshold_dphi rest acc'
  end.

(** [f(xs) if xs else np.nan]. *)
Definition if_nonempty {G} (xs : list R) (f : list R -> M G stat)
  : M G stat :=
  match xs with
  | [] => ret NaN
  | _ => f xs
  end.

Definition stat_abs_minus (s : stat) (c : R) : stat :=
  match s with
  | Num x => Num (Rabs (x - c))
  | NaN => NaN
  end.

Definition analyze_convergence {G} (trajectories : list Run)
           (threshold_dphi : R) : M G Report :=
  let n_total := List.length trajectories in
  acc <- analyze_loop threshold_dphi trajectories (mkTally [] [] [] []) ;;
  let n_conv := List.length (converged acc) in
  rate <- int_truediv n_conv n_total ;;
  mean_ct <- if_nonempty (convergence_times acc) np_mean ;;
  std_ct <- if_nonempty (convergence_times acc) np_std ;;
  mean_d <- np_mean (final_dphis acc) ;;
  std_d <- np_std (final_dphis acc) ;;
  mean_r <- if_nonempty (final_ratios acc) np_mean ;;
  std_r <- if_nonempty (final_ratios acc) np_std ;;
  dist <- if_nonempty (final_ratios acc)
            (fun xs => m <- np_mean xs ;; ret (stat_abs_minus m PHI)) ;;
  ret (mkReport n_total n_conv rate mean_ct std_ct mean_d std_d
                mean_r std_r dist).

(** ** Notions used in the statements *)

(** A seed that [np.random.seed] accepts. *)
Definition valid_seed (s : Z) : Prop := (0 <= s < 2 ^ 32)%Z.

Section Noise.

Variable G : Type.
Variable seed_state : Z -> G.
Variable draw_normal : R -> R -> G -> R * G.

(** The three standard-normal draws that follow a reseeding with [s],
    and the generator state they leave behind. *)
Definition noise_at (s : Z) : R * R * R * G :=
  let (n1, g1) := draw_normal 0 1 (seed_state s) in
  let (n2, g2) := draw_normal 0 1 g1 in
  let (n3, g3) := draw_normal 0 1 g2 in
  (n1, n2, n3, g3).

(** The three uniform draws at the head of the sampler's loop body, and
    the generator state they leave behind. *)
Definition draw_initial_state (draw_uniform : R -> R -> G -> R * G)
           (H_range V_range alpha_range : R * R) (g : G) : State * G :=
  let (H0, g1) := draw_uniform (fst H_range) (snd H_range) g in
  let (V0, g2) := draw_uniform (fst V_range) (snd V_range) g1 in
  let (alpha0, g3) := draw_uniform (fst alpha_range) (snd alpha_range) g2 in
  ((H0, V0, alpha0), g3).

(** What the specification says of the sampler's draws: the initial
    states of [n] runs read off one generator stream that is seeded once
    with the base seed and advanced by nothing but the draws themselves. *)
Fixpoint draws_from (draw_uniform : R -> R -> G -> R * G)
         (H_range V_range alpha_range : R * R) (g : G) (n : nat)
  : list State :=
  match n with
  | O => []
  | S n' =>
      let (s, g') :=
        draw_initial_state draw_uniform H_range V_range alpha_range g in
      s :: draws_from draw_uniform H_range V_range alpha_range g' n'
  end.

Definition claimed_initial_states (draw_uniform : R -> R -> G -> R * G)
           (H_range V_range alpha_range : R * R) (base_seed : Z) (n : nat)
  : list State :=
  draws_from draw_uniform H_range V_range alpha_range
             (seed_state base_seed) n.

End Noise.

(** ** The runs of a batch

    Pass [i] of the sampler's loop starts in the world that the passes
    before it leave behind; there it draws its initial state and calls
    [simulate_evolution]. *)
Section Runs.

Variable G : Type.
Variable seed_state : Z -> G.
Variable draw_uniform : R -> R -> G -> R * G.
Variable draw_normal : R -> R -> G -> R * G.
Variable Work : Type.
Variable work0 : Work.
Variable lsoda : Work -> State -> R -> R -> Solver (Work * State).

(** The world in which pass [i] starts, the loop having been entered in
    the world [ws]. *)
Definition world_before_run (years : nat)
           (H_range V_range alpha_range : R * R) (kwargs : Kwargs)
           (ws : World G) (i : nat) : World G :=
  snd (sampler_loop G seed_state draw_uniform draw_normal Work work0 lsoda
                    years H_range V_range alpha_range kwargs
                    (seq 0 i) [] ws).

(** The initial state that pass [i] draws, with the generator state that
    follows its three draws. *)
Definition run_draw (years : nat)
           (H_range V_range alpha_range : R * R) (kwargs : Kwargs)
           (ws : World G) (i : nat) : State * G :=
  draw_initial_state G draw_uniform H_range V_range alpha_range
    (rng (world_before_run years H_range V_range alpha_range kwargs ws i)).

(** The call of [simulate_evolution] inside the [try] of pass [i]: at the
    state drawn, with the seed of the run, in the world after the draws. *)
Definition run_outcome (years : nat)
           (H_range V_range alpha_range : R * R) (kwargs : Kwargs)
           (ws : World G) (i : nat) : outcome SimResult * World G :=
  let d := run_draw years H_range V_range alpha_range kwargs ws i in
  simulate_evolution_kw G seed_state draw_normal Work work0 lsoda
    (fst (fst (fst d))) (snd (fst (fst d))) (snd (fst d)) years
    (set_noise_seed kwargs
       (dict_get (kw_noise_seed kwargs) 42 + Z.of_nat i)%Z)
    (mkWorld (snd d)
       (warnings
          (world_before_run years H_range V_range alpha_range kwargs
                            ws i))).

End Runs.

(** The initial states recorded in an ensemble. *)
Definition initial_states (ensemble : list Run) : list State :=
  map (fun t => (run_H0 t, run_V0 t, run_alpha0 t)) ensemble.

(** The first field of the validation list that lies outside [[0, 1]]. *)
Fixpoint first_outside (fields : list (R * string)) : option (string * R) :=
  match fields with
  | [] => None
  | (x, name) :: rest =>
      if in_unit x then first_outside rest else Some (name, x)
  end.

(** The outcome is the engine's own validation error. *)
Definition engine_validation_error {A} (o : outcome A) : Prop :=
  exists name got,
    o = Raise (ValueError_range name got) /\
    In name ["H0"%string; "V0"%string; "alpha0"%string].

(** The computation only ever appends warnings that satisfy [P]. *)
Definition warns_only {G A} (P : warning -> Prop) (m : M G A) : Prop :=
  forall w o w',
    m w = (o, w') ->
    exists ws, warnings w' = warnings w ++ ws /\ Forall P ws.

(** The two warnings of the metric functions. *)
Definition metric_warning (x : warning) : Prop :=
  x = Warn_LEI_V0 \/ x = Warn_d_phi_V0.

(** The warnings that one simulation can log: those of the metric
    functions and the integrator's. *)
Definition engine_warning (x : warning) : Prop :=
  metric_warning x \/ x = Warn_ODEint.

(** The run failures recorded in a list of warnings: run index and cause,
    in the order of recording. *)
Fixpoint failures (ws : list warning) : list (nat * exn) :=
  match ws with
  | [] => []
  | Warn_simulation_failed i e :: rest => (i, e) :: failures rest
  | _ :: rest => failures rest
  end.

(** The parameter dictionary that [simulate_evolution] hands to the
    integrator. *)
Definition engine_params (H0 V0 alpha0 : R)
           (gamma_H gamma_V beta sigma_H sigma_V sigma_alpha : R)
           (noise_seed : Z) : Params :=
  let '(H_eq, V_eq, alpha_eq) := calculate_equilibrium H0 V0 alpha0 PHI in
  mkParams H_eq V_eq alpha_eq (Some gamma_H) (Some gamma_V) (Some beta)
           (Some sigma_H) (Some sigma_V) (Some sigma_alpha)
           (Some noise_seed).

(** A state inside the unit cube. *)
Definition in_cube (s : State) : Prop :=
  0 <= fst (fst s) <= 1 /\ 0 <= snd (fst s) <= 1 /\ 0 <= snd s <= 1.

(** The condition under which the specification expects a validation
    error: a field outside [[0, 1]], or a horizon that is not positive. *)
Definition claimed_rejection (H0 V0 alpha0 : R) (years : nat) : Prop :=
  ~ 0 <= H0 <= 1 \/ ~ 0 <= V0 <= 1 \/ ~ 0 <= alpha0 <= 1 \/ years = 0%nat.

(** An ensemble member that has not converged: one sample, distance [1],
    ratio [1]. *)
Definition stalled_run : Run :=
  mkRun (mkSimResult [0] [0.5] [0.5] [0.5] [0.1] [1] 0.6 0.4 0.65)
        0 0.5 0.5 0.5.

(** A small concrete environment for examples: a counter as generator
    (uniform draws spread over the range by the counter modulo 7, normal
    draws equal to their mean and consuming two counts), and the Euler
    stepper as integrator. *)
Module Demo.
Definition seed_state (s : Z) : Z := s.
Definition draw_uniform (low high : R) (g : Z) : R * Z :=
  (low + (high - low) * (IZR (g mod 7) / 7), (g + 1)%Z).
Definition draw_normal (loc scale : R) (g : Z) : R * Z :=
  (loc, (g + 2)%Z).
Definition world0 : World Z := mkWorld 0%Z [].
Definition simulate :=
  simulate_evolution Z seed_state draw_normal unit tt euler_stepper.
Definition simulate_kw :=
  simulate_evolution_kw Z seed_state draw_normal unit tt euler_stepper.
Definition sampler :=
  simulate_multiple_trajectories
    Z seed_state draw_uniform draw_normal unit tt euler_stepper.
(** The default sampling ranges of [simulate_multiple_trajectories]. *)
Definition H_range : R * R := (0.3, 0.95).
Definition V_range : R * R := (0.1, 0.85).
Definition alpha_range : R * R := (0.1, 0.80).
End Demo.

(** ** metrics.py: the other scores *)

Definition calculate_CHI {G} (H V alpha phi : R) : M G R :=
  check_unit [(H, "H"%string); (V, "V"%string); (alpha, "alpha"%string)] ;;;
  d_phi_value <- calculate_d_phi H V phi ;;
  let CHI := (H * V * alpha) / (1 + d_phi_value) in
  ret (round CHI 3).

(** The eight labels of [classify_zone]. *)
Definition classify_zone (H V alpha phi : R) : string :=
  if Reqb V 0 then "Low Variation Zone (Undefined H/V)"%string
  else
    let HV_ratio := H / V in
    let d_phi_value := Rabs (HV_ratio - phi) in
    if Rltb d_phi_value 0.5 && Rltb 0.5 alpha && Rltb 0.4 V then
      "Goldilocks Zone"%string
    else if Rltb (phi + 1.5) HV_ratio then
      if Rltb alpha 0.2 then
        "High Rigidity Zone (Terminal Lock-in)"%string
      else "High Rigidity Zone"%string
    else if Rltb HV_ratio (phi - 1.0) then "High Chaos Zone"%string
    else if Rltb alpha 0.3 then "Low Selection Zone"%string
    else if Rltb V 0.3 then "Low Variation Zone"%string
    else "Transition Zone"%string.

(** The magnitude from which a result no longer fits a float: what
    reaches it rounds to infinity. *)
Definition float_overflow : R := 2 ^ 1024 - 2 ^ 970.

(** [x ** 2] on a Python float.  A square that is out of range raises;
    an [x] that is itself out of range is already infinite, and its
    square is infinite without an error. *)
Definition float_pow2 {G} (x : R) : M G R :=
  if Rltb (Rabs x) float_overflow && Rleb float_overflow (x ^ 2) then
    raise OverflowError
  else ret (x ^ 2).

(** The squares of the deviations of [V] and [alpha] are squares of Python
    floats.  The first square is taken of what [calculate_d_phi] returns,
    which under the default [phi] is a NumPy scalar and does not raise; it
    is kept exact. *)
Definition goldilocks_score {G} (H V alpha phi : R) : M G R :=
  let V_opt := 0.6 in
  let alpha_opt := 0.7 in
  let sigma_phi := 0.5 in
  let sigma_V := 0.2 in
  let sigma_alpha := 0.2 in
  d_phi_value <- calculate_d_phi H V phi ;;
  let dev_phi := (d_phi_value / sigma_phi) ^ 2 in
  dev_V <- float_pow2 ((V - V_opt) / sigma_V) ;;
  dev_alpha <- float_pow2 ((alpha - alpha_opt) / sigma_alpha) ;;
  let GS := exp (- (dev_phi + dev_V + dev_alpha)) in
  ret (round GS 3).

(** The diagnosis strings of [predict_viability]: the label and the
    numbers formatted into it. *)
Inductive diagnosis : Type :=
| Highly_Viable (LEI_value : R)
| Viable (LEI_value : R)
| Marginally_Viable (LEI_value : R)
| Terminal_Lock_in (LEI_value threshold_LEI : R)
| Non_viable (LEI_value threshold_LEI : R).

Definition predict_viability {G} (H V alpha threshold_LEI : R)
  : M G (bool * diagnosis) :=
  LEI_value <- calculate_LEI H V alpha PHI 0.1 ;;
  let is_viable := Rltb threshold_LEI LEI_value in
  let diagnosis :=
    if is_viable then
      if Rltb 1.0 LEI_value then Highly_Viable LEI_value
      else if Rltb 0.5 LEI_value then Viable LEI_value
      else Marginally_Viable LEI_value
    else
      if Rltb LEI_value 0.05 then Terminal_Lock_in LEI_value threshold_LEI
      else Non_viable LEI_value threshold_LEI in
  ret (is_viable, diagnosis).


(** The dictionary returned by [comprehensive_metrics]. *)
Record Metrics : Type := mkMetrics {
  m_country : string;
  m_H : R;
  m_V : R;
  m_alpha : R;
  m_LEI : R;
  m_d_phi : R;
  m_CHI : R;
  m_goldilocks_score : R;
  m_zone : string;
  m_viable : bool;
  m_viability_message : diagnosis
}.

(** [comprehensive_metrics].  With [verbose] set the function also prints
    the values of the dictionary; the printed report goes to standard
    output, which the world does not record. *)
Definition comprehensive_metrics {G} (H V alpha : R) (country_name : string)
           (verbose : bool) : M G Metrics :=
  LEI_value <- calculate_LEI H V alpha PHI 0.1 ;;
  d_phi_value <- calculate_d_phi H V PHI ;;
  CHI_value <- calculate_CHI H V alpha PHI ;;
  let zone := classify_zone H V alpha PHI in
  GS <- goldilocks_score H V alpha PHI ;;
  viability <- predict_viability H V alpha 0.1 ;;
  let metrics :=
    mkMetrics country_name H V alpha LEI_value d_phi_value CHI_value GS
              zone (fst viability) (snd viability) in
  ret metrics.

(** ** simulation.py: forecasts *)

(** [kwargs.setdefault(key, value)] on one keyword. *)
Definition setdefault {A} (o : option A) (value : A) : option A :=
  match o with
  | Some a => Some a
  | None => Some value
  end.

(** The dictionary returned by [predict_future_trajectory]: the simulation
    result with the key ['scenario'] added. *)
Record Forecast : Type := mkForecast {
  fc_result : SimResult;
  fc_scenario : string
}.

(** What a call of [predict_future_trajectory] ends in: the outcome of the
    simulation, or the [ValueError] for a scenario name it does not know. *)
Inductive forecast_outcome : Type :=
| Simulated (o : outcome Forecast)
| Unknown_scenario (scenario : string).

(** The keyword arguments after the scenario's [setdefault] lines;
    [None] for a scenario that is none of the four. *)
Definition scenario_kwargs (scenario : string) (kwargs : Kwargs)
  : option Kwargs :=
  if String.eqb scenario "reform" then
    let gamma_V := setdefault (kw_gamma_V kwargs) 0.12 in
    let gamma_H := setdefault (kw_gamma_H kwargs) 0.04 in
    Some (mkKwargs gamma_H gamma_V (kw_beta kwargs) (kw_sigma_H kwargs)
                   (kw_sigma_V kwargs) (kw_sigma_alpha kwargs)
                   (kw_noise_seed kwargs))
  else if String.eqb scenario "lock-in" then
    let gamma_V := setdefault (kw_gamma_V kwargs) 0.04 in
    let gamma_H := setdefault (kw_gamma_H kwargs) 0.07 in
    let sigma_V := setdefault (kw_sigma_V kwargs) 0.005 in
    Some (mkKwargs gamma_H gamma_V (kw_beta kwargs) (kw_sigma_H kwargs)
                   sigma_V (kw_sigma_alpha kwargs) (kw_noise_seed kwargs))
  else if String.eqb scenario "crisis" then
    let sigma_H := setdefault (kw_sigma_H kwargs) 0.03 in
    let sigma_V := setdefault (kw_sigma_V kwargs) 0.03 in
    let sigma_alpha := setdefault (kw_sigma_alpha kwargs) 0.015 in
    Some (mkKwargs (kw_gamma_H kwargs) (kw_gamma_V kwargs) (kw_beta kwargs)
                   sigma_H sigma_V sigma_alpha (kw_noise_seed kwargs))
  else if negb (String.eqb scenario "baseline") then None
  else Some kwargs.

Section Forecast.

Variable G : Type.
Variable seed_state : Z -> G.
Variable draw_normal : R -> R -> G -> R * G.
Variable Work : Type.
Variable work0 : Work.
Variable lsoda : Work -> State -> R -> R -> Solver (Work * State).

Definition predict_future_trajectory
           (H_current V_current alpha_current : R) (years_ahead : nat)
           (scenario : string) (kwargs : Kwargs)
  : World G -> forecast_outcome * World G :=
  fun w =>
    match scenario_kwargs scenario kwargs with
    | None => (Unknown_scenario scenario, w)
    | Some kwargs' =>
        let (o, w') :=
          (result <- simulate_evolution_kw
                       G seed_state draw_normal Work work0 lsoda
                       H_current V_current alpha_current years_ahead
                       kwargs' ;;
           ret (mkForecast result scenario)) w in
        (Simulated o, w')
    end.

End Forecast.

(** ** Notions for the analysis of ensembles *)

(** A trajectory dictionary that the analyzer can index: a last distance,
    a time for every distance, a last [V] and a last [H]. *)
Definition indexable (t : Run) : Prop :=
  r_d_phi (run_result t) <> [] /\
  (List.length (r_d_phi (run_result t))
   <= List.length (r_time (run_result t)))%nat /\
  r_V (run_result t) <> [] /\
  r_H (run_result t) <> [].

(** [xs[-1]] of a list known to have one. *)
Definition final (xs : list R) : R := last xs 0.

(** The trajectory has converged: its final distance is below the
    threshold. *)
Definition has_converged (threshold_dphi : R) (t : Run) : bool :=
  Rltb (final (r_d_phi (run_result t))) threshold_dphi.

(** The first time at which the distance of a trajectory is below the
    threshold, as the analyzer reads it. *)
Definition crossing_time (threshold_dphi : R) (t : Run) : R :=
  nth (hd 0%nat (where_lt (r_d_phi (run_result t)) threshold_dphi))
      (r_time (run_result t)) 0.

(** The values that the two metric functions return for a state of the
    unit cube, without their effects. *)
Definition d_phi_of (H V : R) : R :=
  if Reqb V 0 then 10 else round (Rabs (H / V - PHI)) 3.

Definition LEI_of (H V alpha : R) : R :=
  if Reqb V 0 then 0
  else round (V * alpha / (Rabs (H / V - PHI) + 0.1)) 3.

(** A parameter dictionary with another noise seed. *)
Definition with_seed (params : Params) (s : Z) : Params :=
  mkParams (p_H_eq params) (p_V_eq params) (p_alpha_eq params)
           (p_gamma_H params) (p_gamma_V params) (p_beta params)
           (p_sigma_H params) (p_sigma_V params) (p_sigma_alpha params)
           (Some s).


(** The samples of a trajectory dictionary, one state per time. *)
Definition samples (r : SimResult) : list State :=
  zip3 (r_H r) (r_V r) (r_alpha r).

(** The number of entries of an array that are exactly zero. *)
Definition zero_samples (xs : list R) : nat :=
  List.length (filter (fun v => Reqb v 0) xs).

(** The final ratio [H[-1] / V[-1]] of a trajectory, and the test under
    which the analyzer records it. *)
Definition final_ratio (t : Run) : R :=
  final (r_H (run_result t)) / final (r_V (run_result t)).

Definition has_ratio (t : Run) : bool :=
  Rltb 0.1 (final (r_V (run_result t))).

(** [f(xs) if xs else nan] for a pure aggregate [f]. *)
Definition stat_of (f : list R -> R) (xs : list R) : stat :=
  match xs with
  | [] => NaN
  | _ => Num (f xs)
  end.

(** The population standard deviation computed by [np.std]. *)
Definition std (xs : list R) : R :=
  let m := mean xs in
  sqrt (mean (map (fun x => (x - m) * (x - m)) xs)).

(** A list of run indices in strictly increasing order. *)
Fixpoint increasing (xs : list nat) : Prop :=
  match xs with
  | [] => True
  | x :: rest => Forall (fun y => (x < y)%nat) rest /\ increasing rest
  end.


(** ** parameters.py

    The functions of this module touch neither the generator nor the
    warnings log, so they are embedded as pure functions whose result is
    a value or the exception raised. *)

Inductive param_exn : Type :=
| Param_out_of_range (name : string) (got : R)
    (* ValueError "{name} must be in [0, 1], got {param}" *)
| Weights_sum_error (total : R)
    (* ValueError "Weights must sum to 1.0, got {sum(weights)}" *)
| Weights_IndexError
    (* weights[i] on a list that is too short *)
| Country_KeyError (country : string).
    (* KeyError "Country '{country}' not found. ..." *)

Inductive result (A : Type) : Type :=
| Returns (a : A)
| Raises (e : param_exn).
Arguments Returns {A} a.
Arguments Raises {A} e.

(** [sum(weights)]: left to right, starting from [0]. *)
Definition py_sum (xs : list R) : R := fold_left Rplus xs 0.

(** [np.isclose(a, b)] with its default tolerances
    [rtol = 1e-05], [atol = 1e-08]. *)
Definition np_isclose (a b : R) : bool :=
  Rleb (Rabs (a - b)) (1 / 10 ^ 8 + 1 / 10 ^ 5 * Rabs b).

Definition calculate_H
           (precedent_strength const_rigidity codification judicial_tenure : R)
           (weights : option (list R)) : result R :=
  let weights :=
    match weights with
    | None => [0.35; 0.30; 0.25; 0.10]
    | Some ws => ws
    end in
  match first_outside [(precedent_strength, "precedent_strength"%string);
                       (const_rigidity, "const_rigidity"%string);
                       (codification, "codification"%string);
                       (judicial_tenure, "judicial_tenure"%string)] with
  | Some (name, param) => Raises (Param_out_of_range name param)
  | None =>
      if negb (np_isclose (py_sum weights) 1.0) then
        Raises (Weights_sum_error (py_sum weights))
      else
        match nth_error weights 0, nth_error weights 1,
              nth_error weights 2, nth_error weights 3 with
        | Some w0, Some w1, Some w2, Some w3 =>
            let H := w0 * precedent_strength + w1 * const_rigidity
                     + w2 * codification + w3 * judicial_tenure in
            Returns (round H 3)
        | _, _, _, _ => Raises Weights_IndexError
        end
  end.

Definition calculate_V
           (federal_autonomy amendment_freq judicial_review
            legislative_turnover : R)
           (weights : option (list R)) : result R :=
  let weights :=
    match weights with
    | None => [0.40; 0.25; 0.20; 0.15]
    | Some ws => ws
    end in
  match first_outside [(federal_autonomy, "federal_autonomy"%string);
                       (amendment_freq, "amendment_freq"%string);
                       (judicial_review, "judicial_review"%string);
                       (legislative_turnover, "legislative_turnover"%string)]
  with
  | Some (name, param) => Raises (Param_out_of_range name param)
  | None =>
      if negb (np_isclose (py_sum weights) 1.0) then
        Raises (Weights_sum_error (py_sum weights))
      else
        match nth_error weights 0, nth_error weights 1,
              nth_error weights 2, nth_error weights 3 with
        | Some w0, Some w1, Some w2, Some w3 =>
            let V := w0 * federal_autonomy + w1 * amendment_freq
                     + w2 * judicial_review + w3 * legislative_turnover in
            Returns (round V 3)
        | _, _, _, _ => Raises Weights_IndexError
        end
  end.

Definition calculate_alpha
           (compliance_rate transparency_score enforcement_capacity
            legitimacy_index : R)
           (weights : option (list R)) : result R :=
  let weights :=
    match weights with
    | None => [0.35; 0.25; 0.25; 0.15]
    | Some ws => ws
    end in
  match first_outside [(compliance_rate, "compliance_rate"%string);
                       (transparency_score, "transparency_score"%string);
                       (enforcement_capacity, "enforcement_capacity"%string);
                       (legitimacy_index, "legitimacy_index"%string)] with
  | Some (name, param) => Raises (Param_out_of_range name param)
  | None =>
      if negb (np_isclose (py_sum weights) 1.0) then
        Raises (Weights_sum_error (py_sum weights))
      else
        match nth_error weights 0, nth_error weights 1,
              nth_error weights 2, nth_error weights 3 with
        | Some w0, Some w1, Some w2, Some w3 =>
            let alpha := w0 * compliance_rate + w1 * transparency_score
                         + w2 * enforcement_capacity + w3 * legitimacy_index in
            Returns (round alpha 3)
        | _, _, _, _ => Raises Weights_IndexError
        end
  end.

Record ParameterComponents : Type := mkParameterComponents {
  pc_precedent_strength : R;
  pc_const_rigidity : R;
  pc_codification : R;
  pc_judicial_tenure : R;
  pc_federal_autonomy : R;
  pc_amendment_freq : R;
  pc_judicial_review : R;
  pc_legislative_turnover : R;
  pc_compliance_rate : R;
  pc_transparency_score : R;
  pc_enforcement_capacity : R;
  pc_legitimacy_index : R
}.

Definition calculate_all_parameters (components : ParameterComponents)
           (H_weights V_weights alpha_weights : option (list R))
  : result (R * R * R) :=
  match calculate_H (pc_precedent_strength components)
                    (pc_const_rigidity components)
                    (pc_codification components)
                    (pc_judicial_tenure components) H_weights with
  | Raises e => Raises e
  | Returns H =>
      match calculate_V (pc_federal_autonomy components)
                        (pc_amendment_freq components)
                        (pc_judicial_review components)
                        (pc_legislative_turnover components) V_weights with
      | Raises e => Raises e
      | Returns V =>
          match calculate_alpha (pc_compliance_rate components)
                                (pc_transparency_score components)
                                (pc_enforcement_capacity components)
                                (pc_legitimacy_index components)
                                alpha_weights with
          | Raises e => Raises e
          | Returns alpha => Returns (H, V, alpha)
          end
      end
  end.

(** An entry of [COUNTRY_PARAMETERS]. *)
Record CountryEntry : Type := mkCountryEntry {
  ce_H : R;
  ce_V : R;
  ce_alpha : R;
  ce_components : ParameterComponents
}.

Definition COUNTRY_PARAMETERS : list (string * CountryEntry) :=
  [("USA"%string,
    mkCountryEntry 0.72 0.63 0.58
      (mkParameterComponents 0.80 0.75 0.55 0.65
                             0.85 0.45 0.70 0.50
                             0.65 0.70 0.55 0.45));
   ("Argentina_labor"%string,
    mkCountryEntry 0.92 0.18 0.09
      (mkParameterComponents 0.95 0.92 0.88 0.85
                             0.15 0.05 0.30 0.22
                             0.12 0.15 0.08 0.05));
   ("Brazil"%string,
    mkCountryEntry 0.61 0.68 0.52
      (mkParameterComponents 0.60 0.55 0.70 0.58
                             0.75 0.65 0.72 0.55
                             0.50 0.48 0.55 0.55));
   ("Chile"%string,
    mkCountryEntry 0.65 0.61 0.44
      (mkParameterComponents 0.65 0.62 0.72 0.60
                             0.42 0.75 0.68 0.62
                             0.45 0.48 0.42 0.40));
   ("Germany"%string,
    mkCountryEntry 0.75 0.68 0.65
      (mkParameterComponents 0.75 0.80 0.75 0.70
                             0.78 0.55 0.75 0.60
                             0.70 0.68 0.62 0.60))].

Import Ascii.

(** [country.replace(' ', '_')]. *)
Fixpoint replace_spaces (s : string) : string :=
  match s with
  | EmptyString => EmptyString
  | String c rest =>
      String (if Ascii.eqb c " "%char then "_"%char else c)
             (replace_spaces rest)
  end.

(** Lookup of a key in a dictionary kept as a list of items. *)
Fixpoint dict_lookup {A} (key : string) (items : list (string * A))
  : option A :=
  match items with
  | [] => None
  | (k, v) :: rest => if String.eqb key k then Some v else dict_lookup key rest
  end.

Definition get_country_parameters (country : string) : result CountryEntry :=
  let country_key := replace_spaces country in
  match dict_lookup country_key COUNTRY_PARAMETERS with
  | None => Raises (Country_KeyError country)
  | Some entry => Returns entry
  end.

(** The four components and the four weights of one parameter function
    lie in [[0, 1]] resp. are nonnegative. *)
Definition unit4 (a b c d : R) : Prop :=
  0 <= a <= 1 /\ 0 <= b <= 1 /\ 0 <= c <= 1 /\ 0 <= d <= 1.

(** What the three parameter functions have in common: four component
    arguments and an optional list of weights. *)
Definition parameter_function : Type :=
  R -> R -> R -> R -> option (list R) -> result R.

(** The three parameter functions with their default weights. *)
Definition parameter_functions : list (parameter_function * list R) :=
  [(calculate_H, [0.35; 0.30; 0.25; 0.10]);
   (calculate_V, [0.40; 0.25; 0.20; 0.15]);
   (calculate_alpha, [0.35; 0.25; 0.25; 0.15])].

(** The body that the three parameter functions share, with the default
    weights and the four argument names as parameters. *)
Definition weighted_score (default : list R) (n1 n2 n3 n4 : string)
  : parameter_function :=
  fun a b c d weights =>
    let weights :=
      match weights with
      | None => default
      | Some ws => ws
      end in
    match first_outside [(a, n1); (b, n2); (c, n3); (d, n4)] with
    | Some (name, param) => Raises (Param_out_of_range name param)
    | None =>
        if negb (np_isclose (py_sum weights) 1.0) then
          Raises (Weights_sum_error (py_sum weights))
        else
          match nth_error weights 0, nth_error weights 1,
                nth_error weights 2, nth_error weights 3 with
          | Some w0, Some w1, Some w2, Some w3 =>
              Returns (round (w0 * a + w1 * b + w2 * c + w3 * d) 3)
          | _, _, _, _ => Raises Weights_IndexError
          end
    end.

(** The arguments that a list of default weights must satisfy to be used
    as such. *)
Definition unit_weights (ws : list R) : Prop :=
  exists w0 w1 w2 w3,
    ws = [w0; w1; w2; w3] /\
    0 <= w0 /\ 0 <= w1 /\ 0 <= w2 /\ 0 <= w3 /\ w0 + w1 + w2 + w3 = 1.

(** All twelve components of a record lie in [[0, 1]]. *)
Definition unit_components (p : ParameterComponents) : Prop :=
  unit4 (pc_precedent_strength p) (pc_const_rigidity p)
        (pc_codification p) (pc_judicial_tenure p) /\
  unit4 (pc_federal_autonomy p) (pc_amendment_freq p)
        (pc_judicial_review p) (pc_legislative_turnover p) /\
  unit4 (pc_compliance_rate p) (pc_transparency_score p)
        (pc_enforcement_capacity p) (pc_legitimacy_index p).

(** ** Facts about the numeric helpers *)

Lemma Rleb_true x y : Rleb x y = true <-> x <= y.
Proof. unfold Rleb; destruct (Rle_dec x y); split; intros; try easy. Qed.

Lemma Rleb_false x y : Rleb x y = false <-> y < x.
Proof.
  unfold Rleb; destruct (Rle_dec x y); split; intros; try easy; lra.
Qed.

Lemma Rltb_true x y : Rltb x y = true <-> x < y.
Proof. unfold Rltb; destruct (Rlt_dec x y); split; intros; try easy. Qed.

Lemma Rltb_false x y : Rltb x y = false <-> y <= x.
Proof.
  unfold Rltb; destruct (Rlt_dec x y); split; intros; try easy; lra.
Qed.

Lemma Reqb_true x y : Reqb x y = true <-> x = y.
Proof. unfold Reqb; destruct (Req_dec_T x y); split; intros; try easy. Qed.

Lemma Reqb_false x y : Reqb x y = false <-> x <> y.
Proof. unfold Reqb; destruct (Req_dec_T x y); split; intros; try easy. Qed.

Lemma in_unit_true x : in_unit x = true <-> 0 <= x <= 1.
Proof.
  unfold in_unit; rewrite andb_true_iff, !Rleb_true; tauto.
Qed.

Lemma in_unit_false x : in_unit x = false <-> x < 0 \/ 1 < x.
Proof.
  unfold in_unit; rewrite andb_false_iff, !Rleb_false; tauto.
Qed.


Lemma Int_part_nonneg x : 0 <= x -> (0 <= Int_part x)%Z.
Proof.
  intros Hx. unfold Int_part.
  destruct (archimed x) as [Hup _].
  assert (Hlt : IZR 0 < IZR (up x)) by (simpl; lra).
  apply lt_IZR in Hlt. lia.
Qed.

Lemma rint_nonneg x : 0 <= x -> (0 <= rint x)%Z.
Proof.
  intros Hx. pose proof (Int_part_nonneg x Hx) as Hf.
  unfold rint.
  destruct (Rltb _ _); [assumption|].
  destruct (Rltb _ _); [lia|].
  destruct (Z.even _); lia.
Qed.

Lemma round_nonneg x n : 0 <= x -> 0 <= round x n.
Proof.
  intros Hx. unfold round.
  assert (Hp : 0 < 10 ^ n) by (apply pow_lt; lra).
  apply Rmult_le_pos.
  - apply IZR_le, rint_nonneg.
    apply Rmult_le_pos; lra.
  - apply Rlt_le, Rinv_0_lt_compat; exact Hp.
Qed.

Lemma clip_unit x : 0 <= clip x 0 1 <= 1.
Proof.
  unfold clip, Rmin, Rmax.
  destruct (Rle_dec x 0); destruct (Rle_dec _ 1); lra.
Qed.

Lemma PHI_pos : 0 < PHI.
Proof. unfold PHI. pose proof (sqrt_pos 5). lra. Qed.

Lemma selection_pressure_pos H V :
  0 < V -> selection_pressure H V = exp (- Rabs (H / V - PHI)).
Proof.
  intros HV. unfold selection_pressure.
  destruct (Rltb 0 V) eqn:E; [reflexivity|].
  apply Rltb_false in E. lra.
Qed.

Lemma selection_pressure_nonpos H V :
  V <= 0 -> selection_pressure H V = 0.
Proof.
  intros HV. unfold selection_pressure.
  destruct (Rltb 0 V) eqn:E; [|reflexivity].
  apply Rltb_true in E. lra.
Qed.

Lemma exp_neg_abs_unit x : 0 < exp (- Rabs x) <= 1.
Proof.
  split; [apply exp_pos|].
  rewrite <- exp_0.
  destruct (Rle_lt_or_eq_dec 0 (Rabs x) (Rabs_pos x)) as [Hlt | Heq].
  - left. apply exp_increasing. lra.
  - rewrite <- Heq, Ropp_0. right. reflexivity.
Qed.

Lemma selection_pressure_bounds H V : 0 <= selection_pressure H V <= 1.
Proof.
  destruct (Rlt_le_dec 0 V) as [HV | HV].
  - rewrite selection_pressure_pos by assumption.
    pose proof (exp_neg_abs_unit (H / V - PHI)). lra.
  - rewrite selection_pressure_nonpos by assumption. lra.
Qed.

(** ** The equilibrium solver *)

(** C2.  For every initial state with [H0 + V0 > 0] and every positive
    target ratio, the values of [calculate_equilibrium] before clipping
    are [V_eq = (H0 + V0) / (ratio + 1)] and [H_eq = ratio * V_eq], their
    quotient [H_eq / V_eq] is exactly the target ratio, and the function
    returns these values clipped to [[0, 1]]. *)
Theorem equilibrium_ratio_before_clipping (H0 V0 alpha0 ratio : R) :
  0 < H0 + V0 -> 0 < ratio ->
  exists H_eq V_eq alpha_eq,
    equilibrium_unclipped H0 V0 alpha0 ratio = (H_eq, V_eq, alpha_eq) /\
    V_eq = (H0 + V0) / (ratio + 1) /\
    H_eq = ratio * V_eq /\
    H_eq / V_eq = ratio /\
    calculate_equilibrium H0 V0 alpha0 ratio =
      (clip H_eq 0 1, clip V_eq 0 1, clip alpha_eq 0 1).
Proof.
  intros Htotal Hratio.
  exists (ratio * ((H0 + V0) / (ratio + 1))), ((H0 + V0) / (ratio + 1)),
         (Rmin 0.70 (alpha0 + 0.15)).
  repeat split.
  field. split; [lra|].
  intros Hz. nra.
Qed.

Lemma equilibrium_ratio_before_clipping_witness :
  exists H_eq V_eq alpha_eq,
    equilibrium_unclipped 0.65 0.55 0.45 PHI = (H_eq, V_eq, alpha_eq) /\
    V_eq = (0.65 + 0.55) / (PHI + 1) /\
    H_eq = PHI * V_eq /\
    H_eq / V_eq = PHI /\
    calculate_equilibrium 0.65 0.55 0.45 PHI =
      (clip H_eq 0 1, clip V_eq 0 1, clip alpha_eq 0 1).
Proof.
  apply (equilibrium_ratio_before_clipping 0.65 0.55 0.45 PHI).
  - lra.
  - exact PHI_pos.
Defined.

(** ** Reasoning about the monad *)

Lemma bind_ok_inv {G A B} (m : M G A) (k : A -> M G B) w b w' :
  bind m k w = (Ok b, w') ->
  exists a w1, m w = (Ok a, w1) /\ k a w1 = (Ok b, w').
Proof.
  unfold bind. destruct (m w) as [[a | e] w1]; intros Hk.
  - exists a, w1. split; [reflexivity | exact Hk].
  - discriminate.
Qed.

Lemma bind_ok {G A B} (m : M G A) (k : A -> M G B) w a w1 :
  m w = (Ok a, w1) -> bind m k w = k a w1.
Proof. intros Hm. unfold bind. rewrite Hm. reflexivity. Qed.

Lemma bind_raise {G A B} (m : M G A) (k : A -> M G B) w e w1 :
  m w = (Raise e, w1) -> bind m k w = (Raise e, w1).
Proof. intros Hm. unfold bind. rewrite Hm. reflexivity. Qed.

Lemma map_M_length {G A B} (f : A -> M G B) xs :
  forall w ys w', map_M f xs w = (Ok ys, w') ->
                  List.length ys = List.length xs.
Proof.
  induction xs as [| x xs IH]; intros w ys w' Hm; simpl in Hm.
  - inversion Hm. reflexivity.
  - apply bind_ok_inv in Hm. destruct Hm as (y & w1 & _ & Hm).
    apply bind_ok_inv in Hm. destruct Hm as (ys' & w2 & Hrec & Hm).
    inversion Hm; subst. simpl. f_equal. eapply IH; eassumption.
Qed.

(** If every call that succeeds returns a value in [P], so does every
    element of a successful comprehension. *)
Lemma map_M_Forall {G A B} (f : A -> M G B) (P : B -> Prop) :
  (forall x w y w', f x w = (Ok y, w') -> P y) ->
  forall xs w ys w', map_M f xs w = (Ok ys, w') -> Forall P ys.
Proof.
  intros Hf. induction xs as [| x xs IH]; intros w ys w' Hm; simpl in Hm.
  - inversion Hm. constructor.
  - apply bind_ok_inv in Hm. destruct Hm as (y & w1 & Hy & Hm).
    apply bind_ok_inv in Hm. destruct Hm as (ys' & w2 & Hrec & Hm).
    inversion Hm; subst. constructor.
    + eapply Hf; eassumption.
    + eapply IH; eassumption.
Qed.

(** ** The distance metric *)

Lemma calculate_d_phi_total {G} (H V phi : R) (w : World G) :
  exists d w',
    calculate_d_phi H V phi w = (Ok d, w') /\
    0 <= d /\
    (V = 0 -> d = 10 /\ w' = mkWorld (rng w) (warnings w ++ [Warn_d_phi_V0])) /\
    (V <> 0 -> d = round (Rabs (H / V - phi)) 3 /\ w' = w).
Proof.
  unfold calculate_d_phi. destruct (Reqb V 0) eqn:E.
  - apply Reqb_true in E.
    exists 10, (mkWorld (rng w) (warnings w ++ [Warn_d_phi_V0])).
    split; [reflexivity|].
    split; [lra|].
    split; intros HV; [split; reflexivity | contradiction].
  - apply Reqb_false in E.
    exists (round (Rabs (H / V - phi)) 3), w.
    split; [reflexivity|].
    split; [apply round_nonneg, Rabs_pos|].
    split; intros HV; [contradiction | split; reflexivity].
Qed.

(** ** The empty ensemble *)

Lemma np_mean_total {G} xs (w : World G) :
  exists s w', np_mean xs w = (Ok s, w').
Proof. destruct xs; eexists _, _; reflexivity. Qed.

Lemma np_std_total {G} xs (w : World G) :
  exists s w', np_std xs w = (Ok s, w').
Proof. destruct xs; eexists _, _; reflexivity. Qed.

Lemma if_nonempty_total {G} (f : list R -> M G stat) xs (w : World G) :
  (forall ys w0, exists s w', f ys w0 = (Ok s, w')) ->
  exists s w', if_nonempty xs f w = (Ok s, w') /\ (xs = [] -> s = NaN /\ w' = w).
Proof.
  intros Hf. destruct xs as [| x xs].
  - exists NaN, w. split; [reflexivity|]. intros _. split; reflexivity.
  - destruct (Hf (x :: xs) w) as (s & w' & Hs).
    exists s, w'. split; [exact Hs|]. discriminate.
Qed.

(** C3.  On the empty ensemble the analyzer does not return a report: the
    ratio [len(converged) / n_total] is [0 / 0] on Python ints and raises
    [ZeroDivisionError], before any of the guarded statistics is built.
    On a nonempty ensemble whose loop completes, the report is returned,
    and the statistics over an empty sample (no converged trajectory, no
    trajectory above the floor) are not-a-number: these entries are
    guarded, the ratio is not. *)
Theorem analyze_convergence_empty_raises
        {G} (threshold_dphi : R) (w : World G) :
  analyze_convergence [] threshold_dphi w = (Raise ZeroDivisionError, w) /\
  (forall trajectories acc w1,
      trajectories <> [] ->
      analyze_loop threshold_dphi trajectories (mkTally [] [] [] []) w
      = (Ok acc, w1) ->
      exists r w',
        analyze_convergence trajectories threshold_dphi w = (Ok r, w') /\
        n_total r = List.length trajectories /\
        n_converged r = List.length (converged acc) /\
        convergence_rate r
        = INR (List.length (converged acc)) / INR (List.length trajectories) /\
        (convergence_times acc = [] ->
         mean_convergence_time r = NaN /\ std_convergence_time r = NaN) /\
        (final_ratios acc = [] ->
         final_mean_HV_ratio r = NaN /\ final_std_HV_ratio r = NaN /\
         distance_to_phi r = NaN)).
Proof.
  split; [reflexivity|].
  intros trajectories acc w1 Hne Hloop.
  unfold analyze_convergence.
  erewrite bind_ok by exact Hloop.
  assert (Hdiv : int_truediv (G := G) (List.length (converged acc))
                             (List.length trajectories) w1
                 = (Ok (INR (List.length (converged acc))
                        / INR (List.length trajectories)), w1)).
  { unfold int_truediv. destruct trajectories as [| t ts];
      [contradiction | reflexivity]. }
  erewrite bind_ok by exact Hdiv.
  destruct (if_nonempty_total np_mean (convergence_times acc) w1 np_mean_total)
    as (s1 & w2 & H1 & N1).
  erewrite bind_ok by exact H1.
  destruct (if_nonempty_total np_std (convergence_times acc) w2 np_std_total)
    as (s2 & w3 & H2 & N2).
  erewrite bind_ok by exact H2.
  destruct (np_mean_total (final_dphis acc) w3) as (s3 & w4 & H3).
  erewrite bind_ok by exact H3.
  destruct (np_std_total (final_dphis acc) w4) as (s4 & w5 & H4).
  erewrite bind_ok by exact H4.
  destruct (if_nonempty_total np_mean (final_ratios acc) w5 np_mean_total)
    as (s5 & w6 & H5 & N5).
  erewrite bind_ok by exact H5.
  destruct (if_nonempty_total np_std (final_ratios acc) w6 np_std_total)
    as (s6 & w7 & H6 & N6).
  erewrite bind_ok by exact H6.
  destruct (if_nonempty_total
              (fun xs => m <- np_mean xs ;; ret (stat_abs_minus m PHI))
              (final_ratios acc) w7)
    as (s7 & w8 & H7 & N7).
  { intros ys w0. destruct (np_mean_total ys w0) as (m & w9 & Hm).
    eexists _, _. erewrite bind_ok by exact Hm. reflexivity. }
  erewrite bind_ok by exact H7.
  eexists _, _. split; [reflexivity|].
  cbn [n_total n_converged convergence_rate mean_convergence_time
       std_convergence_time final_mean_HV_ratio final_std_HV_ratio
       distance_to_phi].
  split; [reflexivity|]. split; [reflexivity|]. split; [reflexivity|].
  split.
  - intros Hnil. split; [apply N1 | apply N2]; exact Hnil.
  - intros Hnil. split; [apply N5 | split; [apply N6 | apply N7]]; exact Hnil.
Qed.

(** ** Validation, grid and columns *)

Lemma bind_raise_inv {G A B} (m : M G A) (k : A -> M G B) w e w' :
  bind m k w = (Raise e, w') ->
  m w = (Raise e, w') \/
  exists a w1, m w = (Ok a, w1) /\ k a w1 = (Raise e, w').
Proof.
  unfold bind. destruct (m w) as [[a | e0] w1]; intros Hk.
  - right. exists a, w1. split; [reflexivity | exact Hk].
  - left. inversion Hk. reflexivity.
Qed.

Lemma map_M_raise_inv {G A B} (f : A -> M G B) xs :
  forall w e w', map_M f xs w = (Raise e, w') ->
                 exists x w1, In x xs /\ f x w1 = (Raise e, w').
Proof.
  induction xs as [| x xs IH]; intros w e w' Hm; simpl in Hm.
  - discriminate.
  - apply bind_raise_inv in Hm. destruct Hm as [Hx | (y & w1 & _ & Hm)].
    + exists x, w. split; [left; reflexivity | exact Hx].
    + apply bind_raise_inv in Hm. destruct Hm as [Hr | (ys & w2 & _ & Hm)].
      * destruct (IH _ _ _ Hr) as (x' & w3 & Hin & Hx').
        exists x', w3. split; [right; exact Hin | exact Hx'].
      * discriminate.
Qed.

Lemma check_unit_first_outside {G} fields (w : World G) :
  check_unit fields w =
  match first_outside fields with
  | Some (name, got) => (Raise (ValueError_range name got), w)
  | None => (Ok tt, w)
  end.
Proof.
  unfold check_unit.
  induction fields as [| [x name] rest IH]; simpl; [reflexivity|].
  unfold bind at 1. destruct (in_unit x); simpl.
  - exact IH.
  - reflexivity.
Qed.

Lemma first_outside_three_none a b c na nb nc :
  first_outside [(a, na); (b, nb); (c, nc)] = None <->
  (0 <= a <= 1) /\ (0 <= b <= 1) /\ (0 <= c <= 1).
Proof.
  simpl. rewrite <- !in_unit_true.
  destruct (in_unit a), (in_unit b), (in_unit c); simpl;
    split; intros Hx; try discriminate; try reflexivity; try tauto;
    destruct Hx as (? & ? & ?); discriminate.
Qed.

Lemma float_truediv_ok {G} a b (w : World G) :
  b <> 0 -> float_truediv a b w = (Ok (a / b), w).
Proof.
  intros Hb. unfold float_truediv.
  replace (Reqb b 0) with false by (symmetry; apply Reqb_false; exact Hb).
  reflexivity.
Qed.

Lemma float_truediv_zero {G} a b (w : World G) :
  b = 0 -> float_truediv a b w = (Raise ZeroDivisionError, w).
Proof.
  intros Hb. unfold float_truediv.
  replace (Reqb b 0) with true by (symmetry; apply Reqb_true; exact Hb).
  reflexivity.
Qed.

(** With a positive smoothing constant the denominator of the index is
    positive. *)
Lemma LEI_denominator_pos x epsilon : 0 < epsilon -> Rabs x + epsilon <> 0.
Proof. intros Heps. pose proof (Rabs_pos x). lra. Qed.

Lemma calculate_LEI_ok {G} H V alpha phi epsilon (w : World G) :
  0 <= H <= 1 -> 0 <= V <= 1 -> 0 <= alpha <= 1 -> 0 < epsilon ->
  exists l w', calculate_LEI H V alpha phi epsilon w = (Ok l, w') /\
               rng w' = rng w.
Proof.
  intros HH HV Ha Heps. unfold calculate_LEI.
  rewrite (bind_ok _ _ w tt w).
  - destruct (Reqb V 0).
    + eexists _, _. split; reflexivity.
    + rewrite (bind_ok _ _ _ _ _
                 (float_truediv_ok _ _ w (LEI_denominator_pos _ _ Heps))).
      eexists _, _. split; reflexivity.
  - rewrite check_unit_first_outside.
    replace (first_outside _) with (@None (string * R)); [reflexivity|].
    symmetry. apply first_outside_three_none. tauto.
Qed.

Lemma calculate_LEI_raises {G} H V alpha phi epsilon (w : World G) e w' :
  0 < epsilon ->
  calculate_LEI H V alpha phi epsilon w = (Raise e, w') ->
  exists name got,
    e = ValueError_range name got /\
    In name ["H"%string; "V"%string; "alpha"%string].
Proof.
  unfold calculate_LEI. intros Heps Hc.
  apply bind_raise_inv in Hc. destruct Hc as [Hc | (u & w1 & _ & Hc)].
  - rewrite check_unit_first_outside in Hc. simpl in Hc.
    destruct (in_unit H); [destruct (in_unit V); [destruct (in_unit alpha)|]|];
      inversion Hc; subst; eexists _, _; (split; [reflexivity|]);
      simpl; tauto.
  - destruct (Reqb V 0); [discriminate|].
    rewrite (bind_ok _ _ _ _ _
               (float_truediv_ok _ _ w1 (LEI_denominator_pos _ _ Heps)))
      in Hc.
    discriminate.
Qed.

Lemma calculate_d_phi_never_raises {G} H V phi (w : World G) e w' :
  calculate_d_phi H V phi w <> (Raise e, w').
Proof.
  destruct (calculate_d_phi_total H V phi w) as (d & w1 & Hd & _).
  rewrite Hd. discriminate.
Qed.

Lemma linspace_length start stop num :
  List.length (linspace start stop num) = num.
Proof.
  unfold linspace. destruct (1 <? num)%nat eqn:E.
  - apply Nat.ltb_lt in E.
    rewrite length_app, removelast_firstn_len, length_firstn,
      length_map, length_seq.
    simpl. lia.
  - rewrite length_map, length_seq. reflexivity.
Qed.

Lemma nth_map_INR k l : nth k (map INR l) 0 = INR (nth k l 0%nat).
Proof. exact (map_nth INR l 0%nat k). Qed.

(** The grid of [simulate_evolution] is [0, 1, ..., years]. *)
Lemma linspace_years years :
  linspace 0 (INR years) (years + 1) = map INR (seq 0 (years + 1)).
Proof.
  unfold linspace. replace (years + 1 - 1)%nat with years by lia.
  destruct years as [| n].
  - simpl. f_equal. lra.
  - replace (0 <? S n)%nat with true by (symmetry; apply Nat.ltb_lt; lia).
    replace (1 <? S n + 1)%nat with true
      by (symmetry; apply Nat.ltb_lt; lia).
    assert (Hn : INR (S n) <> 0) by (apply not_0_INR; lia).
    rewrite (seq_app (S n) 1 0), !map_app. simpl seq at 2 4. cbn [map].
    rewrite removelast_last. f_equal.
    apply map_ext. intros i. field. exact Hn.
Qed.

Lemma zip3_columns (solution : list State) :
  zip3 (column_H solution) (column_V solution) (column_alpha solution)
  = solution.
Proof.
  unfold zip3, column_H, column_V, column_alpha.
  induction solution as [| [[h v] a] rest IH]; simpl; [reflexivity|].
  rewrite IH. reflexivity.
Qed.

Lemma combine_columns (solution : list State) :
  combine (column_H solution) (column_V solution) = map fst solution.
Proof.
  unfold column_H, column_V.
  induction solution as [| [[h v] a] rest IH]; simpl; [reflexivity|].
  rewrite IH. reflexivity.
Qed.

Lemma map_M_total_preserving {G A B} (f : A -> M G B) (xs : list A) :
  (forall x, In x xs ->
             forall w, exists y w', f x w = (Ok y, w') /\ rng w' = rng w) ->
  forall w, exists ys w', map_M f xs w = (Ok ys, w') /\ rng w' = rng w.
Proof.
  induction xs as [| x xs IH]; intros Hf w; simpl.
  - exists [], w. split; reflexivity.
  - destruct (Hf x (or_introl eq_refl) w) as (y & w1 & Hy & Hr1).
    destruct (IH (fun x' Hin => Hf x' (or_intror Hin)) w1)
      as (ys & w2 & Hys & Hr2).
    exists (y :: ys), w2. split.
    + erewrite bind_ok by exact Hy. erewrite bind_ok by exact Hys.
      reflexivity.
    + congruence.
Qed.

Lemma calculate_d_phi_preserving {G} H V phi (w : World G) :
  exists d w', calculate_d_phi H V phi w = (Ok d, w') /\ rng w' = rng w.
Proof.
  destruct (calculate_d_phi_total H V phi w)
    as (d & w' & Hd & _ & Hzero & Hnonzero).
  exists d, w'. split; [exact Hd|].
  destruct (Req_dec_T V 0) as [Hz | Hz].
  - destruct (Hzero Hz) as [_ ->]. reflexivity.
  - destruct (Hnonzero Hz) as [_ ->]. reflexivity.
Qed.

(** ** The right-hand side *)

Section EngineFacts.

Variable G : Type.
Variable seed_state : Z -> G.
Variable draw_normal : R -> R -> G -> R * G.
Variable Work : Type.
Variable work0 : Work.
Variable lsoda : Work -> State -> R -> R -> Solver (Work * State).

Local Abbreviation ode := (ode_system G seed_state draw_normal).
Local Abbreviation noise := (noise_at G seed_state draw_normal).
Local Abbreviation simulate :=
  (simulate_evolution G seed_state draw_normal Work work0 lsoda).
Local Abbreviation integrate :=
  (odeint G Work work0 lsoda).

Lemma np_random_seed_valid s (w : World G) :
  valid_seed s ->
  np_random_seed G seed_state s w
  = (Ok tt, mkWorld (seed_state s) (warnings w)).
Proof.
  intros [Hlo Hhi]. unfold np_random_seed.
  apply Z.leb_le in Hlo. apply Z.ltb_lt in Hhi.
  rewrite Hlo, Hhi. reflexivity.
Qed.

Lemma np_random_seed_invalid s (w : World G) :
  ~ valid_seed s ->
  np_random_seed G seed_state s w = (Raise (ValueError_seed s), w).
Proof.
  intros Hbad. unfold np_random_seed.
  destruct ((0 <=? s)%Z && (s <? 2 ^ 32)%Z) eqn:E; [|reflexivity].
  apply andb_true_iff in E. destruct E as [Hlo Hhi].
  apply Z.leb_le in Hlo. apply Z.ltb_lt in Hhi.
  exfalso. apply Hbad. split; assumption.
Qed.

(** With an accepted seed the right-hand side returns the three drift
    terms plus the scaled draws that follow the reseeding, and leaves
    the global generator in the state after those draws, whatever its
    state was before. *)
Lemma ode_system_ok H V alpha t params (w : World G) :
  let s := (dict_get (p_noise_seed params) 42 + int (t * 1000))%Z in
  valid_seed s ->
  ode (H, V, alpha) t params w =
  (Ok (dict_get (p_gamma_H params) 0.05 * (p_H_eq params - H)
         + dict_get (p_sigma_H params) 0.01 * fst (fst (fst (noise s))),
       dict_get (p_gamma_V params) 0.08 * (p_V_eq params - V)
         + dict_get (p_sigma_V params) 0.01 * snd (fst (fst (noise s))),
       dict_get (p_beta params) 0.015 * (p_alpha_eq params - alpha)
           * selection_pressure H V
         + dict_get (p_sigma_alpha params) 0.005 * snd (fst (noise s))),
   mkWorld (snd (noise s)) (warnings w)).
Proof.
  intros s Hs. unfold ode_system. fold s.
  erewrite bind_ok by (apply np_random_seed_valid; exact Hs).
  unfold noise_at, bind, np_random_normal. cbn [rng warnings].
  destruct (draw_normal 0 1 (seed_state s)) as [n1 g1]. cbn [rng warnings].
  destruct (draw_normal 0 1 g1) as [n2 g2]. cbn [rng warnings].
  destruct (draw_normal 0 1 g2) as [n3 g3]. reflexivity.
Qed.

Lemma ode_system_bad_seed state t params (w : World G) :
  let s := (dict_get (p_noise_seed params) 42 + int (t * 1000))%Z in
  ~ valid_seed s ->
  ode state t params w = (Raise (ValueError_seed s), w).
Proof.
  intros s Hs. unfold ode_system. destruct state as [[H V] alpha]. fold s.
  erewrite bind_raise by (apply np_random_seed_invalid; exact Hs).
  reflexivity.
Qed.

(** C10.  The selection-pressure factor lies in [[0, 1]] for every
    state, is [exp(-|H/V - PHI|)] when [V > 0] and [0] when [V <= 0];
    and whenever the right-hand side is evaluated with an accepted seed,
    the drift of the third field is [beta * (alpha_eq - alpha)] times
    that factor plus the scaled noise draw, so it is defined for every
    state, [V <= 0] included. *)
Theorem selection_pressure_in_unit_interval (H V : R) :
  0 <= selection_pressure H V <= 1 /\
  (0 < V -> selection_pressure H V = exp (- Rabs (H / V - PHI))) /\
  (V <= 0 -> selection_pressure H V = 0) /\
  (forall alpha t params (w : World G),
      valid_seed (dict_get (p_noise_seed params) 42 + int (t * 1000))%Z ->
      exists dH dV dalpha w',
        ode (H, V, alpha) t params w = (Ok (dH, dV, dalpha), w') /\
        dalpha =
          dict_get (p_beta params) 0.015 * (p_alpha_eq params - alpha)
            * selection_pressure H V
          + dict_get (p_sigma_alpha params) 0.005
            * snd (fst (noise (dict_get (p_noise_seed params) 42
                               + int (t * 1000))%Z))).
Proof.
  split; [apply selection_pressure_bounds|].
  split; [apply selection_pressure_pos|].
  split; [apply selection_pressure_nonpos|].
  intros alpha t params w Hs.
  do 4 eexists. split.
  - apply ode_system_ok. exact Hs.
  - reflexivity.
Qed.

(** ** The integrator's calling convention *)

Lemma valid_seed_dec s : {valid_seed s} + {~ valid_seed s}.
Proof.
  unfold valid_seed.
  destruct (Z_le_dec 0 s); destruct (Z_lt_dec s (2 ^ 32));
    try (left; lia); right; lia.
Qed.

Lemma ode_system_raises state t params (w : World G) e w' :
  ode state t params w = (Raise e, w') -> exists s, e = ValueError_seed s.
Proof.
  destruct state as [[H V] alpha].
  destruct (valid_seed_dec
              (dict_get (p_noise_seed params) 42 + int (t * 1000))%Z)
    as [Hs | Hs].
  - rewrite ode_system_ok by exact Hs. discriminate.
  - rewrite ode_system_bad_seed by exact Hs.
    intros Hr. inversion Hr. eexists. reflexivity.
Qed.

(** A stepper can only fail with an exception of the callback. *)
Lemma run_solver_raises {A} (s : Solver A) func (P : exn -> Prop) :
  (forall y t (w : World G) e w', func y t w = (Raise e, w') -> P e) ->
  forall w e w', run_solver G s func w = (Raise e, w') -> P e.
Proof.
  intros Hf. induction s as [a | y t k IH | s' IH]; intros w e w' Hr;
    simpl in Hr.
  - discriminate.
  - apply bind_raise_inv in Hr. destruct Hr as [Hr | (d & w1 & _ & Hr)].
    + eapply Hf; eassumption.
    + eapply IH; eassumption.
  - apply bind_raise_inv in Hr. destruct Hr as [Hr | (u & w1 & _ & Hr)].
    + discriminate.
    + eapply IH; eassumption.
Qed.

Lemma odeint_rows_raises func (P : exn -> Prop) :
  (forall y t (w : World G) e w', func y t w = (Raise e, w') -> P e) ->
  forall touts wk y t w e w',
    odeint_rows G Work lsoda func wk y t touts w = (Raise e, w') -> P e.
Proof.
  intros Hf. induction touts as [| tout rest IH];
    intros wk y t w e w' Hr; simpl in Hr.
  - discriminate.
  - apply bind_raise_inv in Hr. destruct Hr as [Hr | (wy & w1 & _ & Hr)].
    + eapply run_solver_raises; eassumption.
    + apply bind_raise_inv in Hr.
      destruct Hr as [Hr | (rows & w2 & _ & Hr)].
      * eapply IH; eassumption.
      * discriminate.
Qed.

Lemma odeint_rows_length func :
  forall touts wk y t (w : World G) rows w',
    odeint_rows G Work lsoda func wk y t touts w = (Ok rows, w') ->
    List.length rows = List.length touts.
Proof.
  induction touts as [| tout rest IH]; intros wk y t w rows w' Hr;
    simpl in Hr.
  - inversion Hr. reflexivity.
  - apply bind_ok_inv in Hr. destruct Hr as (wy & w1 & _ & Hr).
    apply bind_ok_inv in Hr. destruct Hr as (rows' & w2 & Hrec & Hr).
    inversion Hr; subst. simpl. f_equal. eapply IH; eassumption.
Qed.

(** The output has one row per grid time and starts with the initial
    vector. *)
Lemma odeint_shape func y0 t args (w : World G) solution w' :
  integrate func y0 t args w = (Ok solution, w') ->
  List.length solution = List.length t /\
  exists rows, solution = y0 :: rows.
Proof.
  unfold odeint. destruct t as [| t0 touts]; [discriminate|].
  intros Hr. apply bind_ok_inv in Hr. destruct Hr as (rows & w1 & Hrows & Hr).
  inversion Hr; subst. split.
  - simpl. f_equal. eapply odeint_rows_length; eassumption.
  - exists rows. reflexivity.
Qed.

(** On a one-point grid the stepper is never started. *)
Lemma odeint_single func y0 t0 args (w : World G) :
  integrate func y0 [t0] args w = (Ok [y0], w).
Proof. reflexivity. Qed.

(** ** Anatomy of a successful simulation *)

Lemma simulate_evolution_ok_inv
      H0 V0 alpha0 years gamma_H gamma_V beta sigma_H sigma_V sigma_alpha
      noise_seed (w : World G) r w' :
  simulate H0 V0 alpha0 years gamma_H gamma_V beta
           sigma_H sigma_V sigma_alpha noise_seed w = (Ok r, w') ->
  first_outside [(H0, "H0"%string); (V0, "V0"%string);
                 (alpha0, "alpha0"%string)] = None /\
  let params := engine_params H0 V0 alpha0 gamma_H gamma_V beta
                              sigma_H sigma_V sigma_alpha noise_seed in
  exists solution LEI_traj d_phi_traj w1 w2,
    integrate ode (H0, V0, alpha0) (linspace 0 (INR years) (years + 1))
              params w = (Ok solution, w1) /\
    map_M (fun s : State =>
             calculate_LEI (fst (fst s)) (snd (fst s)) (snd s) PHI 0.1)
          solution w1 = (Ok LEI_traj, w2) /\
    map_M (fun hv : R * R => calculate_d_phi (fst hv) (snd hv) PHI)
          (map fst solution) w2 = (Ok d_phi_traj, w') /\
    r = mkSimResult (linspace 0 (INR years) (years + 1))
                    (column_H solution) (column_V solution)
                    (column_alpha solution) LEI_traj d_phi_traj
                    (p_H_eq params) (p_V_eq params) (p_alpha_eq params).
Proof.
  unfold simulate_evolution. intros Hs.
  apply bind_ok_inv in Hs. destruct Hs as (u & w0 & Hcheck & Hs).
  rewrite check_unit_first_outside in Hcheck.
  destruct (first_outside _) as [[name got] |] eqn:Hfirst;
    [discriminate|].
  inversion Hcheck; subst w0. split; [reflexivity|].
  cbv beta iota zeta delta [calculate_equilibrium equilibrium_unclipped]
    in Hs.
  apply bind_ok_inv in Hs. destruct Hs as (solution & w1 & Hint & Hs).
  apply bind_ok_inv in Hs. destruct Hs as (LEI_traj & w2 & HLEI & Hs).
  apply bind_ok_inv in Hs. destruct Hs as (d_phi_traj & w3 & Hd & Hs).
  rewrite zip3_columns in HLEI. rewrite combine_columns in Hd.
  inversion Hs; subst.
  exists solution, LEI_traj, d_phi_traj, w1, w2.
  unfold engine_params.
  cbv beta iota zeta delta [calculate_equilibrium equilibrium_unclipped].
  split; [exact Hint|]. split; [exact HLEI|]. split; [exact Hd|].
  reflexivity.
Qed.

Lemma odeint_raises func y0 t args (P : exn -> Prop) :
  (forall y s (w : World G) e w', func y s args w = (Raise e, w') -> P e) ->
  forall w e w',
    integrate func y0 t args w = (Raise e, w') -> e = IndexError \/ P e.
Proof.
  intros Hf w e w'. unfold odeint. destruct t as [| t0 touts].
  - intros Hr. inversion Hr. left. reflexivity.
  - intros Hr. right.
    apply bind_raise_inv in Hr. destruct Hr as [Hr | (rows & w1 & _ & Hr)].
    + eapply (odeint_rows_raises (fun y s => func y s args)); eassumption.
    + discriminate.
Qed.

(** After a passed validation the call can still fail, but only inside
    the integration (a rejected seed) or in the evolvability index, which
    rejects a sample outside the unit cube. *)
Lemma simulate_evolution_raises
      H0 V0 alpha0 years gamma_H gamma_V beta sigma_H sigma_V sigma_alpha
      noise_seed (w : World G) e w' :
  first_outside [(H0, "H0"%string); (V0, "V0"%string);
                 (alpha0, "alpha0"%string)] = None ->
  simulate H0 V0 alpha0 years gamma_H gamma_V beta
           sigma_H sigma_V sigma_alpha noise_seed w = (Raise e, w') ->
  e = IndexError \/
  (exists s, e = ValueError_seed s) \/
  (exists name got, e = ValueError_range name got /\
                    In name ["H"%string; "V"%string; "alpha"%string]).
Proof.
  intros Hfirst. unfold simulate_evolution. intros Hs.
  apply bind_raise_inv in Hs. destruct Hs as [Hs | (u & w0 & _ & Hs)].
  { rewrite check_unit_first_outside, Hfirst in Hs. discriminate. }
  cbv beta iota zeta delta [calculate_equilibrium equilibrium_unclipped]
    in Hs.
  apply bind_raise_inv in Hs. destruct Hs as [Hs | (solution & w1 & _ & Hs)].
  { apply (odeint_raises _ _ _ _ (fun e => exists s, e = ValueError_seed s))
      in Hs.
    - tauto.
    - intros y s w2 e2 w3. apply ode_system_raises. }
  apply bind_raise_inv in Hs. destruct Hs as [Hs | (LEI_traj & w2 & _ & Hs)].
  { apply map_M_raise_inv in Hs. destruct Hs as (x & w3 & _ & Hx).
    right. right. eapply calculate_LEI_raises; [| exact Hx]. lra. }
  apply bind_raise_inv in Hs. destruct Hs as [Hs | (d & w3 & _ & Hs)].
  { apply map_M_raise_inv in Hs. destruct Hs as (x & w4 & _ & Hx).
    exfalso. eapply calculate_d_phi_never_raises. exact Hx. }
  discriminate.
Qed.

(** With a zero horizon and a valid initial state the call returns, and
    it consumes nothing from the generator. *)
Lemma simulate_evolution_zero_years_returns
      H0 V0 alpha0 gamma_H gamma_V beta sigma_H sigma_V sigma_alpha
      noise_seed (w : World G) :
  0 <= H0 <= 1 -> 0 <= V0 <= 1 -> 0 <= alpha0 <= 1 ->
  exists r w',
    simulate H0 V0 alpha0 0 gamma_H gamma_V beta
             sigma_H sigma_V sigma_alpha noise_seed w = (Ok r, w') /\
    rng w' = rng w.
Proof.
  intros HH HV Ha. unfold simulate_evolution.
  rewrite (bind_ok _ _ w tt w).
  2:{ rewrite check_unit_first_outside.
      replace (first_outside _) with (@None (string * R)); [reflexivity|].
      symmetry. apply first_outside_three_none. tauto. }
  cbv beta iota zeta delta [calculate_equilibrium equilibrium_unclipped].
  rewrite linspace_years.
  change (map INR (seq 0 (0 + 1))) with [INR 0].
  erewrite bind_ok by apply odeint_single.
  cbn [column_H column_V column_alpha map zip3 combine fst snd map_M].
  destruct (calculate_LEI_ok H0 V0 alpha0 PHI 0.1 w HH HV Ha ltac:(lra))
    as (l & w1 & Hl & Hrng1).
  erewrite bind_ok by (erewrite bind_ok by exact Hl; reflexivity).
  destruct (calculate_d_phi_total H0 V0 PHI w1)
    as (d & w2 & Hd & _ & Hzero & Hnonzero).
  erewrite bind_ok by (erewrite bind_ok by exact Hd; reflexivity).
  eexists _, _. split; [reflexivity|].
  rewrite <- Hrng1.
  destruct (Req_dec_T V0 0) as [Hz | Hz].
  - destruct (Hzero Hz) as [_ ->]. reflexivity.
  - destruct (Hnonzero Hz) as [_ ->]. reflexivity.
Qed.

(** If the integration returns and every row lies in the unit cube, the
    call returns, and the derived metrics consume nothing from the
    generator. *)
Lemma simulate_evolution_returns
      H0 V0 alpha0 years gamma_H gamma_V beta sigma_H sigma_V sigma_alpha
      noise_seed (w : World G) solution w1 :
  in_cube (H0, V0, alpha0) ->
  integrate ode (H0, V0, alpha0) (linspace 0 (INR years) (years + 1))
            (engine_params H0 V0 alpha0 gamma_H gamma_V beta
                           sigma_H sigma_V sigma_alpha noise_seed) w
  = (Ok solution, w1) ->
  Forall in_cube solution ->
  exists r w',
    simulate H0 V0 alpha0 years gamma_H gamma_V beta
             sigma_H sigma_V sigma_alpha noise_seed w = (Ok r, w') /\
    rng w' = rng w1.
Proof.
  intros (HH & HV & Ha) Hint Hcube. simpl in HH, HV, Ha.
  unfold simulate_evolution.
  rewrite (bind_ok _ _ w tt w).
  2:{ rewrite check_unit_first_outside.
      replace (first_outside _) with (@None (string * R)); [reflexivity|].
      symmetry. apply first_outside_three_none. tauto. }
  unfold engine_params in Hint.
  cbv beta iota zeta delta [calculate_equilibrium equilibrium_unclipped]
    in Hint |- *.
  erewrite bind_ok by exact Hint.
  rewrite zip3_columns, combine_columns.
  destruct (map_M_total_preserving
              (fun s : State =>
                 calculate_LEI (G := G) (fst (fst s)) (snd (fst s)) (snd s)
                               PHI 0.1) solution) with (w := w1)
    as (LEI_traj & w2 & HLEI & Hr2).
  { intros x Hin w3. rewrite Forall_forall in Hcube.
    destruct (Hcube x Hin) as (Hx1 & Hx2 & Hx3).
    apply calculate_LEI_ok; try assumption. lra. }
  erewrite bind_ok by exact HLEI.
  destruct (map_M_total_preserving
              (fun hv : R * R =>
                 calculate_d_phi (G := G) (fst hv) (snd hv) PHI)
              (map fst solution)) with (w := w2)
    as (d_phi_traj & w3 & Hd & Hr3).
  { intros x _ w4. apply calculate_d_phi_preserving. }
  erewrite bind_ok by exact Hd.
  eexists _, _. split; [reflexivity | congruence].
Qed.

(** ** The single-trajectory entry point *)

(** C5 (as the code has it).  The call reports its validation error
    exactly when one of the three initial fields lies outside [[0, 1]];
    the error names the first such field, in the order [H0], [V0],
    [alpha0], and carries its value; it is raised with the world
    untouched, so no integration step, no reseeding and no warning
    precedes it.  The horizon takes no part in the validation. *)
Theorem validation_error_iff_field_outside
        H0 V0 alpha0 years gamma_H gamma_V beta sigma_H sigma_V sigma_alpha
        noise_seed (w : World G) :
  let call := simulate H0 V0 alpha0 years gamma_H gamma_V beta
                       sigma_H sigma_V sigma_alpha noise_seed w in
  (~ 0 <= H0 <= 1 ->
   call = (Raise (ValueError_range "H0" H0), w)) /\
  (0 <= H0 <= 1 -> ~ 0 <= V0 <= 1 ->
   call = (Raise (ValueError_range "V0" V0), w)) /\
  (0 <= H0 <= 1 -> 0 <= V0 <= 1 -> ~ 0 <= alpha0 <= 1 ->
   call = (Raise (ValueError_range "alpha0" alpha0), w)) /\
  (engine_validation_error (fst call) <->
   ~ (0 <= H0 <= 1 /\ 0 <= V0 <= 1 /\ 0 <= alpha0 <= 1)).
Proof.
  intros call.
  assert (Hfail : forall name got,
             first_outside [(H0, "H0"%string); (V0, "V0"%string);
                            (alpha0, "alpha0"%string)] = Some (name, got) ->
             call = (Raise (ValueError_range name got), w)).
  { intros name got Hfirst. unfold call, simulate_evolution.
    apply bind_raise. rewrite check_unit_first_outside, Hfirst.
    reflexivity. }
  assert (HA : ~ 0 <= H0 <= 1 -> in_unit H0 = false).
  { intros Hn. destruct (in_unit H0) eqn:E; [|reflexivity].
    apply in_unit_true in E. contradiction. }
  assert (HB : ~ 0 <= V0 <= 1 -> in_unit V0 = false).
  { intros Hn. destruct (in_unit V0) eqn:E; [|reflexivity].
    apply in_unit_true in E. contradiction. }
  assert (HC : ~ 0 <= alpha0 <= 1 -> in_unit alpha0 = false).
  { intros Hn. destruct (in_unit alpha0) eqn:E; [|reflexivity].
    apply in_unit_true in E. contradiction. }
  assert (H1 : ~ 0 <= H0 <= 1 ->
               call = (Raise (ValueError_range "H0" H0), w)).
  { intros Hn. apply Hfail. simpl. rewrite (HA Hn). reflexivity. }
  assert (H2 : 0 <= H0 <= 1 -> ~ 0 <= V0 <= 1 ->
               call = (Raise (ValueError_range "V0" V0), w)).
  { intros Hy Hn. apply Hfail. simpl.
    apply in_unit_true in Hy. rewrite Hy, (HB Hn). reflexivity. }
  assert (H3 : 0 <= H0 <= 1 -> 0 <= V0 <= 1 -> ~ 0 <= alpha0 <= 1 ->
               call = (Raise (ValueError_range "alpha0" alpha0), w)).
  { intros Hy Hy' Hn. apply Hfail. simpl.
    apply in_unit_true in Hy, Hy'. rewrite Hy, Hy', (HC Hn). reflexivity. }
  split; [exact H1|]. split; [exact H2|]. split; [exact H3|].
  split.
  - intros (name & got & Hcall & Hname) Hall.
    apply first_outside_three_none
      with (na := "H0"%string) (nb := "V0"%string) (nc := "alpha0"%string)
      in Hall.
    destruct call as [[r | e] w'] eqn:Ecall; simpl in Hcall;
      [discriminate|].
    inversion Hcall; subst e.
    apply (simulate_evolution_raises _ _ _ _ _ _ _ _ _ _ _ _ _ _ Hall)
      in Ecall.
    destruct Ecall as [He | [(s & He) | (name' & got' & He & Hin)]];
      try discriminate.
    inversion He; subst name' got'.
    simpl in Hname, Hin.
    destruct Hname as [<- | [<- | [<- | []]]];
      destruct Hin as [Hx | [Hx | [Hx | []]]]; discriminate.
  - intros Hnot. unfold engine_validation_error.
    destruct (Rle_dec 0 H0) as [Ha0 |]; [destruct (Rle_dec H0 1) as [Ha1 |]|].
    2,3: rewrite H1 by tauto; simpl; eexists _, _;
         (split; [reflexivity | simpl; tauto]).
    destruct (Rle_dec 0 V0) as [Hb0 |]; [destruct (Rle_dec V0 1) as [Hb1 |]|].
    2,3: rewrite H2 by tauto; simpl; eexists _, _;
         (split; [reflexivity | simpl; tauto]).
    rewrite H3 by tauto. simpl. eexists _, _.
    split; [reflexivity | simpl; tauto].
Qed.

(** C6.  With [years = 0] and an initial state in the unit cube the call
    returns a trajectory of exactly one sample: time [0] and the initial
    values of the three fields, with one value of each derived metric. *)
Theorem zero_horizon_single_sample
        H0 V0 alpha0 gamma_H gamma_V beta sigma_H sigma_V sigma_alpha
        noise_seed (w : World G) :
  0 <= H0 <= 1 -> 0 <= V0 <= 1 -> 0 <= alpha0 <= 1 ->
  exists r w',
    simulate H0 V0 alpha0 0 gamma_H gamma_V beta
             sigma_H sigma_V sigma_alpha noise_seed w = (Ok r, w') /\
    r_time r = [0] /\
    r_H r = [H0] /\ r_V r = [V0] /\ r_alpha r = [alpha0] /\
    List.length (r_LEI r) = 1%nat /\ List.length (r_d_phi r) = 1%nat.
Proof.
  intros HH HV Ha.
  destruct (simulate_evolution_zero_years_returns
              H0 V0 alpha0 gamma_H gamma_V beta sigma_H sigma_V sigma_alpha
              noise_seed w HH HV Ha) as (r & w' & Hsim & _).
  exists r, w'. split; [exact Hsim|].
  apply simulate_evolution_ok_inv in Hsim.
  destruct Hsim as (_ & solution & LEI_traj & d_phi_traj & w1 & w2
                    & Hint & HLEI & Hd & ->).
  rewrite linspace_years in *.
  change (map INR (seq 0 (0 + 1))) with [0] in *.
  rewrite odeint_single in Hint. inversion Hint; subst solution w1.
  apply map_M_length in HLEI, Hd.
  simpl. repeat split; assumption.
Qed.

(** C7.  Whenever the call returns, the time array and each of the five
    per-field and derived-metric arrays have [years + 1] entries, and the
    time array is [0, 1, ..., years], hence strictly increasing.  The call
    does return whenever the initial state is valid and the integration
    returns rows that all lie in the unit cube. *)
Theorem trajectory_has_years_plus_one_samples
        H0 V0 alpha0 years gamma_H gamma_V beta sigma_H sigma_V sigma_alpha
        noise_seed (w : World G) :
  (forall r w',
      simulate H0 V0 alpha0 years gamma_H gamma_V beta
               sigma_H sigma_V sigma_alpha noise_seed w = (Ok r, w') ->
      List.length (r_time r) = (years + 1)%nat /\
      List.length (r_H r) = (years + 1)%nat /\
      List.length (r_V r) = (years + 1)%nat /\
      List.length (r_alpha r) = (years + 1)%nat /\
      List.length (r_LEI r) = (years + 1)%nat /\
      List.length (r_d_phi r) = (years + 1)%nat /\
      r_time r = map INR (seq 0 (years + 1)) /\
      (forall i j, (i < j <= years)%nat ->
                   nth i (r_time r) 0 < nth j (r_time r) 0)) /\
  (in_cube (H0, V0, alpha0) ->
   forall solution w1,
     integrate ode (H0, V0, alpha0) (linspace 0 (INR years) (years + 1))
               (engine_params H0 V0 alpha0 gamma_H gamma_V beta
                              sigma_H sigma_V sigma_alpha noise_seed) w
     = (Ok solution, w1) ->
     Forall in_cube solution ->
     exists r w',
       simulate H0 V0 alpha0 years gamma_H gamma_V beta
                sigma_H sigma_V sigma_alpha noise_seed w = (Ok r, w')).
Proof.
  split.
  - intros r w' Hsim. apply simulate_evolution_ok_inv in Hsim.
    destruct Hsim as (_ & solution & LEI_traj & d_phi_traj & w1 & w2
                      & Hint & HLEI & Hd & ->).
    apply odeint_shape in Hint. destruct Hint as [Hlen _].
    rewrite linspace_length in Hlen.
    apply map_M_length in HLEI, Hd. rewrite length_map in Hd.
    cbn [r_time r_H r_V r_alpha r_LEI r_d_phi].
    unfold column_H, column_V, column_alpha. rewrite !length_map.
    rewrite linspace_length.
    split; [reflexivity|].
    do 3 (split; [exact Hlen|]).
    split; [rewrite HLEI; exact Hlen|].
    split; [rewrite Hd; exact Hlen|].
    split; [apply linspace_years|].
    intros i j Hij. rewrite linspace_years.
    change 0 with (INR 0). rewrite !map_nth.
    rewrite !seq_nth by lia. simpl Nat.add.
    apply lt_INR. lia.
  - intros Hcube solution w1 Hint Hrows.
    destruct (simulate_evolution_returns
                _ _ _ _ _ _ _ _ _ _ _ _ _ _ Hcube Hint Hrows)
      as (r & w' & Hsim & _).
    exists r, w'. exact Hsim.
Qed.

(** C8.  The distance metric returns for all inputs, never raises, and
    its value is nonnegative; for [V = 0] the value is the constant [10];
    hence every distance sample of every returned trajectory is
    nonnegative. *)
Theorem d_phi_nonnegative :
  (forall H V phi (w : World G),
      exists d w',
        calculate_d_phi H V phi w = (Ok d, w') /\
        0 <= d /\
        (V = 0 -> d = 10)) /\
  (forall H0 V0 alpha0 years gamma_H gamma_V beta sigma_H sigma_V
          sigma_alpha noise_seed (w : World G) r w',
      simulate H0 V0 alpha0 years gamma_H gamma_V beta
               sigma_H sigma_V sigma_alpha noise_seed w = (Ok r, w') ->
      Forall (fun d => 0 <= d) (r_d_phi r)).
Proof.
  split.
  - intros H V phi w.
    destruct (calculate_d_phi_total H V phi w)
      as (d & w' & Hd & Hpos & Hzero & _).
    exists d, w'. split; [exact Hd|]. split; [exact Hpos|].
    intros HV. apply Hzero. exact HV.
  - intros H0 V0 alpha0 years gamma_H gamma_V beta sigma_H sigma_V
           sigma_alpha noise_seed w r w' Hsim.
    apply simulate_evolution_ok_inv in Hsim.
    destruct Hsim as (_ & solution & LEI_traj & d_phi_traj & w1 & w2
                      & _ & _ & Hd & ->).
    cbn [r_d_phi].
    revert Hd. apply map_M_Forall.
    intros hv w3 y w4 Hy.
    destruct (calculate_d_phi_total (fst hv) (snd hv) PHI w3)
      as (d & w5 & Hd & Hpos & _).
    rewrite Hd in Hy. inversion Hy; subst. exact Hpos.
Qed.

End EngineFacts.

(** ** Which warnings a computation can issue *)

Lemma warns_only_ret {G A} P (a : A) : warns_only (G := G) P (ret a).
Proof.
  intros w o w' Hm. inversion Hm; subst. exists [].
  split; [symmetry; apply app_nil_r | constructor].
Qed.

Lemma warns_only_raise {G A} P e : warns_only (G := G) (A := A) P (raise e).
Proof.
  intros w o w' Hm. inversion Hm; subst. exists [].
  split; [symmetry; apply app_nil_r | constructor].
Qed.

Lemma warns_only_warn {G} (P : warning -> Prop) x :
  P x -> warns_only (G := G) P (warn x).
Proof.
  intros Hx w o w' Hm. inversion Hm; subst. exists [x].
  split; [reflexivity | constructor; [exact Hx | constructor]].
Qed.

Lemma warns_only_bind {G A B} P (m : M G A) (k : A -> M G B) :
  warns_only P m -> (forall a, warns_only P (k a)) ->
  warns_only P (bind m k).
Proof.
  intros Hm Hk w o w' Hb. unfold bind in Hb.
  destruct (m w) as [[a | e] w1] eqn:Em.
  - destruct (Hm _ _ _ Em) as (ws1 & Hw1 & HP1).
    destruct (Hk a _ _ _ Hb) as (ws2 & Hw2 & HP2).
    exists (ws1 ++ ws2). split.
    + rewrite Hw2, Hw1, app_assoc. reflexivity.
    + apply Forall_app. split; assumption.
  - inversion Hb; subst. eapply Hm. exact Em.
Qed.

Lemma warns_only_for_each {G A} P (body : A -> M G unit) xs :
  (forall x, warns_only P (body x)) -> warns_only P (for_each xs body).
Proof.
  intros Hbody. induction xs as [| x xs IH]; simpl.
  - apply warns_only_ret.
  - apply warns_only_bind; [apply Hbody | intros _; exact IH].
Qed.

Lemma warns_only_map_M {G A B} P (f : A -> M G B) xs :
  (forall x, warns_only P (f x)) -> warns_only P (map_M f xs).
Proof.
  intros Hf. induction xs as [| x xs IH]; simpl.
  - apply warns_only_ret.
  - apply warns_only_bind; [apply Hf | intros y].
    apply warns_only_bind; [exact IH | intros ys; apply warns_only_ret].
Qed.

Lemma warns_only_check_unit {G} P fields :
  warns_only (G := G) P (check_unit fields).
Proof.
  unfold check_unit. apply warns_only_for_each. intros [x name]. simpl.
  destruct (in_unit x); [apply warns_only_ret | apply warns_only_raise].
Qed.

Lemma warns_only_calculate_LEI {G} H V alpha phi epsilon :
  warns_only (G := G) metric_warning (calculate_LEI H V alpha phi epsilon).
Proof.
  unfold calculate_LEI.
  apply warns_only_bind; [apply warns_only_check_unit | intros _].
  destruct (Reqb V 0).
  - apply warns_only_bind; [| intros _; apply warns_only_ret].
    apply warns_only_warn. left. reflexivity.
  - apply warns_only_bind; [| intros l; apply warns_only_ret].
    unfold float_truediv.
    destruct (Reqb _ 0); [apply warns_only_raise | apply warns_only_ret].
Qed.

Lemma warns_only_calculate_d_phi {G} H V phi :
  warns_only (G := G) metric_warning (calculate_d_phi H V phi).
Proof.
  unfold calculate_d_phi. destruct (Reqb V 0).
  - apply warns_only_bind; [| intros _; apply warns_only_ret].
    apply warns_only_warn. right. reflexivity.
  - apply warns_only_ret.
Qed.

Lemma failures_app ws1 ws2 :
  failures (ws1 ++ ws2) = failures ws1 ++ failures ws2.
Proof.
  induction ws1 as [| x ws1 IH]; simpl; [reflexivity|].
  destruct x; simpl; rewrite IH; reflexivity.
Qed.

Lemma failures_metric ws : Forall metric_warning ws -> failures ws = [].
Proof.
  induction 1 as [| x ws Hx _ IH]; simpl; [reflexivity|].
  destruct Hx as [-> | ->]; exact IH.
Qed.

Lemma failures_engine ws : Forall engine_warning ws -> failures ws = [].
Proof.
  induction 1 as [| x ws Hx _ IH]; simpl; [reflexivity|].
  destruct Hx as [[-> | ->] | ->]; exact IH.
Qed.

Lemma warns_only_weaken {G A} (P Q : warning -> Prop) (m : M G A) :
  (forall x, P x -> Q x) -> warns_only P m -> warns_only Q m.
Proof.
  intros HPQ Hm w o w' Hr. destruct (Hm w o w' Hr) as (ws & Hws & HP).
  exists ws. split; [exact Hws|].
  apply Forall_forall. intros x Hx. apply HPQ.
  rewrite Forall_forall in HP. apply HP. exact Hx.
Qed.

(** ** The ensemble sampler *)

Section SamplerFacts.

Variable G : Type.
Variable seed_state : Z -> G.
Variable draw_uniform : R -> R -> G -> R * G.
Variable draw_normal : R -> R -> G -> R * G.
Variable Work : Type.
Variable work0 : Work.
Variable lsoda : Work -> State -> R -> R -> Solver (Work * State).

Local Abbreviation ode := (ode_system G seed_state draw_normal).
Local Abbreviation simulate_kw :=
  (simulate_evolution_kw G seed_state draw_normal Work work0 lsoda).
Local Abbreviation uniform := (np_random_uniform G draw_uniform).
Local Abbreviation body :=
  (sampler_body G seed_state draw_uniform draw_normal Work work0 lsoda).
Local Abbreviation loop :=
  (sampler_loop G seed_state draw_uniform draw_normal Work work0 lsoda).
Local Abbreviation sampler :=
  (simulate_multiple_trajectories
     G seed_state draw_uniform draw_normal Work work0 lsoda).

Lemma warns_only_seed P s :
  warns_only P (np_random_seed G seed_state s).
Proof.
  intros w o w' Hm. unfold np_random_seed in Hm.
  destruct ((0 <=? s)%Z && (s <? 2 ^ 32)%Z); inversion Hm; subst;
    exists []; (split; [symmetry; apply app_nil_r | constructor]).
Qed.

Lemma warns_only_normal P loc scale :
  warns_only P (np_random_normal G draw_normal loc scale).
Proof.
  intros w o w' Hm. unfold np_random_normal in Hm.
  destruct (draw_normal loc scale (rng w)) as [x g].
  inversion Hm; subst. exists [].
  split; [symmetry; apply app_nil_r | constructor].
Qed.

Lemma uniform_total low high (w : World G) :
  uniform low high w =
  (Ok (fst (draw_uniform low high (rng w))),
   mkWorld (snd (draw_uniform low high (rng w))) (warnings w)).
Proof.
  unfold np_random_uniform.
  destruct (draw_uniform low high (rng w)). reflexivity.
Qed.

Lemma warns_only_ode_system P state t params :
  warns_only P (ode state t params).
Proof.
  unfold ode_system. destruct state as [[H V] alpha].
  apply warns_only_bind; [apply warns_only_seed | intros _].
  apply warns_only_bind; [apply warns_only_normal | intros n1].
  apply warns_only_bind; [apply warns_only_normal | intros n2].
  apply warns_only_bind; [apply warns_only_normal | intros n3].
  apply warns_only_ret.
Qed.

Lemma warns_only_run_solver {A} (P : warning -> Prop) (s : Solver A) func :
  P Warn_ODEint ->
  (forall y t, warns_only P (func y t)) ->
  warns_only P (run_solver G s func).
Proof.
  intros HP Hf. induction s as [a | y t k IH | s' IH]; simpl.
  - apply warns_only_ret.
  - apply warns_only_bind; [apply Hf | exact IH].
  - apply warns_only_bind; [| intros _; exact IH].
    apply warns_only_warn. exact HP.
Qed.

Lemma warns_only_odeint_rows (P : warning -> Prop) func touts :
  P Warn_ODEint ->
  (forall y t, warns_only P (func y t)) ->
  forall wk y t, warns_only P (odeint_rows G Work lsoda func wk y t touts).
Proof.
  intros HP Hf. induction touts as [| tout rest IH]; intros wk y t; simpl.
  - apply warns_only_ret.
  - apply warns_only_bind; [apply warns_only_run_solver; assumption|].
    intros wy. apply warns_only_bind; [apply IH | intros rows].
    apply warns_only_ret.
Qed.

Lemma warns_only_simulate_evolution_kw H0 V0 alpha0 years kwargs :
  warns_only engine_warning (simulate_kw H0 V0 alpha0 years kwargs).
Proof.
  unfold simulate_evolution_kw, simulate_evolution.
  apply warns_only_bind; [apply warns_only_check_unit | intros _].
  cbv beta iota zeta delta [calculate_equilibrium equilibrium_unclipped].
  apply warns_only_bind.
  { unfold odeint. destruct (linspace _ _ _) as [| t0 touts].
    - apply warns_only_raise.
    - apply warns_only_bind; [| intros rows; apply warns_only_ret].
      apply warns_only_odeint_rows; [right; reflexivity|]. intros y t.
      apply warns_only_ode_system. }
  intros solution.
  apply warns_only_bind.
  { apply warns_only_map_M. intros x.
    apply (warns_only_weaken metric_warning); [intros y Hy; left; exact Hy|].
    apply warns_only_calculate_LEI. }
  intros LEI_traj.
  apply warns_only_bind.
  { apply warns_only_map_M. intros x.
    apply (warns_only_weaken metric_warning); [intros y Hy; left; exact Hy|].
    apply warns_only_calculate_d_phi. }
  intros d. apply warns_only_ret.
Qed.

(** One pass of the loop: the run's dictionary is appended when the
    simulation returns; when it raises, the ensemble is left as it was, a
    warning with the run index and the exception is recorded, and the loop
    goes on. *)
Lemma sampler_body_cases years H_range V_range alpha_range kwargs
      trajectories i (w : World G) :
  let d := draw_initial_state G draw_uniform H_range V_range alpha_range
                              (rng w) in
  let H0 := fst (fst (fst d)) in
  let V0 := snd (fst (fst d)) in
  let alpha0 := snd (fst d) in
  let kwargs_copy :=
    set_noise_seed kwargs
      (dict_get (kw_noise_seed kwargs) 42 + Z.of_nat i)%Z in
  body years H_range V_range alpha_range kwargs trajectories i w =
  match simulate_kw H0 V0 alpha0 years kwargs_copy
                    (mkWorld (snd d) (warnings w)) with
  | (Ok result, w1) =>
      (Ok (trajectories ++ [mkRun result i H0 V0 alpha0]), w1)
  | (Raise e, w1) =>
      (Ok trajectories,
       mkWorld (rng w1) (warnings w1 ++ [Warn_simulation_failed i e]))
  end.
Proof.
  unfold sampler_body, draw_initial_state.
  rewrite (bind_ok _ _ _ _ _ (uniform_total _ _ _)). cbn [rng warnings].
  destruct (draw_uniform (fst H_range) (snd H_range) (rng w)) as [H0 g1].
  cbn [fst snd].
  rewrite (bind_ok _ _ _ _ _ (uniform_total _ _ _)). cbn [rng warnings].
  destruct (draw_uniform (fst V_range) (snd V_range) g1) as [V0 g2].
  cbn [fst snd].
  rewrite (bind_ok _ _ _ _ _ (uniform_total _ _ _)). cbn [rng warnings].
  destruct (draw_uniform (fst alpha_range) (snd alpha_range) g2)
    as [alpha0 g3].
  cbn [fst snd]. unfold try_except, bind.
  destruct (simulate_kw H0 V0 alpha0 years _ _) as [[result | e] w1];
    reflexivity.
Qed.

Lemma sampler_loop_spec years H_range V_range alpha_range kwargs :
  forall indices trajectories (w : World G),
  exists added w' new,
    loop years H_range V_range alpha_range kwargs indices trajectories w
    = (Ok (trajectories ++ added), w') /\
    warnings w' = warnings w ++ new /\
    Permutation (map simulation_id added ++ map fst (failures new))
                indices /\
    (forall i e,
        In (i, e) (failures new) ->
        exists H0 V0 alpha0 w0 w1,
          simulate_kw H0 V0 alpha0 years
            (set_noise_seed kwargs
               (dict_get (kw_noise_seed kwargs) 42 + Z.of_nat i)%Z) w0
          = (Raise e, w1)) /\
    (forall t,
        In t added ->
        exists w0 w1,
          simulate_kw (run_H0 t) (run_V0 t) (run_alpha0 t) years
            (set_noise_seed kwargs
               (dict_get (kw_noise_seed kwargs) 42
                + Z.of_nat (simulation_id t))%Z) w0
          = (Ok (run_result t), w1)).
Proof.
  induction indices as [| i rest IH]; intros trajectories w.
  - exists [], w, []. simpl. rewrite !app_nil_r.
    split; [reflexivity|]. split; [reflexivity|].
    split; [constructor|]. split; [intros i e []| intros t []].
  - simpl. unfold bind at 1. rewrite sampler_body_cases.
    set (d := draw_initial_state G draw_uniform H_range V_range alpha_range
                                 (rng w)).
    set (w0 := mkWorld (snd d) (warnings w)).
    destruct (simulate_kw _ _ _ years _ w0) as [[result | e] w1] eqn:Esim.
    + destruct (warns_only_simulate_evolution_kw _ _ _ _ _ _ _ _ Esim)
        as (ws & Hws & Hmetric).
      destruct (IH (trajectories ++
                    [mkRun result i (fst (fst (fst d))) (snd (fst (fst d)))
                           (snd (fst d))]) w1)
        as (added & w' & new & Hloop & Hwarn & Hperm & Hfail & Hok).
      exists (mkRun result i (fst (fst (fst d))) (snd (fst (fst d)))
                    (snd (fst d)) :: added), w', (ws ++ new).
      split; [rewrite Hloop, <- app_assoc; reflexivity|].
      split; [rewrite Hwarn, Hws; unfold w0; simpl;
              rewrite app_assoc; reflexivity|].
      rewrite failures_app, (failures_engine _ Hmetric). simpl.
      split; [apply perm_skip; exact Hperm|].
      split; [exact Hfail|].
      intros t [<- | Hin]; [| apply Hok; exact Hin].
      simpl. exists w0, w1. exact Esim.
    + destruct (warns_only_simulate_evolution_kw _ _ _ _ _ _ _ _ Esim)
        as (ws & Hws & Hmetric).
      destruct (IH trajectories
                   (mkWorld (rng w1)
                            (warnings w1 ++ [Warn_simulation_failed i e])))
        as (added & w' & new & Hloop & Hwarn & Hperm & Hfail & Hok).
      exists added, w', (ws ++ Warn_simulation_failed i e :: new).
      split; [exact Hloop|].
      split; [rewrite Hwarn; simpl; rewrite Hws; unfold w0; simpl;
              rewrite <- !app_assoc; reflexivity|].
      rewrite failures_app, (failures_engine _ Hmetric). simpl.
      split; [apply Permutation_sym, Permutation_cons_app,
              Permutation_sym; exact Hperm|].
      split; [| exact Hok].
      intros j e' [Heq | Hin]; [| apply Hfail; exact Hin].
      inversion Heq; subst j e'.
      eexists _, _, _, w0, w1. exact Esim.
Qed.

Local Abbreviation before :=
  (world_before_run G seed_state draw_uniform draw_normal Work work0 lsoda).
Local Abbreviation drawn :=
  (run_draw G seed_state draw_uniform draw_normal Work work0 lsoda).
Local Abbreviation outcome_of :=
  (run_outcome G seed_state draw_uniform draw_normal Work work0 lsoda).

Lemma sampler_loop_app years H_range V_range alpha_range kwargs xs ys :
  forall trajectories (w : World G),
    loop years H_range V_range alpha_range kwargs (xs ++ ys) trajectories w
    = match loop years H_range V_range alpha_range kwargs xs trajectories w
      with
      | (Ok t, w1) =>
          loop years H_range V_range alpha_range kwargs ys t w1
      | (Raise e, w1) => (Raise e, w1)
      end.
Proof.
  induction xs as [| x xs IH]; intros trajectories w.
  - reflexivity.
  - cbn [app sampler_loop]. unfold bind.
    destruct (body years H_range V_range alpha_range kwargs trajectories x w)
      as [[t | e] w1]; [apply IH | reflexivity].
Qed.

Lemma sampler_loop_returns years H_range V_range alpha_range kwargs
      indices trajectories (w : World G) :
  exists t w',
    loop years H_range V_range alpha_range kwargs indices trajectories w
    = (Ok t, w').
Proof.
  destruct (sampler_loop_spec years H_range V_range alpha_range kwargs
                              indices trajectories w)
    as (added & w' & new & Hloop & _).
  eexists _, _. exact Hloop.
Qed.

Lemma sampler_prefix_world years H_range V_range alpha_range kwargs
      (ws : World G) n :
  exists trajectories,
    loop years H_range V_range alpha_range kwargs (seq 0 n) [] ws
    = (Ok trajectories,
       before years H_range V_range alpha_range kwargs ws n).
Proof.
  destruct (sampler_loop_returns years H_range V_range alpha_range kwargs
                                 (seq 0 n) [] ws) as (t & w' & Hloop).
  exists t. unfold world_before_run. rewrite Hloop. reflexivity.
Qed.

(** One more pass after the first [n]: the simulation of run [n] decides
    between a new ensemble member and a failure warning. *)
Lemma sampler_prefix_step years H_range V_range alpha_range kwargs
      (ws : World G) n trajectories :
  loop years H_range V_range alpha_range kwargs (seq 0 n) [] ws
  = (Ok trajectories, before years H_range V_range alpha_range kwargs ws n) ->
  loop years H_range V_range alpha_range kwargs (seq 0 (S n)) [] ws
  = match outcome_of years H_range V_range alpha_range kwargs ws n with
    | (Ok r, w1) =>
        let d := drawn years H_range V_range alpha_range kwargs ws n in
        (Ok (trajectories
             ++ [mkRun r n (fst (fst (fst d))) (snd (fst (fst d)))
                       (snd (fst d))]), w1)
    | (Raise e, w1) =>
        (Ok trajectories,
         mkWorld (rng w1) (warnings w1 ++ [Warn_simulation_failed n e]))
    end.
Proof.
  intros Hloop. rewrite seq_S, sampler_loop_app, Hloop.
  cbn [Nat.add sampler_loop]. unfold bind at 1.
  rewrite sampler_body_cases. unfold run_outcome, run_draw.
  destruct (simulate_kw _ _ _ years _ _) as [[r | e] w1]; reflexivity.
Qed.

Lemma world_before_run_S years H_range V_range alpha_range kwargs
      (ws : World G) n :
  before years H_range V_range alpha_range kwargs ws (S n)
  = match outcome_of years H_range V_range alpha_range kwargs ws n with
    | (Ok r, w1) => w1
    | (Raise e, w1) =>
        mkWorld (rng w1) (warnings w1 ++ [Warn_simulation_failed n e])
    end.
Proof.
  destruct (sampler_prefix_world years H_range V_range alpha_range kwargs
                                 ws n) as (t & Hloop).
  unfold world_before_run at 1.
  rewrite (sampler_prefix_step _ _ _ _ _ _ _ _ Hloop).
  destruct (outcome_of years H_range V_range alpha_range kwargs ws n)
    as [[r | e] w1]; reflexivity.
Qed.

(** The first [n] passes: what they record is decided, run by run, by
    the outcome of the run's own simulation. *)
Lemma sampler_prefix_runs years H_range V_range alpha_range kwargs
      (ws : World G) n :
  exists trajectories new,
    loop years H_range V_range alpha_range kwargs (seq 0 n) [] ws
    = (Ok trajectories,
       before years H_range V_range alpha_range kwargs ws n) /\
    warnings (before years H_range V_range alpha_range kwargs ws n)
    = warnings ws ++ new /\
    (forall i e,
        In (i, e) (failures new) <->
        (i < n)%nat /\
        fst (outcome_of years H_range V_range alpha_range kwargs ws i)
        = Raise e) /\
    (forall t,
        In t trajectories <->
        exists i r,
          (i < n)%nat /\
          fst (outcome_of years H_range V_range alpha_range kwargs ws i)
          = Ok r /\
          let d := drawn years H_range V_range alpha_range kwargs ws i in
          t = mkRun r i (fst (fst (fst d))) (snd (fst (fst d)))
                    (snd (fst d))).
Proof.
  induction n as [| n IH].
  - exists [], []. split; [reflexivity|].
    split; [unfold world_before_run; cbn; rewrite app_nil_r; reflexivity|].
    split.
    + intros i e. split; [intros [] | intros [Hlt _]; lia].
    + intros t. split; [intros [] | intros (i & r & Hlt & _); lia].
  - destruct IH as (trajectories & new & Hloop & Hwarn & Hfail & Hok).
    pose proof (sampler_prefix_step _ _ _ _ _ _ _ _ Hloop) as Hstep.
    pose proof (world_before_run_S years H_range V_range alpha_range kwargs
                                   ws n) as Hnext.
    destruct (outcome_of years H_range V_range alpha_range kwargs ws n)
      as [[r | e] w1] eqn:Eout.
    + assert (Hsim := Eout). unfold run_outcome in Hsim.
      destruct (warns_only_simulate_evolution_kw _ _ _ _ _ _ _ _ Hsim)
        as (wsim & Hwsim & Hengine).
      cbn [warnings] in Hwsim.
      eexists _, (new ++ wsim).
      split; [rewrite Hstep, Hnext; reflexivity|].
      split; [rewrite Hnext, Hwsim, Hwarn, app_assoc; reflexivity|].
      rewrite failures_app, (failures_engine _ Hengine), app_nil_r.
      split.
      * intros i e. rewrite Hfail. split.
        -- intros [Hlt Hi]. split; [lia | exact Hi].
        -- intros [Hlt Hi]. split; [| exact Hi].
           destruct (Nat.eq_dec i n) as [-> | Hne]; [| lia].
           rewrite Eout in Hi. discriminate.
      * intros t. rewrite in_app_iff, Hok. split.
        -- intros [(i & r' & Hlt & Hi & Ht) | [<- | []]].
           ++ exists i, r'. split; [lia|]. split; assumption.
           ++ exists n, r. split; [lia|]. rewrite Eout.
              split; reflexivity.
        -- intros (i & r' & Hlt & Hi & Ht).
           destruct (Nat.eq_dec i n) as [-> | Hne].
           ++ right. left. rewrite Eout in Hi. cbn [fst] in Hi.
              inversion Hi; subst r'. symmetry. exact Ht.
           ++ left. exists i, r'. split; [lia|]. split; assumption.
    + assert (Hsim := Eout). unfold run_outcome in Hsim.
      destruct (warns_only_simulate_evolution_kw _ _ _ _ _ _ _ _ Hsim)
        as (wsim & Hwsim & Hengine).
      cbn [warnings] in Hwsim.
      exists trajectories, (new ++ wsim ++ [Warn_simulation_failed n e]).
      split; [rewrite Hstep, Hnext; reflexivity|].
      split; [rewrite Hnext; cbn [warnings];
              rewrite Hwsim, Hwarn, <- !app_assoc; reflexivity|].
      rewrite !failures_app, (failures_engine _ Hengine).
      cbn [failures app].
      split.
      * intros i e'. rewrite in_app_iff, Hfail. split.
        -- intros [[Hlt Hi] | [Heq | []]].
           ++ split; [lia | exact Hi].
           ++ inversion Heq; subst i e'. split; [lia|].
              rewrite Eout. reflexivity.
        -- intros [Hlt Hi].
           destruct (Nat.eq_dec i n) as [-> | Hne].
           ++ right. left. rewrite Eout in Hi. cbn [fst] in Hi.
              inversion Hi. reflexivity.
           ++ left. split; [lia | exact Hi].
      * intros t. rewrite Hok. split.
        -- intros (i & r' & Hlt & Hi & Ht).
           exists i, r'. split; [lia|]. split; assumption.
        -- intros (i & r' & Hlt & Hi & Ht).
           exists i, r'. split; [| split; assumption].
           destruct (Nat.eq_dec i n) as [-> | Hne]; [| lia].
           rewrite Eout in Hi. discriminate.
Qed.

(** C9.  With a base seed that the generator accepts, the sampler always
    returns: the ensemble has at most [n] trajectories and is empty, with
    no warning, for [n = 0]; every run index below [n] is accounted for
    exactly once, either by a trajectory of the ensemble or by a recorded
    failure warning.  Which of the two is decided by the run's own
    simulation, the call of [simulate_evolution] at the state the run
    drew, with the run's seed, in the world the earlier runs left: a
    failure warning with index [i] and exception [e] is recorded exactly
    when [i < n] and that call raised [e], and the ensemble holds exactly
    the results of the calls that returned, each with its run index and
    its drawn initial state. *)
Theorem ensemble_isolates_run_failures
        n years H_range V_range alpha_range kwargs (w : World G) :
  valid_seed (dict_get (kw_noise_seed kwargs) 42%Z) ->
  let ws := mkWorld (seed_state (dict_get (kw_noise_seed kwargs) 42%Z))
                    (warnings w) in
  exists trajectories w' new,
    sampler n years H_range V_range alpha_range kwargs w
    = (Ok trajectories, w') /\
    warnings w' = warnings w ++ new /\
    (List.length trajectories <= n)%nat /\
    (n = 0%nat -> trajectories = [] /\ new = []) /\
    Permutation (map simulation_id trajectories ++ map fst (failures new))
                (seq 0 n) /\
    (forall i e,
        In (i, e) (failures new) <->
        (i < n)%nat /\
        fst (outcome_of years H_range V_range alpha_range kwargs ws i)
        = Raise e) /\
    (forall t,
        In t trajectories <->
        exists i r,
          (i < n)%nat /\
          fst (outcome_of years H_range V_range alpha_range kwargs ws i)
          = Ok r /\
          let d := drawn years H_range V_range alpha_range kwargs ws i in
          t = mkRun r i (fst (fst (fst d))) (snd (fst (fst d)))
                    (snd (fst d))).
Proof.
  intros Hseed ws. unfold simulate_multiple_trajectories.
  destruct (sampler_loop_spec years H_range V_range alpha_range kwargs
                              (seq 0 n) [] ws)
    as (added & w' & new & Hloop & Hwarn & Hperm & _).
  destruct (sampler_prefix_runs years H_range V_range alpha_range kwargs
                                ws n)
    as (trajectories & new' & Hloop' & Hwarn' & Hfail & Hok).
  rewrite Hloop in Hloop'. cbn [app] in Hloop'.
  assert (Hadded : added = trajectories) by (inversion Hloop'; reflexivity).
  assert (Hw' : w' = before years H_range V_range alpha_range kwargs ws n)
    by (inversion Hloop'; reflexivity).
  assert (Hnew : new' = new).
  { rewrite <- Hw', Hwarn in Hwarn'.
    apply app_inv_head in Hwarn'. symmetry. exact Hwarn'. }
  subst added new'.
  exists trajectories, w', new.
  split.
  { erewrite bind_ok by (apply np_random_seed_valid; exact Hseed).
    exact Hloop. }
  split; [exact Hwarn|].
  assert (Hlen : (List.length trajectories
                  + List.length (map fst (failures new)) = n)%nat).
  { pose proof (Permutation_length Hperm) as Hl.
    rewrite length_app, length_seq in Hl. rewrite !length_map in *.
    exact Hl. }
  split; [lia|].
  split.
  { intros ->. simpl in Hloop. inversion Hloop; subst.
    split; [reflexivity|].
    assert (Hnil : warnings ws ++ new = warnings ws ++ [])
      by (rewrite app_nil_r; symmetry; exact Hwarn).
    apply app_inv_head in Hnil. exact Hnil. }
  split; [exact Hperm|]. split; [exact Hfail | exact Hok].
Qed.

End SamplerFacts.


(** ** The demonstration environment *)

Lemma demo_noise s :
  noise_at Z Demo.seed_state Demo.draw_normal s = (0, 0, 0, (s + 2 + 2 + 2)%Z).
Proof. reflexivity. Qed.

Lemma int_zero : int (0 * 1000) = 0%Z.
Proof.
  unfold int. replace (Rleb 0 (0 * 1000)) with true.
  - symmetry. apply Int_part_spec. simpl. lra.
  - symmetry. apply Rleb_true. lra.
Qed.

Lemma demo_integrate_one_year H0 V0 alpha0 seed (w : World Z) :
  in_cube (H0, V0, alpha0) -> valid_seed seed ->
  exists y1,
    in_cube y1 /\
    odeint Z unit tt euler_stepper
           (ode_system Z Demo.seed_state Demo.draw_normal)
           (H0, V0, alpha0) (linspace 0 (INR 1) (1 + 1))
           (engine_params H0 V0 alpha0 0.05 0.08 0.015 0.01 0.01 0.005 seed) w
    = (Ok [(H0, V0, alpha0); y1], mkWorld (seed + 6)%Z (warnings w)).
Proof.
  intros (HH & HV & Ha) Hseed. simpl in HH, HV, Ha.
  unfold engine_params.
  cbv beta iota zeta delta [calculate_equilibrium equilibrium_unclipped].
  rewrite linspace_years. change (map INR (seq 0 (1 + 1))) with [0; 1].
  unfold odeint. cbn [odeint_rows]. unfold euler_stepper. cbn [run_solver].
  unfold bind.
  rewrite ode_system_ok.
  2:{ cbn [dict_get p_noise_seed]. rewrite int_zero, Z.add_0_r. exact Hseed. }
  unfold euler_update.
  cbn [dict_get p_noise_seed p_gamma_H p_gamma_V p_beta p_sigma_H p_sigma_V
       p_sigma_alpha p_H_eq p_V_eq p_alpha_eq run_solver ret fst snd].
  rewrite int_zero, Z.add_0_r, demo_noise.
  cbn [fst snd].
  pose proof (clip_unit (PHI * ((H0 + V0) / (PHI + 1)))) as HHe.
  pose proof (clip_unit ((H0 + V0) / (PHI + 1))) as HVe.
  pose proof (clip_unit (Rmin 0.70 (alpha0 + 0.15))) as Hae.
  pose proof (selection_pressure_bounds H0 V0) as Hsp.
  set (H_eq := clip (PHI * ((H0 + V0) / (PHI + 1))) 0 1) in *.
  set (V_eq := clip ((H0 + V0) / (PHI + 1)) 0 1) in *.
  set (alpha_eq := clip (Rmin 0.70 (alpha0 + 0.15)) 0 1) in *.
  set (sp := selection_pressure H0 V0) in *.
  eexists. split.
  2:{ replace (seed + 2 + 2 + 2)%Z with (seed + 6)%Z by lia. reflexivity. }
  unfold in_cube. cbn [fst snd].
  repeat split; try nra.
Qed.


Lemma demo_simulate_kw_one_year H0 V0 alpha0 seed (w : World Z) :
  in_cube (H0, V0, alpha0) -> valid_seed seed ->
  exists r w',
    Demo.simulate_kw H0 V0 alpha0 1 (set_noise_seed no_kwargs seed) w
    = (Ok r, w') /\
    rng w' = (seed + 6)%Z.
Proof.
  intros Hcube Hseed.
  destruct (demo_integrate_one_year H0 V0 alpha0 seed w Hcube Hseed)
    as (y1 & Hy1 & Hint).
  destruct (simulate_evolution_returns
              _ _ _ _ _ _ _ _ _ _ _ _ _ _ _ _ _ _ _ _ Hcube Hint)
    as (r & w' & Hsim & Hrng).
  { constructor; [exact Hcube|]. constructor; [exact Hy1 | constructor]. }
  exists r, w'. split; [exact Hsim | rewrite Hrng; reflexivity].
Qed.

Lemma demo_simulate_kw_zero_years H0 V0 alpha0 kwargs (w : World Z) :
  in_cube (H0, V0, alpha0) ->
  exists r w',
    Demo.simulate_kw H0 V0 alpha0 0 kwargs w = (Ok r, w') /\
    rng w' = rng w.
Proof.
  intros (HH & HV & Ha). cbn [fst snd] in HH, HV, Ha.
  unfold Demo.simulate_kw, simulate_evolution_kw.
  apply simulate_evolution_zero_years_returns; assumption.
Qed.

Lemma sampler_body_ok {G} seed_state draw_uniform draw_normal
      Work work0 lsoda years H_range V_range alpha_range kwargs
      trajectories i (w : World G) g H0 V0 alpha0 g3 r w1 :
  rng w = g ->
  draw_initial_state G draw_uniform H_range V_range alpha_range g
  = ((H0, V0, alpha0), g3) ->
  simulate_evolution_kw G seed_state draw_normal Work work0 lsoda
    H0 V0 alpha0 years
    (set_noise_seed kwargs
       (dict_get (kw_noise_seed kwargs) 42%Z + Z.of_nat i)%Z)
    (mkWorld g3 (warnings w)) = (Ok r, w1) ->
  sampler_body G seed_state draw_uniform draw_normal Work work0 lsoda
               years H_range V_range alpha_range kwargs trajectories i w
  = (Ok (trajectories ++ [mkRun r i H0 V0 alpha0]), w1).
Proof.
  intros Hg Hd Hsim. rewrite sampler_body_cases, Hg, Hd.
  cbn [fst snd]. rewrite Hsim. reflexivity.
Qed.

Lemma demo_draw_42 :
  draw_initial_state Z Demo.draw_uniform
                     Demo.H_range Demo.V_range Demo.alpha_range 42%Z
  = ((0.3 + (0.95 - 0.3) * (0 / 7),
      0.1 + (0.85 - 0.1) * (1 / 7),
      0.1 + (0.80 - 0.1) * (2 / 7)), 45%Z).
Proof. reflexivity. Qed.

Lemma demo_draw_45 :
  draw_initial_state Z Demo.draw_uniform
                     Demo.H_range Demo.V_range Demo.alpha_range 45%Z
  = ((0.3 + (0.95 - 0.3) * (3 / 7),
      0.1 + (0.85 - 0.1) * (4 / 7),
      0.1 + (0.80 - 0.1) * (5 / 7)), 48%Z).
Proof. reflexivity. Qed.

Lemma demo_draw_48 :
  draw_initial_state Z Demo.draw_uniform
                     Demo.H_range Demo.V_range Demo.alpha_range 48%Z
  = ((0.3 + (0.95 - 0.3) * (6 / 7),
      0.1 + (0.85 - 0.1) * (0 / 7),
      0.1 + (0.80 - 0.1) * (1 / 7)), 51%Z).
Proof. reflexivity. Qed.

Lemma valid_seed_42 : valid_seed 42%Z.
Proof. unfold valid_seed. lia. Qed.

(** ** Where the sampler's draws come from *)

(** C4 (what the code does instead).  Every evaluation of the right-hand
    side with an accepted seed leaves the global generator in the state
    that follows the reseeding, whatever stream position it had before;
    the sampler's next draws are taken from that state.  Two batches of
    two runs with the same base seed [42] and the same ranges, one with
    horizon [0] and one with horizon [1], evaluated with the counter
    generator and the Euler stepper, show the effect.  With horizon [0]
    no right-hand side is evaluated and the recorded initial states are
    the first draws of the stream seeded with [42].  With horizon [1] the
    right-hand side of run [0] reseeds the generator, so the initial state
    of run [1] is drawn from another state and differs. *)
Theorem sampler_draws_depend_on_integration :
  (forall (G : Type) (seed_state : Z -> G)
          (draw_normal : R -> R -> G -> R * G)
          (state : State) (t : R) (params : Params) (w : World G),
      valid_seed (dict_get (p_noise_seed params) 42 + int (t * 1000))%Z ->
      rng (snd (ode_system G seed_state draw_normal state t params w))
      = snd (noise_at G seed_state draw_normal
                      (dict_get (p_noise_seed params) 42
                       + int (t * 1000))%Z)) /\
  exists ensemble0 ensemble1 w0 w1,
    Demo.sampler 2 0 Demo.H_range Demo.V_range Demo.alpha_range no_kwargs
                 Demo.world0 = (Ok ensemble0, w0) /\
    Demo.sampler 2 1 Demo.H_range Demo.V_range Demo.alpha_range no_kwargs
                 Demo.world0 = (Ok ensemble1, w1) /\
    initial_states ensemble0 =
      claimed_initial_states Z Demo.seed_state Demo.draw_uniform
        Demo.H_range Demo.V_range Demo.alpha_range 42 2 /\
    initial_states ensemble1 <>
      claimed_initial_states Z Demo.seed_state Demo.draw_uniform
        Demo.H_range Demo.V_range Demo.alpha_range 42 2.
Proof.
  split.
  { intros G seed_state draw_normal [[H V] alpha] t params w Hseed.
    rewrite ode_system_ok by exact Hseed. reflexivity. }
  assert (Hc42 : in_cube (0.3 + (0.95 - 0.3) * (0 / 7),
                          0.1 + (0.85 - 0.1) * (1 / 7),
                          0.1 + (0.80 - 0.1) * (2 / 7)))
    by (unfold in_cube; cbn [fst snd]; lra).
  assert (Hc45 : in_cube (0.3 + (0.95 - 0.3) * (3 / 7),
                          0.1 + (0.85 - 0.1) * (4 / 7),
                          0.1 + (0.80 - 0.1) * (5 / 7)))
    by (unfold in_cube; cbn [fst snd]; lra).
  assert (Hc48 : in_cube (0.3 + (0.95 - 0.3) * (6 / 7),
                          0.1 + (0.85 - 0.1) * (0 / 7),
                          0.1 + (0.80 - 0.1) * (1 / 7)))
    by (unfold in_cube; cbn [fst snd]; lra).
  (* horizon 0 *)
  destruct (demo_simulate_kw_zero_years _ _ _
              (set_noise_seed no_kwargs (42 + Z.of_nat 0)%Z)
              (mkWorld 45%Z []) Hc42)
    as (ra0 & wa1 & Hsa0 & Hrnga0).
  cbn [rng] in Hrnga0.
  destruct (demo_simulate_kw_zero_years _ _ _
              (set_noise_seed no_kwargs (42 + Z.of_nat 1)%Z)
              (mkWorld 48%Z (warnings wa1)) Hc45)
    as (ra1 & wa2 & Hsa1 & _).
  (* horizon 1 *)
  destruct (demo_simulate_kw_one_year _ _ _ (42 + Z.of_nat 0)%Z
              (mkWorld 45%Z []) Hc42)
    as (rb0 & wb1 & Hsb0 & Hrngb0); [unfold valid_seed; simpl; lia|].
  change (42 + Z.of_nat 0 + 6)%Z with 48%Z in Hrngb0.
  destruct (demo_simulate_kw_one_year _ _ _ (42 + Z.of_nat 1)%Z
              (mkWorld 51%Z (warnings wb1)) Hc48)
    as (rb1 & wb2 & Hsb1 & _); [unfold valid_seed; simpl; lia|].
  eexists _, _, _, _.
  split.
  { unfold Demo.sampler, simulate_multiple_trajectories.
    erewrite bind_ok by (apply np_random_seed_valid; exact valid_seed_42).
    cbn [seq sampler_loop dict_get kw_noise_seed no_kwargs warnings
         Demo.world0].
    erewrite bind_ok.
    2:{ eapply sampler_body_ok;
        [reflexivity | exact demo_draw_42 | exact Hsa0]. }
    erewrite bind_ok.
    2:{ eapply sampler_body_ok;
        [exact Hrnga0 | exact demo_draw_45 | exact Hsa1]. }
    reflexivity. }
  split.
  { unfold Demo.sampler, simulate_multiple_trajectories.
    erewrite bind_ok by (apply np_random_seed_valid; exact valid_seed_42).
    cbn [seq sampler_loop dict_get kw_noise_seed no_kwargs warnings
         Demo.world0].
    erewrite bind_ok.
    2:{ eapply sampler_body_ok;
        [reflexivity | exact demo_draw_42 | exact Hsb0]. }
    erewrite bind_ok.
    2:{ eapply sampler_body_ok;
        [exact Hrngb0 | exact demo_draw_48 | exact Hsb1]. }
    reflexivity. }
  unfold claimed_initial_states. cbn [draws_from].
  change (Demo.seed_state 42) with 42%Z.
  rewrite demo_draw_42, demo_draw_45.
  split; [reflexivity|].
  cbn [initial_states map app run_H0 run_V0 run_alpha0].
  intros Heq. injection Heq as Hh _ _. lra.
Qed.

(** ** Instances *)

Lemma validation_error_iff_field_outside_witness :
  ~ 0 <= 1.5 <= 1 /\
  Demo.simulate 1.5 0.6 0.5 10 0.05 0.08 0.015 0.01 0.01 0.005 42
                Demo.world0
  = (Raise (ValueError_range "H0" 1.5), Demo.world0).
Proof.
  split; [lra|].
  apply (proj1 (validation_error_iff_field_outside
                  Z Demo.seed_state Demo.draw_normal unit tt euler_stepper
                  1.5 0.6 0.5 10 0.05 0.08 0.015 0.01 0.01 0.005 42
                  Demo.world0)).
  lra.
Defined.

(** The specification expects a validation error for a zero horizon; the
    call with horizon [0] and a valid state reports none. *)
Lemma zero_horizon_is_not_rejected :
  ~ (claimed_rejection 0.7 0.6 0.5 0 <->
     engine_validation_error
       (fst (Demo.simulate 0.7 0.6 0.5 0 0.05 0.08 0.015 0.01 0.01 0.005 42
                           Demo.world0))).
Proof.
  intros [Hclaim _].
  destruct (simulate_evolution_zero_years_returns
              Z Demo.seed_state Demo.draw_normal unit tt euler_stepper
              0.7 0.6 0.5 0.05 0.08 0.015 0.01 0.01 0.005 42 Demo.world0)
    as (r & w' & Hsim & _); try lra.
  unfold Demo.simulate in Hclaim. rewrite Hsim in Hclaim.
  destruct Hclaim as (name & got & Hbad & _).
  - right. right. right. reflexivity.
  - discriminate.
Qed.

Lemma zero_horizon_single_sample_witness :
  (0 <= 0.7 <= 1 /\ 0 <= 0.6 <= 1 /\ 0 <= 0.5 <= 1) /\
  exists r w',
    Demo.simulate 0.7 0.6 0.5 0 0.05 0.08 0.015 0.01 0.01 0.005 42
                  Demo.world0 = (Ok r, w') /\
    r_time r = [0] /\
    r_H r = [0.7] /\ r_V r = [0.6] /\ r_alpha r = [0.5] /\
    List.length (r_LEI r) = 1%nat /\ List.length (r_d_phi r) = 1%nat.
Proof.
  split; [lra|].
  apply (zero_horizon_single_sample
           Z Demo.seed_state Demo.draw_normal unit tt euler_stepper);
    lra.
Defined.

Lemma trajectory_has_years_plus_one_samples_witness :
  exists r w',
    Demo.simulate 0.3 0.2 0.3 1 0.05 0.08 0.015 0.01 0.01 0.005 42
                  Demo.world0 = (Ok r, w') /\
    List.length (r_time r) = 2%nat /\
    List.length (r_H r) = 2%nat /\
    List.length (r_d_phi r) = 2%nat /\
    r_time r = [0; 1].
Proof.
  assert (Hcube : in_cube (0.3, 0.2, 0.3))
    by (unfold in_cube; cbn [fst snd]; lra).
  destruct (demo_simulate_kw_one_year 0.3 0.2 0.3 42 Demo.world0 Hcube
                                      valid_seed_42)
    as (r & w' & Hsim & _).
  exists r, w'. split; [exact Hsim|].
  destruct (proj1 (trajectory_has_years_plus_one_samples
                     Z Demo.seed_state Demo.draw_normal unit tt euler_stepper
                     0.3 0.2 0.3 1 0.05 0.08 0.015 0.01 0.01 0.005 42
                     Demo.world0) r w' Hsim)
    as (Ht & HH & _ & _ & _ & Hd & Hgrid & _).
  split; [exact Ht|]. split; [exact HH|]. split; [exact Hd|]. exact Hgrid.
Defined.

Lemma d_phi_nonnegative_witness :
  (exists d w',
      calculate_d_phi 0.7 0 PHI Demo.world0 = (Ok d, w') /\
      0 <= d /\ d = 10) /\
  (exists r w',
      Demo.simulate 0.7 0 0.5 0 0.05 0.08 0.015 0.01 0.01 0.005 42
                    Demo.world0 = (Ok r, w') /\
      Forall (fun d => 0 <= d) (r_d_phi r)).
Proof.
  destruct (d_phi_nonnegative
              Z Demo.seed_state Demo.draw_normal unit tt euler_stepper)
    as [Hmetric Htraj].
  split.
  - destruct (Hmetric 0.7 0 PHI Demo.world0) as (d & w' & Hd & Hpos & Hz).
    exists d, w'. split; [exact Hd|]. split; [exact Hpos|].
    apply Hz. reflexivity.
  - destruct (simulate_evolution_zero_years_returns
                Z Demo.seed_state Demo.draw_normal unit tt euler_stepper
                0.7 0 0.5 0.05 0.08 0.015 0.01 0.01 0.005 42 Demo.world0)
      as (r & w' & Hsim & _); try lra.
    exists r, w'. split; [exact Hsim|].
    exact (Htraj _ _ _ _ _ _ _ _ _ _ _ _ _ _ Hsim).
Defined.

Lemma selection_pressure_in_unit_interval_witness :
  (0 < 0.6 /\ selection_pressure 0.7 0.6 = exp (- Rabs (0.7 / 0.6 - PHI))) /\
  (0 <= 0 /\ selection_pressure 0.7 0 = 0) /\
  0 <= selection_pressure 0.7 0.6 <= 1.
Proof.
  destruct (selection_pressure_in_unit_interval
              Z Demo.seed_state Demo.draw_normal 0.7 0.6)
    as (Hbounds & Hpos & _ & _).
  destruct (selection_pressure_in_unit_interval
              Z Demo.seed_state Demo.draw_normal 0.7 0)
    as (_ & _ & Hzero & _).
  split; [split; [lra | apply Hpos; lra]|].
  split; [split; [lra | apply Hzero; lra]|].
  exact Hbounds.
Defined.

(** With a base seed that [np.random.seed] rejects the batch aborts
    before its loop, even for zero runs. *)
Lemma rejected_base_seed_aborts_batch :
  Demo.sampler 0 0 Demo.H_range Demo.V_range Demo.alpha_range
               (set_noise_seed no_kwargs (-1)) Demo.world0
  = (Raise (ValueError_seed (-1)), Demo.world0).
Proof. reflexivity. Qed.

Lemma analyze_convergence_empty_raises_witness :
  [stalled_run] <> [] /\
  exists r w',
    analyze_convergence [stalled_run] 0.5 Demo.world0 = (Ok r, w') /\
    n_total r = 1%nat /\
    n_converged r = 0%nat /\
    mean_convergence_time r = NaN /\ std_convergence_time r = NaN.
Proof.
  split; [discriminate|].
  assert (Hloop : analyze_loop 0.5 [stalled_run] (mkTally [] [] [] [])
                               Demo.world0
                  = (Ok (mkTally [] [] [1] [0.5 / 0.5]), Demo.world0)).
  { unfold analyze_loop, analyze_body, stalled_run.
    cbn [run_result r_d_phi r_time r_V r_H last_item rev app
         converged convergence_times final_dphis final_ratios].
    unfold bind, ret.
    replace (Rltb 1 0.5) with false by (symmetry; apply Rltb_false; lra).
    replace (Rltb 0.1 0.5) with true by (symmetry; apply Rltb_true; lra).
    reflexivity. }
  destruct (proj2 (analyze_convergence_empty_raises 0.5 Demo.world0)
                  [stalled_run] _ _ ltac:(discriminate) Hloop)
    as (r & w' & Hr & Hn & Hc & _ & Hnan & _).
  exists r, w'. split; [exact Hr|]. split; [exact Hn|]. split; [exact Hc|].
  apply Hnan. reflexivity.
Defined.

Lemma sampler_draws_depend_on_integration_witness :
  valid_seed (dict_get (Some 42%Z) 42 + int (0 * 1000))%Z /\
  rng (snd (ode_system Z Demo.seed_state Demo.draw_normal (0.3, 0.2, 0.3) 0
              (engine_params 0.3 0.2 0.3 0.05 0.08 0.015 0.01 0.01 0.005 42)
              (mkWorld 7%Z [])))
  = 48%Z.
Proof.
  assert (Hseed : valid_seed (dict_get (Some 42%Z) 42 + int (0 * 1000))%Z).
  { rewrite int_zero. unfold valid_seed. simpl. lia. }
  split; [exact Hseed|].
  rewrite (proj1 sampler_draws_depend_on_integration
                 Z Demo.seed_state Demo.draw_normal (0.3, 0.2, 0.3) 0
                 (engine_params 0.3 0.2 0.3 0.05 0.08 0.015 0.01 0.01 0.005
                                42)
                 (mkWorld 7%Z []) Hseed).
  cbn [dict_get p_noise_seed engine_params]. rewrite int_zero. reflexivity.
Defined.

(** ** Rounding *)

Lemma Int_part_bounds x : IZR (Int_part x) <= x < IZR (Int_part x) + 1.
Proof. destruct (base_Int_part x) as [Hlo Hhi]. lra. Qed.

Lemma rint_cases x :
  rint x = Int_part x \/ rint x = (Int_part x + 1)%Z.
Proof.
  unfold rint. destruct (Rltb _ _); [left; reflexivity|].
  destruct (Rltb _ _); [right; reflexivity|].
  destruct (Z.even _); [left | right]; reflexivity.
Qed.

(** The nearest integer is within one half. *)
Lemma rint_error x : Rabs (IZR (rint x) - x) <= 1 / 2.
Proof.
  pose proof (Int_part_bounds x) as Hb. unfold rint.
  set (f := Int_part x) in *.
  destruct (Rltb (x - IZR f) (1 / 2)) eqn:E1.
  - apply Rltb_true in E1. apply Rabs_le. lra.
  - apply Rltb_false in E1.
    assert (Hup : Rabs (IZR (f + 1) - x) <= 1 / 2)
      by (rewrite plus_IZR; apply Rabs_le; simpl; lra).
    destruct (Rltb (1 / 2) (x - IZR f)) eqn:E2; [exact Hup|].
    apply Rltb_false in E2.
    destruct (Z.even f); [| exact Hup].
    apply Rabs_le. lra.
Qed.

Lemma rint_ge_int k x : IZR k <= x -> (k <= rint x)%Z.
Proof.
  intros Hk. pose proof (Int_part_bounds x) as Hb.
  assert (Hf : (k <= Int_part x)%Z).
  { assert (Hlt : IZR k < IZR (Int_part x + 1))
      by (rewrite plus_IZR; simpl; lra).
    apply lt_IZR in Hlt. lia. }
  destruct (rint_cases x) as [-> | ->]; lia.
Qed.

Lemma rint_le_int k x : x <= IZR k -> (rint x <= k)%Z.
Proof.
  intros Hk. pose proof (Int_part_bounds x) as Hb.
  assert (Hf : (Int_part x <= k)%Z).
  { apply le_IZR. lra. }
  destruct (Z.eq_dec (Int_part x) k) as [Heq | Hne].
  - unfold rint. rewrite Heq in *.
    replace (Rltb (x - IZR k) (1 / 2)) with true; [lia|].
    symmetry. apply Rltb_true. lra.
  - destruct (rint_cases x) as [-> | ->]; lia.
Qed.

Lemma rint_IZR k : rint (IZR k) = k.
Proof.
  apply Z.le_antisymm; [apply rint_le_int | apply rint_ge_int]; lra.
Qed.

Lemma rint_monotone x y : x <= y -> (rint x <= rint y)%Z.
Proof.
  intros Hxy.
  pose proof (Int_part_bounds x) as Hx. pose proof (Int_part_bounds y) as Hy.
  assert (Hf : (Int_part x <= Int_part y)%Z).
  { assert (Hlt : IZR (Int_part x) < IZR (Int_part y + 1))
      by (rewrite plus_IZR; simpl; lra).
    apply lt_IZR in Hlt. lia. }
  destruct (Z.eq_dec (Int_part x) (Int_part y)) as [Heq | Hne].
  - unfold rint. rewrite <- Heq in *. set (f := Int_part x) in *.
    destruct (Rltb (x - IZR f) (1 / 2)) eqn:X1.
    + destruct (Rltb (y - IZR f) (1 / 2)); [lia|].
      destruct (Rltb (1 / 2) (y - IZR f)); [lia|].
      destruct (Z.even f); lia.
    + apply Rltb_false in X1.
      replace (Rltb (y - IZR f) (1 / 2)) with false
        by (symmetry; apply Rltb_false; lra).
      destruct (Rltb (1 / 2) (x - IZR f)) eqn:X2.
      * apply Rltb_true in X2.
        replace (Rltb (1 / 2) (y - IZR f)) with true
          by (symmetry; apply Rltb_true; lra).
        lia.
      * destruct (Rltb (1 / 2) (y - IZR f)); destruct (Z.even f); lia.
  - pose proof (rint_ge_int (Int_part y) y (proj1 Hy)) as Hge.
    destruct (rint_cases x) as [-> | ->]; lia.
Qed.

Lemma pow10_pos n : 0 < 10 ^ n.
Proof. apply pow_lt. lra. Qed.

Lemma round_monotone x y n : x <= y -> round x n <= round y n.
Proof.
  intros Hxy. unfold round. pose proof (pow10_pos n) as Hp.
  apply Rmult_le_compat_r; [apply Rlt_le, Rinv_0_lt_compat; exact Hp|].
  apply IZR_le, rint_monotone. nra.
Qed.

Lemma round_IZR_div k n : round (IZR k / 10 ^ n) n = IZR k / 10 ^ n.
Proof.
  unfold round. pose proof (pow10_pos n) as Hp.
  replace (IZR k / 10 ^ n * 10 ^ n) with (IZR k) by (field; lra).
  rewrite rint_IZR. reflexivity.
Qed.

Lemma round_zero n : round 0 n = 0.
Proof.
  pose proof (round_IZR_div 0 n) as Hr.
  replace (IZR 0 / 10 ^ n) with 0 in Hr by (unfold Rdiv; simpl; ring).
  exact Hr.
Qed.

(** Rounding to [n] digits moves a value by at most half a unit of the
    last digit. *)
Lemma round_error x n : Rabs (round x n - x) <= 1 / 2 / 10 ^ n.
Proof.
  unfold round. pose proof (pow10_pos n) as Hp.
  pose proof (rint_error (x * 10 ^ n)) as He.
  replace (IZR (rint (x * 10 ^ n)) / 10 ^ n - x)
    with ((IZR (rint (x * 10 ^ n)) - x * 10 ^ n) / 10 ^ n) by (field; lra).
  unfold Rdiv at 1. rewrite Rabs_mult.
  rewrite (Rabs_right (/ 10 ^ n))
    by (apply Rle_ge, Rlt_le, Rinv_0_lt_compat; exact Hp).
  unfold Rdiv at 2.
  apply Rmult_le_compat_r; [apply Rlt_le, Rinv_0_lt_compat; exact Hp|].
  exact He.
Qed.

Lemma round_one n : round 1 n = 1.
Proof.
  pose proof (pow10_pos n) as Hp.
  assert (H10 : 10 ^ n = IZR (10 ^ Z.of_nat n)).
  { rewrite <- pow_IZR. reflexivity. }
  replace 1 with (IZR (10 ^ Z.of_nat n) / 10 ^ n) at 1 2
    by (rewrite <- H10; field; lra).
  apply round_IZR_div.
Qed.

Lemma PHI_lower : 1.6 < PHI.
Proof.
  unfold PHI.
  assert (Hs : 2.2 < sqrt 5).
  { rewrite <- (sqrt_square 2.2) by lra. apply sqrt_lt_1; lra. }
  lra.
Qed.

(** The golden-ratio identity [PHI * PHI = PHI + 1]. *)
Lemma PHI_square : PHI * PHI = PHI + 1.
Proof.
  unfold PHI. pose proof (sqrt_sqrt 5 ltac:(lra)) as Hs. nra.
Qed.

Lemma first_outside_some fields name got :
  first_outside fields = Some (name, got) ->
  In (got, name) fields /\ (got < 0 \/ 1 < got).
Proof.
  induction fields as [| [x n] rest IH]; simpl; [discriminate|].
  destruct (in_unit x) eqn:E.
  - intros Hr. destruct (IH Hr) as [Hin Hout]. split; [right; exact Hin|].
    exact Hout.
  - intros Hr. inversion Hr; subst. split; [left; reflexivity|].
    apply in_unit_false. exact E.
Qed.

Lemma check_unit_three_ok {G} a b c na nb nc (w : World G) :
  0 <= a <= 1 -> 0 <= b <= 1 -> 0 <= c <= 1 ->
  check_unit [(a, na); (b, nb); (c, nc)] w = (Ok tt, w).
Proof.
  intros Ha Hb Hc. rewrite check_unit_first_outside.
  replace (first_outside _) with (@None (string * R)); [reflexivity|].
  symmetry. apply first_outside_three_none. tauto.
Qed.

(** The validation loop of the metric functions: the error names the first
    field outside [[0, 1]] and carries its value. *)
Lemma check_unit_three_cases {G} a b c na nb nc (w : World G) :
  (0 <= a <= 1 /\ 0 <= b <= 1 /\ 0 <= c <= 1 /\
   check_unit [(a, na); (b, nb); (c, nc)] w = (Ok tt, w)) \/
  (~ 0 <= a <= 1 /\
   check_unit [(a, na); (b, nb); (c, nc)] w
   = (Raise (ValueError_range na a), w)) \/
  (0 <= a <= 1 /\ ~ 0 <= b <= 1 /\
   check_unit [(a, na); (b, nb); (c, nc)] w
   = (Raise (ValueError_range nb b), w)) \/
  (0 <= a <= 1 /\ 0 <= b <= 1 /\ ~ 0 <= c <= 1 /\
   check_unit [(a, na); (b, nb); (c, nc)] w
   = (Raise (ValueError_range nc c), w)).
Proof.
  rewrite check_unit_first_outside. simpl.
  destruct (in_unit a) eqn:Ea.
  - apply in_unit_true in Ea. destruct (in_unit b) eqn:Eb.
    + apply in_unit_true in Eb. destruct (in_unit c) eqn:Ec.
      * apply in_unit_true in Ec. left. tauto.
      * apply in_unit_false in Ec. right. right. right.
        repeat split; try tauto; lra.
    + apply in_unit_false in Eb. right. right. left.
      repeat split; try tauto; lra.
  - apply in_unit_false in Ea. right. left. split; [lra | reflexivity].
Qed.

(** ** The evolvability index *)

Lemma calculate_LEI_value {G} H V alpha phi epsilon (w : World G) :
  0 <= H <= 1 -> 0 <= V <= 1 -> 0 <= alpha <= 1 ->
  (V = 0 ->
   calculate_LEI H V alpha phi epsilon w
   = (Ok 0, mkWorld (rng w) (warnings w ++ [Warn_LEI_V0]))) /\
  (V <> 0 -> Rabs (H / V - phi) + epsilon <> 0 ->
   calculate_LEI H V alpha phi epsilon w
   = (Ok (round (V * alpha / (Rabs (H / V - phi) + epsilon)) 3), w)) /\
  (V <> 0 -> Rabs (H / V - phi) + epsilon = 0 ->
   calculate_LEI H V alpha phi epsilon w = (Raise ZeroDivisionError, w)).
Proof.
  intros HH HV Ha. unfold calculate_LEI.
  rewrite (bind_ok _ _ _ _ _ (check_unit_three_ok _ _ _ _ _ _ w HH HV Ha)).
  split; [| split]; intros Hz.
  - replace (Reqb V 0) with true by (symmetry; apply Reqb_true; exact Hz).
    reflexivity.
  - intros Hden.
    replace (Reqb V 0) with false by (symmetry; apply Reqb_false; exact Hz).
    rewrite (bind_ok _ _ _ _ _ (float_truediv_ok _ _ w Hden)). reflexivity.
  - intros Hden.
    replace (Reqb V 0) with false by (symmetry; apply Reqb_false; exact Hz).
    rewrite (bind_raise _ _ _ _ _ (float_truediv_zero _ _ w Hden)).
    reflexivity.
Qed.

Lemma calculate_LEI_raise_cases
      {G} H V alpha phi epsilon (w : World G) :
  (~ 0 <= H <= 1 ->
   calculate_LEI H V alpha phi epsilon w
   = (Raise (ValueError_range "H" H), w)) /\
  (0 <= H <= 1 -> ~ 0 <= V <= 1 ->
   calculate_LEI H V alpha phi epsilon w
   = (Raise (ValueError_range "V" V), w)) /\
  (0 <= H <= 1 -> 0 <= V <= 1 -> ~ 0 <= alpha <= 1 ->
   calculate_LEI H V alpha phi epsilon w
   = (Raise (ValueError_range "alpha" alpha), w)).
Proof.
  unfold calculate_LEI.
  destruct (check_unit_three_cases (G := G) H V alpha
              "H"%string "V"%string "alpha"%string w)
    as [(HH & HV & Ha & Hc) | [(HH & Hc) | [(HH & HV & Hc) |
        (HH & HV & Ha & Hc)]]].
  - repeat split; intros; contradiction.
  - rewrite (bind_raise _ _ _ _ _ Hc).
    repeat split; try (intros; contradiction); reflexivity.
  - rewrite (bind_raise _ _ _ _ _ Hc).
    repeat split; try (intros; contradiction); reflexivity.
  - rewrite (bind_raise _ _ _ _ _ Hc).
    repeat split; try (intros; contradiction); reflexivity.
Qed.


(** X2.  For arguments in the unit cube and a positive smoothing
    constant, [calculate_LEI] returns a value between [0] and the rounded
    [V * alpha / epsilon]; the value is [0] when [V = 0] or [alpha = 0],
    and it does not decrease when [alpha] grows. *)
Theorem calculate_LEI_bounds_and_monotonicity
        {G} H V alpha phi epsilon (w : World G) :
  0 <= H <= 1 -> 0 <= V <= 1 -> 0 <= alpha <= 1 -> 0 < epsilon ->
  exists l w',
    calculate_LEI H V alpha phi epsilon w = (Ok l, w') /\
    0 <= l <= round (V * alpha / epsilon) 3 /\
    (V = 0 \/ alpha = 0 -> l = 0) /\
    (forall alpha2 l2 w2,
        alpha <= alpha2 <= 1 ->
        calculate_LEI H V alpha2 phi epsilon w = (Ok l2, w2) ->
        l <= l2).
Proof.
  intros HH HV Ha Heps.
  destruct (calculate_LEI_value H V alpha phi epsilon w HH HV Ha)
    as (Hzero & Hnz & _).
  pose proof (LEI_denominator_pos (H / V - phi) epsilon Heps) as Hdnz.
  destruct (Req_dec_T V 0) as [Hz | Hz].
  - exists 0, (mkWorld (rng w) (warnings w ++ [Warn_LEI_V0])).
    split; [apply Hzero; exact Hz|].
    subst V. replace (0 * alpha / epsilon) with 0 by (field; lra).
    rewrite round_zero.
    split; [lra|]. split; [reflexivity|].
    intros alpha2 l2 w2 Ha2 Hl2.
    destruct (calculate_LEI_value H 0 alpha2 phi epsilon w HH HV)
      as (Hz2 & _ & _); [lra|].
    rewrite Hz2 in Hl2 by reflexivity. inversion Hl2. lra.
  - set (den := Rabs (H / V - phi) + epsilon).
    assert (Hden : epsilon <= den)
      by (unfold den; pose proof (Rabs_pos (H / V - phi)); lra).
    assert (Hinv : 0 < / den) by (apply Rinv_0_lt_compat; lra).
    assert (Hinv_le : / den <= / epsilon)
      by (apply Rinv_le_contravar; lra).
    assert (Hinv_eps : 0 < / epsilon) by (apply Rinv_0_lt_compat; lra).
    exists (round (V * alpha / den) 3), w.
    split; [apply Hnz; assumption|].
    split; [split|].
    + apply round_nonneg. unfold Rdiv.
      apply Rmult_le_pos; [apply Rmult_le_pos; lra | lra].
    + apply round_monotone. unfold Rdiv.
      apply Rmult_le_compat_l; [apply Rmult_le_pos; lra | exact Hinv_le].
    + split.
      * intros [HV0 | Ha0]; [contradiction|].
        subst alpha.
        replace (V * 0 / den) with 0 by (field; lra).
        apply round_zero.
      * intros alpha2 l2 w2 Ha2 Hl2.
        destruct (calculate_LEI_value H V alpha2 phi epsilon w HH HV)
          as (_ & Hnz2 & _); [lra|].
        rewrite Hnz2 in Hl2 by assumption. inversion Hl2.
        apply round_monotone. fold den. unfold Rdiv.
        apply Rmult_le_compat_r; [lra|].
        apply Rmult_le_compat_l; lra.
Qed.

(** ** The health index and the Goldilocks score *)

(** X3.  [calculate_CHI] raises exactly when an argument lies outside
    [[0, 1]], before the distance is computed; otherwise it returns a
    value in [[0, 1]], which is [0] (with the warning of the distance
    metric) when [V = 0]. *)
Theorem calculate_CHI_in_unit_interval {G} H V alpha phi (w : World G) :
  (0 <= H <= 1 -> 0 <= V <= 1 -> 0 <= alpha <= 1 ->
   exists c w',
     calculate_CHI H V alpha phi w = (Ok c, w') /\
     0 <= c <= 1 /\
     (V = 0 ->
      c = 0 /\ w' = mkWorld (rng w) (warnings w ++ [Warn_d_phi_V0])) /\
     (V <> 0 -> w' = w)) /\
  (~ (0 <= H <= 1 /\ 0 <= V <= 1 /\ 0 <= alpha <= 1) ->
   exists name got,
     calculate_CHI H V alpha phi w = (Raise (ValueError_range name got), w) /\
     (got < 0 \/ 1 < got)).
Proof.
  split.
  - intros HH HV Ha. unfold calculate_CHI.
    rewrite (bind_ok _ _ _ _ _ (check_unit_three_ok _ _ _ _ _ _ w HH HV Ha)).
    destruct (calculate_d_phi_total H V phi w)
      as (d & w' & Hd & Hpos & Hzero & Hnz).
    rewrite (bind_ok _ _ _ _ _ Hd).
    exists (round (H * V * alpha / (1 + d)) 3), w'.
    split; [reflexivity|].
    assert (Hinv : 0 < / (1 + d) <= 1).
    { split; [apply Rinv_0_lt_compat; lra|].
      rewrite <- Rinv_1 at 2. apply Rinv_le_contravar; lra. }
    assert (Hnum : 0 <= H * V * alpha <= 1).
    { split; [apply Rmult_le_pos; [apply Rmult_le_pos|]; lra|].
      assert (0 <= H * V <= 1) by nra. nra. }
    split; [split|].
    + apply round_nonneg. unfold Rdiv. apply Rmult_le_pos; lra.
    + apply Rle_trans with (round 1 3); [| rewrite round_one; lra].
      apply round_monotone. unfold Rdiv.
      apply Rle_trans with (1 * 1); [| lra].
      apply Rmult_le_compat; lra.
    + split.
      * intros Hz. destruct (Hzero Hz) as [_ Hw]. split; [| exact Hw].
        subst V. replace (H * 0 * alpha / (1 + d)) with 0 by (field; lra).
        apply round_zero.
      * intros Hz. apply Hnz. exact Hz.
  - intros Hn. unfold calculate_CHI.
    destruct (check_unit_three_cases (G := G) H V alpha
                "H"%string "V"%string "alpha"%string w)
      as [(HH & HV & Ha & Hc) | [(HH & Hc) | [(HH & HV & Hc) |
          (HH & HV & Ha & Hc)]]].
    + exfalso. apply Hn. tauto.
    + rewrite (bind_raise _ _ _ _ _ Hc). eexists _, _.
      split; [reflexivity | lra].
    + rewrite (bind_raise _ _ _ _ _ Hc). eexists _, _.
      split; [reflexivity | lra].
    + rewrite (bind_raise _ _ _ _ _ Hc). eexists _, _.
      split; [reflexivity | lra].
Qed.

Lemma float_overflow_big : 128 <= float_overflow.
Proof.
  unfold float_overflow.
  replace (2 ^ 1024) with (2 ^ 970 * 2 ^ 54)
    by (rewrite <- pow_add; reflexivity).
  assert (H1 : 1 <= 2 ^ 970) by (apply pow_R1_Rle; lra).
  assert (H2 : 2 ^ 8 <= 2 ^ 54) by (apply Rle_pow; [lra | lia]).
  assert (H3 : 2 ^ 8 = 256) by (simpl; lra).
  nra.
Qed.

Lemma float_pow2_ok {G} x (w : World G) :
  x ^ 2 < float_overflow -> float_pow2 x w = (Ok (x ^ 2), w).
Proof.
  intros Hx. unfold float_pow2.
  replace (Rleb float_overflow (x ^ 2)) with false
    by (symmetry; apply Rleb_false; exact Hx).
  rewrite andb_false_r. reflexivity.
Qed.

Lemma float_pow2_overflow {G} x (w : World G) :
  Rabs x < float_overflow -> float_overflow <= x ^ 2 ->
  float_pow2 x w = (Raise OverflowError, w).
Proof.
  intros Hx Hsq. unfold float_pow2.
  replace (Rltb (Rabs x) float_overflow) with true
    by (symmetry; apply Rltb_true; exact Hx).
  replace (Rleb float_overflow (x ^ 2)) with true
    by (symmetry; apply Rleb_true; exact Hsq).
  reflexivity.
Qed.

(** The score computed from squares that are in range. *)
Lemma gaussian_score_in_unit a b c :
  0 <= round (exp (- (a ^ 2 + b ^ 2 + c ^ 2))) 3 <= 1.
Proof.
  set (x := a ^ 2 + b ^ 2 + c ^ 2).
  assert (Hx : 0 <= x).
  { unfold x. pose proof (pow2_ge_0 a). pose proof (pow2_ge_0 b).
    pose proof (pow2_ge_0 c). lra. }
  assert (He : 0 < exp (- x) <= 1).
  { split; [apply exp_pos|].
    rewrite <- exp_0. destruct Hx as [Hx | <-].
    - left. apply exp_increasing. lra.
    - rewrite Ropp_0. right. reflexivity. }
  split.
  - apply round_nonneg. lra.
  - apply Rle_trans with (round 1 3); [| rewrite round_one; lra].
    apply round_monotone. lra.
Qed.

(** X4.  [goldilocks_score] validates nothing.  While the squared
    deviations stay within the range of a float it returns a score in
    [[0, 1]], after the one warning of [calculate_d_phi] when [V] is [0].
    It raises [OverflowError] when the deviation of [V] is a float whose
    square is out of range, and, that square being in range, when the
    deviation of [alpha] is such a float. *)
Theorem goldilocks_score_in_unit_interval {G} H V alpha phi (w : World G) :
  let x_V := (V - 0.6) / 0.2 in
  let x_alpha := (alpha - 0.7) / 0.2 in
  ((V <> 0 -> (round (Rabs (H / V - phi)) 3 / 0.5) ^ 2 < float_overflow) ->
   x_V ^ 2 < float_overflow -> x_alpha ^ 2 < float_overflow ->
   exists s,
     goldilocks_score H V alpha phi w
     = (Ok s, mkWorld (rng w)
                      (warnings w
                       ++ repeat Warn_d_phi_V0 (zero_samples [V]))) /\
     0 <= s <= 1) /\
  (Rabs x_V < float_overflow -> float_overflow <= x_V ^ 2 ->
   fst (goldilocks_score H V alpha phi w) = Raise OverflowError) /\
  (x_V ^ 2 < float_overflow ->
   Rabs x_alpha < float_overflow -> float_overflow <= x_alpha ^ 2 ->
   fst (goldilocks_score H V alpha phi w) = Raise OverflowError).
Proof.
  intros x_V x_alpha.
  assert (Hd : exists d,
             calculate_d_phi H V phi w
             = (Ok d, mkWorld (rng w)
                              (warnings w
                               ++ repeat Warn_d_phi_V0 (zero_samples [V])))).
  { unfold calculate_d_phi, zero_samples. cbn [filter].
    destruct (Reqb V 0); eexists; [reflexivity|].
    cbn [List.length repeat]. rewrite app_nil_r.
    destruct w; reflexivity. }
  destruct Hd as (d & Hd).
  unfold goldilocks_score. rewrite (bind_ok _ _ _ _ _ Hd).
  fold x_V x_alpha.
  split; [| split].
  - intros _ HV Ha.
    rewrite (bind_ok _ _ _ _ _ (float_pow2_ok x_V _ HV)).
    rewrite (bind_ok _ _ _ _ _ (float_pow2_ok x_alpha _ Ha)).
    eexists. split; [reflexivity|]. apply gaussian_score_in_unit.
  - intros HV Hsq.
    rewrite (bind_raise _ _ _ _ _ (float_pow2_overflow x_V _ HV Hsq)).
    reflexivity.
  - intros HV Ha Hsq.
    rewrite (bind_ok _ _ _ _ _ (float_pow2_ok x_V _ HV)).
    rewrite (bind_raise _ _ _ _ _ (float_pow2_overflow x_alpha _ Ha Hsq)).
    reflexivity.
Qed.

(** ** Zones *)

Ltac bool_cases :=
  repeat match goal with
         | |- context [Rltb ?a ?b] =>
             let E := fresh "E" in
             destruct (Rltb a b) eqn:E;
             [apply Rltb_true in E | apply Rltb_false in E]
         | |- context [Reqb ?a ?b] =>
             let E := fresh "E" in
             destruct (Reqb a b) eqn:E;
             [apply Reqb_true in E | apply Reqb_false in E]
         end.

Ltac abs_lra :=
  unfold Rabs in *;
  repeat match goal with
         | H : context [Rcase_abs ?x] |- _ => destruct (Rcase_abs x)
         | |- context [Rcase_abs ?x] => destruct (Rcase_abs x)
         end;
  lra.

Lemma classify_zone_goldilocks_inv (H V alpha phi : R) :
  classify_zone H V alpha phi = "Goldilocks Zone"%string ->
  V <> 0 /\ Rabs (H / V - phi) < 0.5 /\ 0.5 < alpha /\ 0.4 < V.
Proof.
  unfold classify_zone.
  destruct (Reqb V 0) eqn:EV;
    [discriminate | apply Reqb_false in EV].
  bool_cases; cbn [andb]; intros Hx; try discriminate;
    repeat split; try exact EV; lra.
Qed.

Lemma classify_zone_terminal_inv (H V alpha phi : R) :
  classify_zone H V alpha phi
  = "High Rigidity Zone (Terminal Lock-in)"%string ->
  V <> 0 /\ phi + 1.5 < H / V /\ alpha < 0.2.
Proof.
  unfold classify_zone.
  destruct (Reqb V 0) eqn:EV;
    [discriminate | apply Reqb_false in EV].
  bool_cases; cbn [andb]; intros Hx; try discriminate;
    repeat split; try exact EV; lra.
Qed.

(** X5.  The order of the tests in [classify_zone] hides none of the
    outer zones: the label is Goldilocks exactly under the Goldilocks
    condition, a rigidity label exactly when [H/V > phi + 1.5] (terminal
    lock-in exactly when moreover [alpha < 0.2]), chaos exactly when
    [H/V < phi - 1], and the undefined label exactly when [V = 0]. *)
Theorem classify_zone_outer_zones (H V alpha phi : R) :
  (classify_zone H V alpha phi = "Goldilocks Zone"%string <->
   V <> 0 /\ Rabs (H / V - phi) < 0.5 /\ 0.5 < alpha /\ 0.4 < V) /\
  (classify_zone H V alpha phi
   = "High Rigidity Zone (Terminal Lock-in)"%string <->
   V <> 0 /\ phi + 1.5 < H / V /\ alpha < 0.2) /\
  (classify_zone H V alpha phi = "High Rigidity Zone"%string <->
   V <> 0 /\ phi + 1.5 < H / V /\ 0.2 <= alpha) /\
  (classify_zone H V alpha phi = "High Chaos Zone"%string <->
   V <> 0 /\ H / V < phi - 1.0) /\
  (classify_zone H V alpha phi
   = "Low Variation Zone (Undefined H/V)"%string <-> V = 0).
Proof.
  unfold classify_zone.
  destruct (Reqb V 0) eqn:EV;
    [apply Reqb_true in EV | apply Reqb_false in EV].
  { repeat match goal with
           | |- _ /\ _ => split
           | |- _ <-> _ => split
           end; intros Hx; try discriminate;
      try (apply proj1 in Hx; contradiction); try exact EV;
      try reflexivity. }
  bool_cases; cbn [andb];
    repeat match goal with
           | |- _ /\ _ => split
           | |- _ <-> _ => split
           end; intros Hx;
    try discriminate; try reflexivity;
    try (split; [exact EV|]);
    try (destruct Hx as (_ & Hx1 & Hx2 & Hx3));
    try (destruct Hx as (_ & Hx1 & Hx2));
    try (destruct Hx as (_ & Hx1));
    try contradiction;
    try (repeat split; abs_lra);
    try abs_lra.
Qed.

Lemma goldilocks_LEI_bound (H V alpha : R) :
  0 <= H <= 1 -> 0 <= V <= 1 -> 0 <= alpha <= 1 ->
  classify_zone H V alpha PHI = "Goldilocks Zone"%string ->
  V <> 0 /\ 0.333 <= round (V * alpha / (Rabs (H / V - PHI) + 0.1)) 3.
Proof.
  intros HH HV Ha Hzone.
  apply classify_zone_goldilocks_inv in Hzone.
  destruct Hzone as (Hnz & Hd & Halpha & HVlow).
  split; [exact Hnz|].
  replace 0.333 with (round (IZR 333 / 10 ^ 3) 3)
    by (rewrite round_IZR_div; lra).
  apply round_monotone.
  pose proof (Rabs_pos (H / V - PHI)) as Hab.
  apply Rle_trans with (0.2 / 0.6); [lra|].
  unfold Rdiv.
  apply Rmult_le_compat;
    [lra | apply Rlt_le, Rinv_0_lt_compat; lra | nra
     | apply Rinv_le_contravar; lra].
Qed.

Lemma terminal_LEI_bound (H V alpha : R) :
  0 <= H <= 1 -> 0 <= V <= 1 -> 0 <= alpha <= 1 ->
  classify_zone H V alpha PHI
  = "High Rigidity Zone (Terminal Lock-in)"%string ->
  V <> 0 /\ 0 <= round (V * alpha / (Rabs (H / V - PHI) + 0.1)) 3 <= 0.041.
Proof.
  intros HH HV Ha Hzone.
  apply classify_zone_terminal_inv in Hzone.
  destruct Hzone as (Hnz & Hratio & Halpha).
  split; [exact Hnz|].
  pose proof PHI_lower as Hphi.
  assert (HVpos : 0 < V) by lra.
  assert (HVup : V * 3.1 < 1).
  { assert (Hr : 3.1 < H / V) by lra.
    apply (Rmult_lt_compat_r V) in Hr; [| exact HVpos].
    unfold Rdiv in Hr. rewrite Rmult_assoc, Rinv_l, Rmult_1_r in Hr by lra.
    lra. }
  split.
  - apply round_nonneg. pose proof (Rabs_pos (H / V - PHI)) as Hab.
    unfold Rdiv. apply Rmult_le_pos; [nra|].
    apply Rlt_le, Rinv_0_lt_compat; lra.
  - replace 0.041 with (round (IZR 41 / 10 ^ 3) 3)
      by (rewrite round_IZR_div; lra).
    apply round_monotone.
    assert (Hab : 1.5 < Rabs (H / V - PHI))
      by (rewrite Rabs_right; lra).
    apply Rle_trans with (0.065 / 1.6); [| lra].
    unfold Rdiv.
    apply Rmult_le_compat;
      [nra | apply Rlt_le, Rinv_0_lt_compat; lra | nra
       | apply Rinv_le_contravar; lra].
Qed.

(** X6.  A system with parameters in the unit cube that [classify_zone]
    puts in the Goldilocks zone has an evolvability index of at least
    [0.333], so [predict_viability] reports it viable for every threshold
    below that value, the default [0.1] included. *)
Theorem goldilocks_zone_is_viable {G} H V alpha threshold_LEI (w : World G) :
  0 <= H <= 1 -> 0 <= V <= 1 -> 0 <= alpha <= 1 ->
  threshold_LEI < 0.333 ->
  classify_zone H V alpha PHI = "Goldilocks Zone"%string ->
  exists l d,
    calculate_LEI H V alpha PHI 0.1 w = (Ok l, w) /\
    0.333 <= l /\
    predict_viability H V alpha threshold_LEI w = (Ok (true, d), w) /\
    (d = Highly_Viable l \/ d = Viable l \/ d = Marginally_Viable l).
Proof.
  intros HH HV Ha Hthr Hzone.
  destruct (goldilocks_LEI_bound H V alpha HH HV Ha Hzone) as [Hnz Hl].
  destruct (calculate_LEI_value H V alpha PHI 0.1 w HH HV Ha)
    as (_ & Hval & _).
  assert (Heps : 0 < 0.1) by lra.
  specialize (Hval Hnz (LEI_denominator_pos _ _ Heps)).
  set (l := round (V * alpha / (Rabs (H / V - PHI) + 0.1)) 3) in *.
  eexists l, _. split; [exact Hval|]. split; [exact Hl|].
  unfold predict_viability. rewrite (bind_ok _ _ _ _ _ Hval).
  replace (Rltb threshold_LEI l) with true
    by (symmetry; apply Rltb_true; lra).
  split; [reflexivity|].
  destruct (Rltb 1.0 l); [tauto|]. destruct (Rltb 0.5 l); tauto.
Qed.

(** X7.  A system with parameters in the unit cube that [classify_zone]
    labels as terminal lock-in has an evolvability index of at most
    [0.041]; [predict_viability] reports it non-viable with the terminal
    lock-in diagnosis for every threshold from [0.041] up, the default
    [0.1] included. *)
Theorem terminal_lock_in_is_not_viable
        {G} H V alpha threshold_LEI (w : World G) :
  0 <= H <= 1 -> 0 <= V <= 1 -> 0 <= alpha <= 1 ->
  0.041 <= threshold_LEI ->
  classify_zone H V alpha PHI
  = "High Rigidity Zone (Terminal Lock-in)"%string ->
  exists l,
    calculate_LEI H V alpha PHI 0.1 w = (Ok l, w) /\
    0 <= l <= 0.041 /\
    predict_viability H V alpha threshold_LEI w
    = (Ok (false, Terminal_Lock_in l threshold_LEI), w).
Proof.
  intros HH HV Ha Hthr Hzone.
  destruct (terminal_LEI_bound H V alpha HH HV Ha Hzone) as [Hnz Hl].
  destruct (calculate_LEI_value H V alpha PHI 0.1 w HH HV Ha)
    as (_ & Hval & _).
  assert (Heps : 0 < 0.1) by lra.
  specialize (Hval Hnz (LEI_denominator_pos _ _ Heps)).
  set (l := round (V * alpha / (Rabs (H / V - PHI) + 0.1)) 3) in *.
  exists l. split; [exact Hval|]. split; [exact Hl|].
  unfold predict_viability. rewrite (bind_ok _ _ _ _ _ Hval).
  replace (Rltb threshold_LEI l) with false
    by (symmetry; apply Rltb_false; lra).
  replace (Rltb l 0.05) with true by (symmetry; apply Rltb_true; lra).
  reflexivity.
Qed.

(** ** The clipped equilibrium *)

Lemma clip_inside x : 0 <= x <= 1 -> clip x 0 1 = x.
Proof.
  intros Hx. unfold clip, Rmin, Rmax.
  destruct (Rle_dec x 0); destruct (Rle_dec _ 1); lra.
Qed.

Lemma clip_above x : 1 <= x -> clip x 0 1 = 1.
Proof.
  intros Hx. unfold clip, Rmin, Rmax.
  destruct (Rle_dec x 0); destruct (Rle_dec _ 1); lra.
Qed.

(** X8.  For an initial state of the unit cube and the default ratio,
    the one the program passes, [calculate_equilibrium] clips at most
    [H_eq]: [V_eq] is [(H0 + V0) / (PHI + 1)], at most [0.77], and
    [alpha_eq] lies between [0.15] and [0.70].  [H_eq] is left unclipped
    exactly when [H0 + V0 <= PHI], and then the equilibrium keeps the
    ratio [H_eq = PHI * V_eq] and the sum [H_eq + V_eq = H0 + V0]; above
    that sum [H_eq] is cut to [1] and the ratio falls below [PHI]. *)
Theorem calculate_equilibrium_clipping (H0 V0 alpha0 : R) :
  0 <= H0 <= 1 -> 0 <= V0 <= 1 -> 0 <= alpha0 <= 1 ->
  exists H_eq V_eq alpha_eq,
    calculate_equilibrium H0 V0 alpha0 PHI = (H_eq, V_eq, alpha_eq) /\
    V_eq = (H0 + V0) / (PHI + 1) /\
    0 <= V_eq <= 0.77 /\
    alpha_eq = Rmin 0.70 (alpha0 + 0.15) /\
    0.15 <= alpha_eq <= 0.70 /\
    (H0 + V0 <= PHI ->
     H_eq = PHI * V_eq /\ H_eq + V_eq = H0 + V0) /\
    (PHI < H0 + V0 -> H_eq = 1 /\ H_eq < PHI * V_eq).
Proof.
  intros HH HV Ha.
  pose proof PHI_lower as Hphi. pose proof PHI_square as Hsq.
  set (total := H0 + V0).
  assert (Htotal : 0 <= total <= 2) by (unfold total; lra).
  assert (HVeq : 0 <= total / (PHI + 1) <= 1).
  { split.
    - unfold Rdiv. apply Rmult_le_pos; [lra|].
      apply Rlt_le, Rinv_0_lt_compat; lra.
    - apply Rle_trans with (2 / 2); [| lra].
      unfold Rdiv.
      apply Rmult_le_compat;
        [lra | apply Rlt_le, Rinv_0_lt_compat; lra | lra
         | apply Rinv_le_contravar; lra]. }
  assert (HHun : PHI * (total / (PHI + 1)) = total / PHI).
  { rewrite <- Hsq. field. lra. }
  assert (Hamin : 0.15 <= Rmin 0.70 (alpha0 + 0.15) <= 0.70).
  { unfold Rmin. destruct (Rle_dec 0.70 (alpha0 + 0.15)); lra. }
  exists (clip (PHI * (total / (PHI + 1))) 0 1), (total / (PHI + 1)),
         (Rmin 0.70 (alpha0 + 0.15)).
  split.
  { unfold calculate_equilibrium, equilibrium_unclipped. fold total.
    rewrite (clip_inside (total / (PHI + 1))) by exact HVeq.
    rewrite (clip_inside (Rmin 0.70 (alpha0 + 0.15))) by lra.
    reflexivity. }
  split; [reflexivity|].
  split.
  { split; [lra|].
    apply Rle_trans with (2 / 2.6); [| lra].
    unfold Rdiv.
    apply Rmult_le_compat;
      [lra | apply Rlt_le, Rinv_0_lt_compat; lra | lra
       | apply Rinv_le_contravar; lra]. }
  split; [reflexivity|]. split; [exact Hamin|].
  assert (Hinv : 0 < / PHI) by (apply Rinv_0_lt_compat; lra).
  split.
  - intros Hle.
    assert (Hin : 0 <= total / PHI <= 1).
    { split; [unfold Rdiv; apply Rmult_le_pos; lra|].
      apply Rle_trans with (PHI / PHI); [| right; field; lra].
      unfold Rdiv. apply Rmult_le_compat_r; lra. }
    rewrite HHun, (clip_inside _ Hin). split; [reflexivity|].
    rewrite <- HHun. field. lra.
  - intros Hgt.
    assert (Hout : 1 < total / PHI).
    { apply Rle_lt_trans with (PHI / PHI); [right; field; lra|].
      unfold Rdiv. apply Rmult_lt_compat_r; lra. }
    rewrite HHun, clip_above by lra. split; [reflexivity | exact Hout].
Qed.

(** ** What a returned trajectory looks like *)

Lemma calculate_LEI_ok_inv {G} H V alpha phi epsilon (w : World G) l w' :
  calculate_LEI H V alpha phi epsilon w = (Ok l, w') ->
  0 <= H <= 1 /\ 0 <= V <= 1 /\ 0 <= alpha <= 1.
Proof.
  intros Hl.
  destruct (Rle_dec 0 H) as [H1 |]; [destruct (Rle_dec H 1) as [H2 |]|].
  2,3: rewrite (proj1 (calculate_LEI_raise_cases
                         H V alpha phi epsilon w)) in Hl by lra;
       discriminate.
  destruct (Rle_dec 0 V) as [V1 |]; [destruct (Rle_dec V 1) as [V2 |]|].
  2,3: rewrite (proj1 (proj2 (calculate_LEI_raise_cases
                                H V alpha phi epsilon w)))
         in Hl by lra; discriminate.
  destruct (Rle_dec 0 alpha) as [A1 |];
    [destruct (Rle_dec alpha 1) as [A2 |]|].
  2,3: rewrite (proj2 (proj2 (calculate_LEI_raise_cases
                                H V alpha phi epsilon w)))
         in Hl by lra; discriminate.
  lra.
Qed.

(** ** Comprehensions over the rows *)

Lemma in_cube_dec (s : State) : {in_cube s} + {~ in_cube s}.
Proof.
  unfold in_cube.
  destruct (Rle_dec 0 (fst (fst s))); [| right; tauto].
  destruct (Rle_dec (fst (fst s)) 1); [| right; tauto].
  destruct (Rle_dec 0 (snd (fst s))); [| right; tauto].
  destruct (Rle_dec (snd (fst s)) 1); [| right; tauto].
  destruct (Rle_dec 0 (snd s)); [| right; tauto].
  destruct (Rle_dec (snd s) 1); [| right; tauto].
  left. tauto.
Qed.

(** A list is inside a predicate throughout, or has a first element
    outside it. *)
Lemma Forall_or_first {A} (P : A -> Prop) (dec : forall x, {P x} + {~ P x})
      (xs : list A) :
  Forall P xs \/
  exists pre x post, xs = pre ++ x :: post /\ Forall P pre /\ ~ P x.
Proof.
  induction xs as [| x xs IH].
  - left. constructor.
  - destruct (dec x) as [Hx | Hx].
    + destruct IH as [IH | (pre & y & post & -> & Hpre & Hy)].
      * left. constructor; assumption.
      * right. exists (x :: pre), y, post.
        split; [reflexivity|]. split; [constructor; assumption | exact Hy].
    + right. exists [], x, xs. split; [reflexivity|].
      split; [constructor | exact Hx].
Qed.

Lemma world_eta {G} (w : World G) : mkWorld (rng w) (warnings w) = w.
Proof. destruct w. reflexivity. Qed.

Lemma calculate_LEI_row {G} (s : State) (w : World G) :
  in_cube s ->
  calculate_LEI (fst (fst s)) (snd (fst s)) (snd s) PHI 0.1 w
  = (Ok (LEI_of (fst (fst s)) (snd (fst s)) (snd s)),
     mkWorld (rng w)
             (warnings w
              ++ repeat Warn_LEI_V0 (zero_samples [snd (fst s)]))).
Proof.
  intros (HH & HV & Ha).
  destruct (calculate_LEI_value (fst (fst s)) (snd (fst s)) (snd s) PHI 0.1
                                w HH HV Ha) as (Hzero & Hnz & _).
  unfold LEI_of, zero_samples. cbn [filter].
  destruct (Reqb (snd (fst s)) 0) eqn:E.
  - apply Reqb_true in E. rewrite (Hzero E). reflexivity.
  - apply Reqb_false in E.
    assert (Heps : 0 < 0.1) by lra.
    rewrite (Hnz E (LEI_denominator_pos _ _ Heps)).
    cbn [List.length repeat].
    rewrite app_nil_r, world_eta. reflexivity.
Qed.

Lemma calculate_d_phi_row {G} (H V : R) (w : World G) :
  calculate_d_phi H V PHI w
  = (Ok (d_phi_of H V),
     mkWorld (rng w)
             (warnings w ++ repeat Warn_d_phi_V0 (zero_samples [V]))).
Proof.
  unfold calculate_d_phi, d_phi_of, zero_samples. cbn [filter].
  destruct (Reqb V 0) eqn:E.
  - reflexivity.
  - cbn [List.length repeat]. rewrite app_nil_r, world_eta. reflexivity.
Qed.

Lemma zero_samples_cons x xs :
  zero_samples (x :: xs) = (zero_samples [x] + zero_samples xs)%nat.
Proof.
  unfold zero_samples. cbn [filter].
  destruct (Reqb x 0); reflexivity.
Qed.

Lemma zero_samples_app xs ys :
  zero_samples (xs ++ ys) = (zero_samples xs + zero_samples ys)%nat.
Proof.
  unfold zero_samples. rewrite filter_app, length_app. reflexivity.
Qed.

(** The comprehension of the evolvability index over rows of the unit
    cube: one value per row, one warning per row with [V = 0]. *)
Lemma map_M_LEI_rows {G} (solution : list State) :
  Forall in_cube solution ->
  forall w : World G,
    map_M (fun s : State =>
             calculate_LEI (fst (fst s)) (snd (fst s)) (snd s) PHI 0.1)
          solution w
    = (Ok (map (fun s : State =>
                  LEI_of (fst (fst s)) (snd (fst s)) (snd s)) solution),
       mkWorld (rng w)
               (warnings w
                ++ repeat Warn_LEI_V0 (zero_samples (column_V solution)))).
Proof.
  induction 1 as [| s rest Hs _ IH]; intros w.
  - cbn. rewrite app_nil_r, world_eta. reflexivity.
  - cbn [map_M map].
    rewrite (bind_ok _ _ _ _ _ (calculate_LEI_row s w Hs)).
    rewrite (bind_ok _ _ _ _ _ (IH _)).
    cbn [rng warnings ret].
    change (column_V (s :: rest)) with (snd (fst s) :: column_V rest).
    rewrite (zero_samples_cons (snd (fst s)) (column_V rest)), repeat_app, <- app_assoc.
    reflexivity.
Qed.

(** The same comprehension over rows of which one lies outside the cube:
    the index rejects that row, after the warnings of the rows before
    it. *)
Lemma map_M_LEI_rows_raise {G} (pre : list State) (s : State)
      (post : list State) :
  Forall in_cube pre -> ~ in_cube s ->
  exists name got,
    first_outside [(fst (fst s), "H"%string); (snd (fst s), "V"%string);
                   (snd s, "alpha"%string)] = Some (name, got) /\
    forall w : World G,
      map_M (fun s : State =>
               calculate_LEI (fst (fst s)) (snd (fst s)) (snd s) PHI 0.1)
            (pre ++ s :: post) w
      = (Raise (ValueError_range name got),
         mkWorld (rng w)
                 (warnings w
                  ++ repeat Warn_LEI_V0 (zero_samples (column_V pre)))).
Proof.
  intros Hpre Hs.
  assert (Hfirst : exists name got,
             first_outside [(fst (fst s), "H"%string);
                            (snd (fst s), "V"%string);
                            (snd s, "alpha"%string)] = Some (name, got)).
  { destruct (first_outside _) as [[name got] |] eqn:E.
    - exists name, got. reflexivity.
    - apply first_outside_three_none in E. exfalso. apply Hs. exact E. }
  destruct Hfirst as (name & got & Hfirst).
  exists name, got. split; [exact Hfirst|].
  induction Hpre as [| p rest Hp _ IH]; intros w.
  - cbn [app map_M column_V map zero_samples filter List.length repeat].
    rewrite app_nil_r, world_eta.
    apply bind_raise. unfold calculate_LEI.
    apply bind_raise. rewrite check_unit_first_outside, Hfirst.
    reflexivity.
  - cbn [app map_M].
    rewrite (bind_ok _ _ _ _ _ (calculate_LEI_row p w Hp)).
    rewrite (bind_raise _ _ _ _ _ (IH _)).
    cbn [rng warnings].
    change (column_V (p :: rest)) with (snd (fst p) :: column_V rest).
    rewrite (zero_samples_cons (snd (fst p)) (column_V rest)), repeat_app, <- app_assoc.
    reflexivity.
Qed.

Lemma map_M_d_phi_rows {G} (solution : list State) (w : World G) :
  map_M (fun hv : R * R => calculate_d_phi (fst hv) (snd hv) PHI)
        (map fst solution) w
  = (Ok (map (fun s : State => d_phi_of (fst (fst s)) (snd (fst s)))
             solution),
     mkWorld (rng w)
             (warnings w
              ++ repeat Warn_d_phi_V0 (zero_samples (column_V solution)))).
Proof.
  revert w. induction solution as [| s rest IH]; intros w.
  - cbn. rewrite app_nil_r, world_eta. reflexivity.
  - cbn [map_M map].
    rewrite (bind_ok _ _ _ _ _ (calculate_d_phi_row _ _ w)).
    rewrite (bind_ok _ _ _ _ _ (IH _)).
    cbn [rng warnings ret].
    change (column_V (s :: rest)) with (snd (fst s) :: column_V rest).
    rewrite (zero_samples_cons (snd (fst s)) (column_V rest)), repeat_app, <- app_assoc.
    reflexivity.
Qed.

Lemma map_M_LEI_ok_rows {G} (solution : list State) :
  forall (w : World G) ys w',
    map_M (fun s : State =>
             calculate_LEI (fst (fst s)) (snd (fst s)) (snd s) PHI 0.1)
          solution w = (Ok ys, w') ->
    Forall in_cube solution.
Proof.
  intros w ys w' Hm.
  destruct (Forall_or_first in_cube in_cube_dec solution)
    as [Hall | (pre & s & post & -> & Hpre & Hs)]; [exact Hall|].
  destruct (map_M_LEI_rows_raise (G := G) pre s post Hpre Hs)
    as (name & got & _ & Hr).
  rewrite Hr in Hm. discriminate.
Qed.

(** ** Returned and rejected trajectories *)

Section TrajectoryFacts.

Variable G : Type.
Variable seed_state : Z -> G.
Variable draw_normal : R -> R -> G -> R * G.
Variable Work : Type.
Variable work0 : Work.
Variable lsoda : Work -> State -> R -> R -> Solver (Work * State).

Local Abbreviation ode := (ode_system G seed_state draw_normal).
Local Abbreviation simulate :=
  (simulate_evolution G seed_state draw_normal Work work0 lsoda).
Local Abbreviation integrate :=
  (odeint G Work work0 lsoda).

(** The call after a passed validation, in terms of the integration. *)
Lemma simulate_evolution_after_integration
      H0 V0 alpha0 years gamma_H gamma_V beta sigma_H sigma_V sigma_alpha
      noise_seed (w : World G) :
  in_cube (H0, V0, alpha0) ->
  let params := engine_params H0 V0 alpha0 gamma_H gamma_V beta
                              sigma_H sigma_V sigma_alpha noise_seed in
  let t := linspace 0 (INR years) (years + 1) in
  simulate H0 V0 alpha0 years gamma_H gamma_V beta
           sigma_H sigma_V sigma_alpha noise_seed w
  = (solution <- integrate ode (H0, V0, alpha0) t params ;;
     LEI_traj <- map_M (fun s : State =>
                          calculate_LEI (fst (fst s)) (snd (fst s)) (snd s)
                                        PHI 0.1) solution ;;
     d_phi_traj <- map_M (fun hv : R * R =>
                            calculate_d_phi (fst hv) (snd hv) PHI)
                         (map fst solution) ;;
     ret (mkSimResult t (column_H solution) (column_V solution)
                      (column_alpha solution) LEI_traj d_phi_traj
                      (p_H_eq params) (p_V_eq params) (p_alpha_eq params))) w.
Proof.
  intros (HH & HV & Ha) params t. cbn [fst snd] in HH, HV, Ha.
  unfold simulate_evolution.
  rewrite (bind_ok _ _ _ _ _
             (check_unit_three_ok _ _ _ _ _ _ w HH HV Ha)).
  unfold params, engine_params.
  cbv beta iota zeta delta [calculate_equilibrium equilibrium_unclipped].
  cbn [p_H_eq p_V_eq p_alpha_eq].
  unfold bind.
  destruct (integrate _ _ _ _ w) as [[solution | e] w1]; [| reflexivity].
  rewrite zip3_columns, combine_columns. reflexivity.
Qed.

(** X9.  The integration is not confined to the unit cube, and the call
    checks its rows only through the evolvability index: once the
    integration has returned, the call returns exactly when every row
    lies in the unit cube; otherwise it raises the validation error of
    the index for the first row outside the cube, naming the first of
    [H], [V], [alpha] that is out of range in that row; at that point
    the log holds what the integration has left in it, followed by the
    warnings of the index for the rows before the rejected one. *)
Theorem rows_outside_the_cube_fail_the_simulation
        H0 V0 alpha0 years gamma_H gamma_V beta sigma_H sigma_V sigma_alpha
        noise_seed (w : World G) solution w1 :
  in_cube (H0, V0, alpha0) ->
  integrate ode (H0, V0, alpha0) (linspace 0 (INR years) (years + 1))
            (engine_params H0 V0 alpha0 gamma_H gamma_V beta
                           sigma_H sigma_V sigma_alpha noise_seed) w
  = (Ok solution, w1) ->
  let call := simulate H0 V0 alpha0 years gamma_H gamma_V beta
                       sigma_H sigma_V sigma_alpha noise_seed w in
  ((exists r w', call = (Ok r, w')) <-> Forall in_cube solution) /\
  (forall pre s post,
      solution = pre ++ s :: post -> Forall in_cube pre -> ~ in_cube s ->
      exists name got,
        first_outside [(fst (fst s), "H"%string);
                       (snd (fst s), "V"%string);
                       (snd s, "alpha"%string)] = Some (name, got) /\
        call = (Raise (ValueError_range name got),
                mkWorld (rng w1)
                        (warnings w1
                         ++ repeat Warn_LEI_V0
                                   (zero_samples (column_V pre))))).
Proof.
  intros Hcube Hint call.
  assert (Hcall : call
                  = (LEI_traj <- map_M (fun s : State =>
                                          calculate_LEI (fst (fst s))
                                                        (snd (fst s)) (snd s)
                                                        PHI 0.1) solution ;;
                     d_phi_traj <- map_M (fun hv : R * R =>
                                            calculate_d_phi (fst hv) (snd hv)
                                                            PHI)
                                         (map fst solution) ;;
                     ret (mkSimResult
                            (linspace 0 (INR years) (years + 1))
                            (column_H solution) (column_V solution)
                            (column_alpha solution) LEI_traj d_phi_traj
                            (p_H_eq (engine_params H0 V0 alpha0 gamma_H
                                       gamma_V beta sigma_H sigma_V
                                       sigma_alpha noise_seed))
                            (p_V_eq (engine_params H0 V0 alpha0 gamma_H
                                       gamma_V beta sigma_H sigma_V
                                       sigma_alpha noise_seed))
                            (p_alpha_eq (engine_params H0 V0 alpha0 gamma_H
                                           gamma_V beta sigma_H sigma_V
                                           sigma_alpha noise_seed)))) w1).
  { unfold call. rewrite simulate_evolution_after_integration by exact Hcube.
    rewrite (bind_ok _ _ _ _ _ Hint). reflexivity. }
  split; [split|].
  - intros (r & w' & Hr). rewrite Hcall in Hr.
    apply bind_ok_inv in Hr. destruct Hr as (ys & w2 & HLEI & _).
    eapply map_M_LEI_ok_rows. exact HLEI.
  - intros Hall.
    destruct (simulate_evolution_returns
                G seed_state draw_normal Work work0 lsoda
                _ _ _ _ _ _ _ _ _ _ _ _ _ _ Hcube Hint Hall)
      as (r & w' & Hsim & _).
    exists r, w'. exact Hsim.
  - intros pre s post -> Hpre Hs.
    destruct (map_M_LEI_rows_raise (G := G) pre s post Hpre Hs)
      as (name & got & Hfirst & Hr).
    exists name, got. split; [exact Hfirst|].
    rewrite Hcall, (bind_raise _ _ _ _ _ (Hr w1)). reflexivity.
Qed.

(** X10.  A trajectory that the call returns is consistent: its samples
    are the rows that the integration returned, every sample lies in the
    unit cube and the first one is the initial state; the evolvability
    index and the distance are, sample by sample, the metric values of
    that sample; the three equilibrium entries are those of
    [calculate_equilibrium] and lie in the unit cube; and after whatever
    the integration has logged, the call has warned once per metric for
    each sample with [V = 0], the warnings of the index first, and has
    not touched the generator again. *)
Theorem returned_trajectory_is_consistent
        H0 V0 alpha0 years gamma_H gamma_V beta sigma_H sigma_V sigma_alpha
        noise_seed (w : World G) r w' :
  simulate H0 V0 alpha0 years gamma_H gamma_V beta
           sigma_H sigma_V sigma_alpha noise_seed w = (Ok r, w') ->
  Forall in_cube (samples r) /\
  hd_error (samples r) = Some (H0, V0, alpha0) /\
  r_LEI r = map (fun s : State => LEI_of (fst (fst s)) (snd (fst s)) (snd s))
                (samples r) /\
  r_d_phi r = map (fun s : State => d_phi_of (fst (fst s)) (snd (fst s)))
                  (samples r) /\
  (r_H_eq r, r_V_eq r, r_alpha_eq r) = calculate_equilibrium H0 V0 alpha0 PHI /\
  in_cube (r_H_eq r, r_V_eq r, r_alpha_eq r) /\
  exists w1,
    integrate ode (H0, V0, alpha0) (linspace 0 (INR years) (years + 1))
              (engine_params H0 V0 alpha0 gamma_H gamma_V beta
                             sigma_H sigma_V sigma_alpha noise_seed) w
    = (Ok (samples r), w1) /\
    rng w' = rng w1 /\
    warnings w'
    = warnings w1 ++ repeat Warn_LEI_V0 (zero_samples (r_V r))
                  ++ repeat Warn_d_phi_V0 (zero_samples (r_V r)).
Proof.
  intros Hsim.
  apply simulate_evolution_ok_inv in Hsim.
  destruct Hsim as (_ & solution & LEI_traj & d_phi_traj & w1 & w2
                    & Hint & HLEI & Hd & ->).
  pose proof Hint as Hrun.
  apply odeint_shape in Hint. destruct Hint as (_ & rows & ->).
  pose proof (map_M_LEI_ok_rows _ _ _ _ HLEI) as Hall.
  rewrite (map_M_LEI_rows _ Hall w1) in HLEI.
  rewrite map_M_d_phi_rows in Hd.
  inversion HLEI; subst LEI_traj w2. inversion Hd; subst d_phi_traj w'.
  unfold samples. cbn [r_H r_V r_alpha r_LEI r_d_phi r_H_eq r_V_eq r_alpha_eq].
  rewrite zip3_columns.
  split; [exact Hall|]. split; [reflexivity|].
  split; [reflexivity|]. split; [reflexivity|].
  unfold engine_params.
  destruct (calculate_equilibrium H0 V0 alpha0 PHI) as [[H_eq V_eq] alpha_eq]
    eqn:Eeq.
  cbn [p_H_eq p_V_eq p_alpha_eq].
  split; [reflexivity|].
  split.
  { rewrite <- Eeq. unfold calculate_equilibrium, equilibrium_unclipped,
      in_cube. cbn [fst snd]. repeat split; apply clip_unit. }
  exists w1. split.
  { unfold engine_params in Hrun. rewrite Eeq in Hrun. exact Hrun. }
  cbn [rng warnings]. split; [reflexivity|].
  rewrite <- app_assoc. reflexivity.
Qed.

End TrajectoryFacts.

(** ** The noise of the right-hand side *)

Lemma int_INR_thousand (n : nat) : int (INR n * 1000) = (Z.of_nat n * 1000)%Z.
Proof.
  replace (INR n * 1000) with (INR (n * 1000))
    by (rewrite mult_INR; simpl; lra).
  unfold int.
  replace (Rleb 0 (INR (n * 1000))) with true
    by (symmetry; apply Rleb_true, pos_INR).
  rewrite Int_part_INR. lia.
Qed.

Section NoiseFacts.

Variable G : Type.
Variable seed_state : Z -> G.
Variable draw_normal : R -> R -> G -> R * G.

Local Abbreviation ode := (ode_system G seed_state draw_normal).
Local Abbreviation noise := (noise_at G seed_state draw_normal).

Lemma ode_system_by_seed_sum state t params s (w : World G) :
  let k := (s + int (t * 1000))%Z in
  (valid_seed k ->
   ode state t (with_seed params s) w
   = (Ok (dict_get (p_gamma_H params) 0.05
            * (p_H_eq params - fst (fst state))
          + dict_get (p_sigma_H params) 0.01 * fst (fst (fst (noise k))),
          dict_get (p_gamma_V params) 0.08
            * (p_V_eq params - snd (fst state))
          + dict_get (p_sigma_V params) 0.01 * snd (fst (fst (noise k))),
          dict_get (p_beta params) 0.015 * (p_alpha_eq params - snd state)
            * selection_pressure (fst (fst state)) (snd (fst state))
          + dict_get (p_sigma_alpha params) 0.005 * snd (fst (noise k))),
      mkWorld (snd (noise k)) (warnings w))) /\
  (~ valid_seed k ->
   ode state t (with_seed params s) w = (Raise (ValueError_seed k), w)).
Proof.
  intros k. split; intros Hk.
  - destruct state as [[H V] alpha].
    rewrite ode_system_ok by exact Hk. reflexivity.
  - rewrite ode_system_bad_seed by exact Hk. reflexivity.
Qed.

(** X11.  The right-hand side reseeds the generator with
    [noise_seed + int(t * 1000)] at every call, so its outcome does not
    depend on the state of the generator on entry and depends on the
    seed and the time only through that sum: two calls with the same sum
    have the same outcome and, when the seed is accepted, leave the same
    generator state.  In particular a run with seed [s + 1000] sees at
    year [n] the noise that a run with seed [s] sees at year [n + 1].  A
    sum outside [0 .. 2^32 - 1] raises and leaves the world as it was. *)
Theorem noise_depends_on_seed_plus_time state params :
  (forall s1 t1 s2 t2 (w1 w2 : World G),
      (s1 + int (t1 * 1000) = s2 + int (t2 * 1000))%Z ->
      fst (ode state t1 (with_seed params s1) w1)
      = fst (ode state t2 (with_seed params s2) w2) /\
      (valid_seed (s1 + int (t1 * 1000)) ->
       rng (snd (ode state t1 (with_seed params s1) w1))
       = rng (snd (ode state t2 (with_seed params s2) w2)))) /\
  (forall s (n : nat) (w1 w2 : World G),
      fst (ode state (INR (n + 1)) (with_seed params s) w1)
      = fst (ode state (INR n) (with_seed params (s + 1000)) w2)) /\
  (forall s t (w : World G),
      ~ valid_seed (s + int (t * 1000)) ->
      ode state t (with_seed params s) w
      = (Raise (ValueError_seed (s + int (t * 1000))), w)).
Proof.
  assert (Hsame : forall s1 t1 s2 t2 (w1 w2 : World G),
             (s1 + int (t1 * 1000) = s2 + int (t2 * 1000))%Z ->
             fst (ode state t1 (with_seed params s1) w1)
             = fst (ode state t2 (with_seed params s2) w2) /\
             (valid_seed (s1 + int (t1 * 1000)) ->
              rng (snd (ode state t1 (with_seed params s1) w1))
              = rng (snd (ode state t2 (with_seed params s2) w2)))).
  { intros s1 t1 s2 t2 w1 w2 Hsum.
    destruct (ode_system_by_seed_sum state t1 params s1 w1) as [Hok1 Hbad1].
    destruct (ode_system_by_seed_sum state t2 params s2 w2) as [Hok2 Hbad2].
    rewrite <- Hsum in Hok2, Hbad2.
    destruct (valid_seed_dec (s1 + int (t1 * 1000))) as [Hk | Hk].
    - rewrite (Hok1 Hk), (Hok2 Hk). split; reflexivity.
    - rewrite (Hbad1 Hk), (Hbad2 Hk). split; [reflexivity | contradiction]. }
  split; [exact Hsame|]. split.
  - intros s n w1 w2. apply Hsame.
    rewrite !int_INR_thousand. lia.
  - intros s t w Hk.
    apply (ode_system_by_seed_sum state t params s w). exact Hk.
Qed.

End NoiseFacts.

(** ** The convergence analysis *)

Lemma last_item_final {G} (xs : list R) (w : World G) :
  xs <> [] -> last_item xs w = (Ok (final xs), w).
Proof.
  intros Hne. destruct (exists_last Hne) as (l & a & ->).
  unfold last_item, final. rewrite rev_unit, last_last. reflexivity.
Qed.

Lemma last_item_empty {G} (w : World G) :
  last_item (A := R) [] w = (Raise IndexError, w).
Proof. reflexivity. Qed.

Lemma final_In (xs : list R) : xs <> [] -> In (final xs) xs.
Proof.
  intros Hne. destruct (exists_last Hne) as (l & a & ->).
  unfold final. rewrite last_last. apply in_or_app. right. left. reflexivity.
Qed.

Lemma In_combine_seq (xs : list R) x :
  In x xs ->
  forall start, exists i, In (i, x) (combine (seq start (List.length xs)) xs).
Proof.
  induction xs as [| y ys IH]; intros Hin start; [contradiction|].
  destruct Hin as [-> | Hin].
  - exists start. left. reflexivity.
  - destruct (IH Hin (S start)) as (i & Hi). exists i. right. exact Hi.
Qed.

Lemma where_lt_bound (xs : list R) threshold i :
  In i (where_lt xs threshold) -> (i < List.length xs)%nat.
Proof.
  unfold where_lt. intros Hin. apply in_map_iff in Hin.
  destruct Hin as ([j x] & <- & Hin). apply filter_In in Hin.
  destruct Hin as [Hin _]. apply in_combine_l in Hin.
  apply in_seq in Hin. cbn [fst]. lia.
Qed.

(** When the last value is below the threshold the index array of
    [np.where] is not empty, which is what the inner [if] of the analyzer
    tests. *)
Lemma where_lt_nonempty (xs : list R) threshold :
  xs <> [] -> final xs < threshold ->
  exists i0 rest,
    where_lt xs threshold = i0 :: rest /\ (i0 < List.length xs)%nat.
Proof.
  intros Hne Hlt.
  destruct (where_lt xs threshold) as [| i0 rest] eqn:E.
  - exfalso.
    destruct (In_combine_seq xs (final xs) (final_In xs Hne) 0%nat)
      as (i & Hi).
    assert (Hin : In i (where_lt xs threshold)).
    { unfold where_lt. apply in_map_iff. exists (i, final xs).
      split; [reflexivity|]. apply filter_In. split; [exact Hi|].
      apply Rltb_true. exact Hlt. }
    rewrite E in Hin. exact Hin.
  - exists i0, rest. split; [reflexivity|].
    apply (where_lt_bound xs threshold). rewrite E. left. reflexivity.
Qed.

Lemma item_in_range {G} (xs : list R) (i : nat) (w : World G) :
  (i < List.length xs)%nat -> item xs i w = (Ok (nth i xs 0), w).
Proof.
  intros Hi. unfold item.
  rewrite (nth_error_nth' xs 0 Hi). reflexivity.
Qed.

(** One pass of the analyzer's loop over a trajectory that it can
    index. *)
Lemma analyze_body_indexable {G} threshold_dphi acc traj (w : World G) :
  indexable traj ->
  analyze_body threshold_dphi acc traj w
  = (Ok (mkTally
           (converged acc ++ filter (has_converged threshold_dphi) [traj])
           (convergence_times acc
            ++ map (crossing_time threshold_dphi)
                   (filter (has_converged threshold_dphi) [traj]))
           (final_dphis acc ++ [final (r_d_phi (run_result traj))])
           (final_ratios acc ++ map final_ratio (filter has_ratio [traj]))),
     w).
Proof.
  intros (Hd & Hlen & HV & HH). unfold analyze_body.
  rewrite (bind_ok _ _ _ _ _ (last_item_final _ w Hd)).
  cbn [filter]. unfold has_converged, has_ratio.
  destruct (Rltb (final (r_d_phi (run_result traj))) threshold_dphi) eqn:E.
  - apply Rltb_true in E.
    destruct (where_lt_nonempty _ _ Hd E) as (i0 & rest & Hwhere & Hi0).
    rewrite Hwhere.
    assert (Hitem : item (G := G) (r_time (run_result traj)) i0 w
                    = (Ok (crossing_time threshold_dphi traj), w)).
    { unfold crossing_time. rewrite Hwhere. cbn [hd].
      apply item_in_range. lia. }
    rewrite (bind_ok _ _ w (converged acc ++ [traj],
                            convergence_times acc
                            ++ [crossing_time threshold_dphi traj]) w).
    2:{ rewrite (bind_ok _ _ _ _ _ Hitem). reflexivity. }
    rewrite (bind_ok _ _ _ _ _ (last_item_final _ w HV)).
    destruct (Rltb 0.1 (final (r_V (run_result traj)))).
    + rewrite (bind_ok _ _ _ _ _ (last_item_final _ w HH)). reflexivity.
    + cbn [map fst snd]. rewrite app_nil_r. reflexivity.
  - rewrite (bind_ok _ _ w (converged acc, convergence_times acc) w)
      by reflexivity.
    rewrite (bind_ok _ _ _ _ _ (last_item_final _ w HV)).
    cbn [map fst snd]. rewrite !app_nil_r.
    destruct (Rltb 0.1 (final (r_V (run_result traj)))).
    + rewrite (bind_ok _ _ _ _ _ (last_item_final _ w HH)). reflexivity.
    + rewrite app_nil_r. reflexivity.
Qed.

Lemma analyze_loop_indexable {G} threshold_dphi trajectories :
  Forall indexable trajectories ->
  forall acc (w : World G),
    analyze_loop threshold_dphi trajectories acc w
    = (Ok (mkTally
             (converged acc
              ++ filter (has_converged threshold_dphi) trajectories)
             (convergence_times acc
              ++ map (crossing_time threshold_dphi)
                     (filter (has_converged threshold_dphi) trajectories))
             (final_dphis acc
              ++ map (fun t => final (r_d_phi (run_result t))) trajectories)
             (final_ratios acc
              ++ map final_ratio (filter has_ratio trajectories))),
       w).
Proof.
  induction 1 as [| traj rest Ht _ IH]; intros acc w.
  - cbn. rewrite !app_nil_r. destruct acc. reflexivity.
  - cbn [analyze_loop].
    rewrite (bind_ok _ _ _ _ _ (analyze_body_indexable _ acc traj w Ht)).
    rewrite IH. cbn [converged convergence_times final_dphis final_ratios].
    change (traj :: rest) with ([traj] ++ rest).
    rewrite !filter_app, !map_app, <- !app_assoc. reflexivity.
Qed.

Lemma np_mean_nonempty {G} xs (w : World G) :
  xs <> [] -> np_mean xs w = (Ok (Num (mean xs)), w).
Proof. destruct xs; [contradiction | reflexivity]. Qed.

Lemma np_std_nonempty {G} xs (w : World G) :
  xs <> [] -> np_std xs w = (Ok (Num (std xs)), w).
Proof. destruct xs; [contradiction | reflexivity]. Qed.

Lemma if_nonempty_mean {G} xs (w : World G) :
  if_nonempty xs np_mean w = (Ok (stat_of mean xs), w).
Proof. destruct xs; reflexivity. Qed.

Lemma if_nonempty_std {G} xs (w : World G) :
  if_nonempty xs np_std w = (Ok (stat_of std xs), w).
Proof. destruct xs; reflexivity. Qed.

Lemma if_nonempty_distance {G} xs (w : World G) :
  if_nonempty xs (fun ys => m <- np_mean ys ;; ret (stat_abs_minus m PHI)) w
  = (Ok (stat_of (fun ys => Rabs (mean ys - PHI)) xs), w).
Proof. destruct xs; reflexivity. Qed.

Lemma filter_length_le {A} (f : A -> bool) (xs : list A) :
  (List.length (filter f xs) <= List.length xs)%nat.
Proof.
  induction xs as [| x xs IH]; simpl; [lia|].
  destruct (f x); simpl; lia.
Qed.

(** The report of the analyzer on a nonempty ensemble that it can
    index. *)
Lemma analyze_convergence_indexable {G} trajectories threshold_dphi
      (w : World G) :
  trajectories <> [] -> Forall indexable trajectories ->
  let conv := filter (has_converged threshold_dphi) trajectories in
  let times := map (crossing_time threshold_dphi) conv in
  let dphis := map (fun t => final (r_d_phi (run_result t))) trajectories in
  let ratios := map final_ratio (filter has_ratio trajectories) in
  analyze_convergence trajectories threshold_dphi w
  = (Ok (mkReport (List.length trajectories) (List.length conv)
                  (INR (List.length conv) / INR (List.length trajectories))
                  (stat_of mean times) (stat_of std times)
                  (Num (mean dphis)) (Num (std dphis))
                  (stat_of mean ratios) (stat_of std ratios)
                  (stat_of (fun ys => Rabs (mean ys - PHI)) ratios)),
     w).
Proof.
  intros Hne Hall conv times dphis ratios. unfold analyze_convergence.
  rewrite (bind_ok _ _ _ _ _
             (analyze_loop_indexable threshold_dphi trajectories Hall
                                     (mkTally [] [] [] []) w)).
  cbn [converged convergence_times final_dphis final_ratios app].
  fold conv. fold times. fold dphis. fold ratios.
  unfold int_truediv.
  destruct (List.length trajectories =? 0)%nat eqn:E.
  { apply Nat.eqb_eq in E. destruct trajectories; [contradiction|].
    discriminate. }
  assert (Hd : dphis <> []).
  { unfold dphis. destruct trajectories; [contradiction | discriminate]. }
  unfold bind at 1. cbn [ret].
  rewrite (bind_ok _ _ _ _ _ (if_nonempty_mean times w)).
  rewrite (bind_ok _ _ _ _ _ (if_nonempty_std times w)).
  rewrite (bind_ok _ _ _ _ _ (np_mean_nonempty dphis w Hd)).
  rewrite (bind_ok _ _ _ _ _ (np_std_nonempty dphis w Hd)).
  rewrite (bind_ok _ _ _ _ _ (if_nonempty_mean ratios w)).
  rewrite (bind_ok _ _ _ _ _ (if_nonempty_std ratios w)).
  rewrite (bind_ok _ _ _ _ _ (if_nonempty_distance ratios w)).
  reflexivity.
Qed.

(** X12.  On a nonempty ensemble whose trajectories can be indexed the
    analyzer returns a report without issuing a warning.  The number of
    converged trajectories is the number of those whose final distance is
    below the threshold, and never exceeds the total; the rate is their
    quotient and lies in [[0, 1]]; the mean final distance is a number;
    every converged trajectory contributes a convergence time, so the
    mean convergence time is not-a-number exactly when no trajectory has
    converged; and the mean final ratio is not-a-number exactly when no
    trajectory ends with [V > 0.1], together with the distance of that
    mean to [PHI]. *)
Theorem analyze_convergence_report {G} trajectories threshold_dphi
        (w : World G) :
  trajectories <> [] -> Forall indexable trajectories ->
  let conv := filter (has_converged threshold_dphi) trajectories in
  let ratios := map final_ratio (filter has_ratio trajectories) in
  exists rep,
    analyze_convergence trajectories threshold_dphi w = (Ok rep, w) /\
    n_total rep = List.length trajectories /\
    n_converged rep = List.length conv /\
    (n_converged rep <= n_total rep)%nat /\
    convergence_rate rep = INR (n_converged rep) / INR (n_total rep) /\
    0 <= convergence_rate rep <= 1 /\
    final_mean_dphi rep
    = Num (mean (map (fun t => final (r_d_phi (run_result t)))
                     trajectories)) /\
    mean_convergence_time rep
    = stat_of mean (map (crossing_time threshold_dphi) conv) /\
    (mean_convergence_time rep = NaN <-> n_converged rep = 0%nat) /\
    final_mean_HV_ratio rep = stat_of mean ratios /\
    distance_to_phi rep = stat_of (fun ys => Rabs (mean ys - PHI)) ratios /\
    (final_mean_HV_ratio rep = NaN <-> ratios = []) /\
    (distance_to_phi rep = NaN <-> ratios = []).
Proof.
  intros Hne Hall conv ratios.
  eexists. split; [apply analyze_convergence_indexable; assumption|].
  cbn [n_total n_converged convergence_rate final_mean_dphi
       mean_convergence_time final_mean_HV_ratio distance_to_phi].
  fold conv. fold ratios.
  pose proof (filter_length_le (has_converged threshold_dphi) trajectories)
    as Hle.
  fold conv in Hle.
  assert (Hpos : 0 < INR (List.length trajectories)).
  { apply lt_0_INR. destruct trajectories; [contradiction | simpl; lia]. }
  split; [reflexivity|]. split; [reflexivity|]. split; [exact Hle|].
  split; [reflexivity|].
  split.
  { split.
    - unfold Rdiv. apply Rmult_le_pos; [apply pos_INR|].
      apply Rlt_le, Rinv_0_lt_compat. exact Hpos.
    - apply Rmult_le_reg_r with (INR (List.length trajectories));
        [exact Hpos|].
      unfold Rdiv. rewrite Rmult_assoc, Rinv_l, Rmult_1_r, Rmult_1_l by lra.
      apply le_INR. exact Hle. }
  split; [reflexivity|]. split; [reflexivity|].
  split.
  { destruct conv as [| c cs]; cbn; split; intros Hx;
      try reflexivity; discriminate. }
  split; [reflexivity|]. split; [reflexivity|].
  split; destruct ratios as [| x xs]; cbn; split; intros Hx;
    try reflexivity; discriminate.
Qed.

(** ** From the sampler to the analyzer *)

Lemma Rsum_bounds a b xs :
  Forall (fun x => a <= x <= b) xs ->
  INR (List.length xs) * a <= Rsum xs <= INR (List.length xs) * b.
Proof.
  induction 1 as [| x xs Hx _ IH].
  - simpl. lra.
  - change (Rsum (x :: xs)) with (x + Rsum xs).
    change (List.length (x :: xs)) with (S (List.length xs)).
    rewrite S_INR. lra.
Qed.

Lemma mean_bounds a b xs :
  xs <> [] -> Forall (fun x => a <= x <= b) xs -> a <= mean xs <= b.
Proof.
  intros Hne Hall. pose proof (Rsum_bounds a b xs Hall) as Hs.
  assert (Hpos : 0 < INR (List.length xs)).
  { apply lt_0_INR. destruct xs; [contradiction | simpl; lia]. }
  unfold mean. split.
  - apply Rmult_le_reg_r with (INR (List.length xs)); [exact Hpos|].
    unfold Rdiv. rewrite Rmult_assoc, Rinv_l, Rmult_1_r by lra. lra.
  - apply Rmult_le_reg_r with (INR (List.length xs)); [exact Hpos|].
    unfold Rdiv. rewrite Rmult_assoc, Rinv_l, Rmult_1_r by lra. lra.
Qed.

Section EnsembleFacts.

Variable G : Type.
Variable seed_state : Z -> G.
Variable draw_uniform : R -> R -> G -> R * G.
Variable draw_normal : R -> R -> G -> R * G.
Variable Work : Type.
Variable work0 : Work.
Variable lsoda : Work -> State -> R -> R -> Solver (Work * State).

Local Abbreviation simulate_kw :=
  (simulate_evolution_kw G seed_state draw_normal Work work0 lsoda).
Local Abbreviation sampler :=
  (simulate_multiple_trajectories
     G seed_state draw_uniform draw_normal Work work0 lsoda).

(** The arrays of a returned trajectory: the grid of the years, and one
    entry per year in every other array. *)
Lemma simulate_evolution_kw_arrays H0 V0 alpha0 years kwargs
      (w : World G) r w' :
  simulate_kw H0 V0 alpha0 years kwargs w = (Ok r, w') ->
  r_time r = map INR (seq 0 (years + 1)) /\
  List.length (r_H r) = (years + 1)%nat /\
  List.length (r_V r) = (years + 1)%nat /\
  List.length (r_d_phi r) = (years + 1)%nat.
Proof.
  unfold simulate_evolution_kw. intros Hsim.
  apply simulate_evolution_ok_inv in Hsim.
  destruct Hsim as (_ & solution & LEI_traj & d_phi_traj & w1 & w2
                    & Hint & _ & Hd & ->).
  apply odeint_shape in Hint. destruct Hint as [Hlen _].
  rewrite linspace_length in Hlen.
  apply map_M_length in Hd. rewrite length_map in Hd.
  cbn [r_time r_H r_V r_d_phi]. unfold column_H, column_V.
  rewrite !length_map.
  split; [apply linspace_years|].
  split; [exact Hlen|]. split; [exact Hlen|]. rewrite Hd. exact Hlen.
Qed.

Lemma nonempty_of_length {A} (xs : list A) n :
  List.length xs = (n + 1)%nat -> xs <> [].
Proof. destruct xs; simpl; [lia | discriminate]. Qed.

Lemma sampled_run_indexable years t kwargs (w0 w1 : World G) :
  simulate_kw (run_H0 t) (run_V0 t) (run_alpha0 t) years kwargs w0
  = (Ok (run_result t), w1) ->
  indexable t /\
  forall threshold_dphi,
    has_converged threshold_dphi t = true ->
    0 <= crossing_time threshold_dphi t <= INR years.
Proof.
  intros Hsim. apply simulate_evolution_kw_arrays in Hsim.
  destruct Hsim as (Htime & HH & HV & Hd).
  split.
  - unfold indexable. rewrite Htime, length_map, length_seq, Hd.
    split; [eapply nonempty_of_length; exact Hd|].
    split; [lia|].
    split; eapply nonempty_of_length; eassumption.
  - intros threshold_dphi Hconv. unfold has_converged in Hconv.
    apply Rltb_true in Hconv.
    destruct (where_lt_nonempty (r_d_phi (run_result t)) threshold_dphi)
      as (i0 & rest & Hwhere & Hi0);
      [eapply nonempty_of_length; exact Hd | exact Hconv |].
    unfold crossing_time. rewrite Hwhere, Htime. cbn [hd].
    rewrite nth_map_INR, seq_nth by lia. cbn [Nat.add].
    split; [apply pos_INR | apply le_INR; lia].
Qed.

(** X13.  With an accepted base seed the sampler returns an ensemble that
    the analyzer can always index.  On that ensemble the analyzer returns
    a report, without a warning, exactly when the ensemble is not empty,
    and raises [ZeroDivisionError] when every run has failed; in a
    report the total is at most the number of runs asked for and the mean
    convergence time, when it is a number, lies between [0] and the
    horizon. *)
Theorem sampled_ensemble_can_be_analyzed
        n years H_range V_range alpha_range kwargs threshold_dphi
        (w : World G) :
  valid_seed (dict_get (kw_noise_seed kwargs) 42%Z) ->
  exists trajectories w',
    sampler n years H_range V_range alpha_range kwargs w
    = (Ok trajectories, w') /\
    Forall indexable trajectories /\
    (trajectories = [] ->
     analyze_convergence trajectories threshold_dphi w'
     = (Raise ZeroDivisionError, w')) /\
    (trajectories <> [] ->
     exists rep,
       analyze_convergence trajectories threshold_dphi w' = (Ok rep, w') /\
       (0 < n_total rep <= n)%nat /\
       (forall m, mean_convergence_time rep = Num m -> 0 <= m <= INR years)).
Proof.
  intros Hseed. unfold simulate_multiple_trajectories.
  pose (ws := mkWorld (seed_state (dict_get (kw_noise_seed kwargs) 42%Z))
                      (warnings w)).
  destruct (sampler_loop_spec G seed_state draw_uniform draw_normal
                              Work work0 lsoda
                              years H_range V_range alpha_range kwargs
                              (seq 0 n) [] ws)
    as (added & w' & new & Hloop & _ & Hperm & _ & Hok).
  exists added, w'.
  split.
  { erewrite bind_ok by (apply np_random_seed_valid; exact Hseed).
    exact Hloop. }
  assert (Hruns : forall t, In t added ->
                            indexable t /\
                            forall thr, has_converged thr t = true ->
                                        0 <= crossing_time thr t <= INR years).
  { intros t Hin. destruct (Hok t Hin) as (w0 & w1 & Hsim).
    eapply sampled_run_indexable. exact Hsim. }
  assert (Hall : Forall indexable added).
  { apply Forall_forall. intros t Hin. apply Hruns. exact Hin. }
  split; [exact Hall|].
  split; [intros ->; reflexivity|].
  intros Hne.
  eexists. split; [apply analyze_convergence_indexable; assumption|].
  cbn [n_total mean_convergence_time].
  split.
  { pose proof (Permutation_length Hperm) as Hl.
    rewrite length_app, length_seq, !length_map in Hl.
    destruct added; [contradiction | simpl in *; lia]. }
  intros m Hm.
  destruct (filter (has_converged threshold_dphi) added) as [| c cs] eqn:E;
    [discriminate|].
  cbn [stat_of map] in Hm. inversion Hm; subst m.
  apply mean_bounds; [discriminate|].
  change (crossing_time threshold_dphi c
          :: map (crossing_time threshold_dphi) cs)
    with (map (crossing_time threshold_dphi) (c :: cs)).
  rewrite <- E. apply Forall_map, Forall_forall. intros t Hin.
  apply filter_In in Hin. destruct Hin as [Hin Hconv].
  apply (Hruns t Hin). exact Hconv.
Qed.

End EnsembleFacts.

(** ** Trajectories that the analyzer cannot index *)

Lemma analyze_body_cases {G} threshold_dphi acc traj (w : World G) :
  (exists acc', analyze_body threshold_dphi acc traj w = (Ok acc', w)) \/
  analyze_body threshold_dphi acc traj w = (Raise IndexError, w).
Proof.
  unfold analyze_body, last_item, item, bind.
  destruct (rev (r_d_phi (run_result traj))) as [| d ds];
    [right; reflexivity|].
  cbn [ret].
  destruct (Rltb d threshold_dphi).
  - destruct (where_lt (r_d_phi (run_result traj)) threshold_dphi)
      as [| i0 rest].
    + cbn [ret fst snd].
      destruct (rev (r_V (run_result traj))) as [| v vs];
        [right; reflexivity|].
      cbn [ret]. destruct (Rltb 0.1 v).
      * destruct (rev (r_H (run_result traj))) as [| h hs];
          [right; reflexivity | left; eexists; reflexivity].
      * left. eexists. reflexivity.
    + destruct (nth_error (r_time (run_result traj)) i0) as [tm |];
        [| right; reflexivity].
      cbn [ret fst snd].
      destruct (rev (r_V (run_result traj))) as [| v vs];
        [right; reflexivity|].
      cbn [ret]. destruct (Rltb 0.1 v).
      * destruct (rev (r_H (run_result traj))) as [| h hs];
          [right; reflexivity | left; eexists; reflexivity].
      * left. eexists. reflexivity.
  - cbn [ret fst snd].
    destruct (rev (r_V (run_result traj))) as [| v vs];
      [right; reflexivity|].
    cbn [ret]. destruct (Rltb 0.1 v).
    + destruct (rev (r_H (run_result traj))) as [| h hs];
        [right; reflexivity | left; eexists; reflexivity].
    + left. eexists. reflexivity.
Qed.

Lemma analyze_body_empty_d_phi {G} threshold_dphi acc traj (w : World G) :
  r_d_phi (run_result traj) = [] ->
  analyze_body threshold_dphi acc traj w = (Raise IndexError, w).
Proof.
  intros He. unfold analyze_body. rewrite He. reflexivity.
Qed.

Lemma analyze_loop_empty_d_phi {G} threshold_dphi trajectories :
  Exists (fun t => r_d_phi (run_result t) = []) trajectories ->
  forall acc (w : World G),
    analyze_loop threshold_dphi trajectories acc w = (Raise IndexError, w).
Proof.
  induction trajectories as [| traj rest IH]; intros Hex acc w.
  - inversion Hex.
  - cbn [analyze_loop].
    destruct (analyze_body_cases threshold_dphi acc traj w)
      as [(acc' & Hb) | Hb].
    + rewrite (bind_ok _ _ _ _ _ Hb).
      inversion Hex as [t l Hhere | t l Hlater]; subst.
      * rewrite (analyze_body_empty_d_phi _ _ _ _ Hhere) in Hb.
        discriminate.
      * apply IH. exact Hlater.
    + apply bind_raise. exact Hb.
Qed.

(** X14.  The analyzer reads the last entry of every distance array
    before it computes anything else: if one trajectory of the ensemble
    has an empty distance array the call raises [IndexError], whatever
    the other trajectories are, and issues no warning.  More generally
    the loop of the analyzer can only fail with [IndexError]. *)
Theorem analyze_convergence_needs_distance_samples
        {G} trajectories threshold_dphi (w : World G) :
  (Exists (fun t => r_d_phi (run_result t) = []) trajectories ->
   analyze_convergence trajectories threshold_dphi w
   = (Raise IndexError, w)) /\
  (forall e w',
      analyze_convergence trajectories threshold_dphi w = (Raise e, w') ->
      w' = w /\
      (e = IndexError \/ (e = ZeroDivisionError /\ trajectories = []))).
Proof.
  split.
  - intros Hex. unfold analyze_convergence.
    apply bind_raise. apply analyze_loop_empty_d_phi. exact Hex.
  - assert (Hloop : forall ts acc,
               (exists acc', analyze_loop (G := G) threshold_dphi ts acc w
                             = (Ok acc', w)) \/
               analyze_loop (G := G) threshold_dphi ts acc w
               = (Raise IndexError, w)).
    { induction ts as [| traj rest IH]; intros acc.
      - left. exists acc. reflexivity.
      - cbn [analyze_loop].
        destruct (analyze_body_cases threshold_dphi acc traj w)
          as [(acc' & Hb) | Hb].
        + rewrite (bind_ok _ _ _ _ _ Hb). apply IH.
        + right. apply bind_raise. exact Hb. }
    intros e w' Hr. unfold analyze_convergence in Hr.
    destruct (Hloop trajectories (mkTally [] [] [] []))
      as [(acc & Hl) | Hl].
    + rewrite (bind_ok _ _ _ _ _ Hl) in Hr.
      unfold int_truediv in Hr.
      destruct (List.length trajectories =? 0)%nat eqn:E.
      * apply Nat.eqb_eq in E. unfold bind at 1 in Hr. cbn [raise] in Hr.
        inversion Hr; subst. split; [reflexivity|]. right.
        split; [reflexivity|]. destruct trajectories; [reflexivity|].
        discriminate.
      * exfalso. unfold bind at 1 in Hr. cbn [ret] in Hr.
        rewrite (bind_ok _ _ _ _ _ (if_nonempty_mean _ w)) in Hr.
        rewrite (bind_ok _ _ _ _ _ (if_nonempty_std _ w)) in Hr.
        destruct (np_mean_total (final_dphis acc) w) as (s1 & w1 & Hs1).
        rewrite (bind_ok _ _ _ _ _ Hs1) in Hr.
        destruct (np_std_total (final_dphis acc) w1) as (s2 & w2 & Hs2).
        rewrite (bind_ok _ _ _ _ _ Hs2) in Hr.
        rewrite (bind_ok _ _ _ _ _ (if_nonempty_mean _ w2)) in Hr.
        rewrite (bind_ok _ _ _ _ _ (if_nonempty_std _ w2)) in Hr.
        rewrite (bind_ok _ _ _ _ _ (if_nonempty_distance _ w2)) in Hr.
        discriminate.
    + rewrite (bind_raise _ _ _ _ _ Hl) in Hr. inversion Hr; subst.
      split; [reflexivity | left; reflexivity].
Qed.

(** ** The distance metric, again *)

(** X15.  For [V <> 0] the distance metric returns, without a warning,
    a value within half a thousandth of [|H/V - phi|]; the value is [0]
    on the line [H = phi * V], it is the same for [(c H, c V)] with any
    [c <> 0], and a returned [0] means that the ratio is within half a
    thousandth of [phi]. *)
Theorem d_phi_rounding_and_scaling {G} H V phi (w : World G) :
  V <> 0 ->
  exists d,
    calculate_d_phi H V phi w = (Ok d, w) /\
    Rabs (d - Rabs (H / V - phi)) <= 0.0005 /\
    (H = phi * V -> d = 0) /\
    (d = 0 -> Rabs (H / V - phi) <= 0.0005) /\
    (forall c, c <> 0 -> calculate_d_phi (c * H) (c * V) phi w = (Ok d, w)).
Proof.
  intros Hnz.
  destruct (calculate_d_phi_total H V phi w)
    as (d & w' & Hd & _ & _ & Hval).
  destruct (Hval Hnz) as [-> ->].
  exists (round (Rabs (H / V - phi)) 3). split; [exact Hd|].
  pose proof (round_error (Rabs (H / V - phi)) 3) as Herr.
  replace (1 / 2 / 10 ^ 3) with 0.0005 in Herr by (simpl; lra).
  split; [exact Herr|].
  split.
  { intros ->. replace (phi * V / V - phi) with 0 by (field; exact Hnz).
    rewrite Rabs_R0. apply round_zero. }
  split.
  { intros Hz. rewrite Hz in Herr.
    rewrite Rminus_0_l, Rabs_Ropp in Herr.
    rewrite Rabs_pos_eq in Herr by apply Rabs_pos. exact Herr. }
  intros c Hc.
  destruct (calculate_d_phi_total (c * H) (c * V) phi w)
    as (d2 & w2 & Hd2 & _ & _ & Hval2).
  destruct Hval2 as [-> ->]; [nra|].
  rewrite Hd2.
  replace (c * H / (c * V)) with (H / V) by (field; split; assumption).
  reflexivity.
Qed.

(** ** Forecasts *)

Section ForecastFacts.

Variable G : Type.
Variable seed_state : Z -> G.
Variable draw_normal : R -> R -> G -> R * G.
Variable Work : Type.
Variable work0 : Work.
Variable lsoda : Work -> State -> R -> R -> Solver (Work * State).

Local Abbreviation simulate_kw :=
  (simulate_evolution_kw G seed_state draw_normal Work work0 lsoda).
Local Abbreviation forecast :=
  (predict_future_trajectory G seed_state draw_normal Work work0 lsoda).

Lemma setdefault_keeps {A} (o : option A) (value v : A) :
  o = Some v -> setdefault o value = Some v.
Proof. intros ->. reflexivity. Qed.

Lemma scenario_kwargs_known scenario kwargs :
  In scenario ["baseline"; "reform"; "lock-in"; "crisis"]%string ->
  exists kwargs',
    scenario_kwargs scenario kwargs = Some kwargs' /\
    kw_beta kwargs' = kw_beta kwargs /\
    kw_noise_seed kwargs' = kw_noise_seed kwargs /\
    (forall v, kw_gamma_H kwargs = Some v -> kw_gamma_H kwargs' = Some v) /\
    (forall v, kw_gamma_V kwargs = Some v -> kw_gamma_V kwargs' = Some v) /\
    (forall v, kw_sigma_H kwargs = Some v -> kw_sigma_H kwargs' = Some v) /\
    (forall v, kw_sigma_V kwargs = Some v -> kw_sigma_V kwargs' = Some v) /\
    (forall v, kw_sigma_alpha kwargs = Some v ->
               kw_sigma_alpha kwargs' = Some v) /\
    (scenario = "baseline"%string -> kwargs' = kwargs).
Proof.
  intros [<- | [<- | [<- | [<- | []]]]]; cbn;
    eexists; (split; [reflexivity|]);
    cbn [kw_beta kw_noise_seed kw_gamma_H kw_gamma_V kw_sigma_H kw_sigma_V
         kw_sigma_alpha];
    repeat split; try discriminate;
    try (intros v Hv; try rewrite Hv; try reflexivity; exact Hv).
Qed.

Lemma scenario_kwargs_unknown scenario kwargs :
  ~ In scenario ["baseline"; "reform"; "lock-in"; "crisis"]%string ->
  scenario_kwargs scenario kwargs = None.
Proof.
  intros Hn. unfold scenario_kwargs.
  destruct (String.eqb_spec scenario "reform") as [-> | _];
    [exfalso; apply Hn; simpl; tauto|].
  destruct (String.eqb_spec scenario "lock-in") as [-> | _];
    [exfalso; apply Hn; simpl; tauto|].
  destruct (String.eqb_spec scenario "crisis") as [-> | _];
    [exfalso; apply Hn; simpl; tauto|].
  destruct (String.eqb_spec scenario "baseline") as [-> | _];
    [exfalso; apply Hn; simpl; tauto|].
  reflexivity.
Qed.

(** X16.  [predict_future_trajectory] rejects a scenario that is none of
    the four before it validates or simulates anything, so the world is
    left untouched even for a state outside the unit cube.  For the four
    scenarios it is one call of [simulate_evolution] whose result gets
    the scenario as label; a keyword that the caller passes always wins
    over the scenario's value, no scenario touches [beta] or the noise
    seed, and the baseline scenario passes the caller's keywords on
    unchanged. *)
Theorem forecast_scenarios
        H_current V_current alpha_current years_ahead scenario kwargs
        (w : World G) :
  (~ In scenario ["baseline"; "reform"; "lock-in"; "crisis"]%string ->
   forecast H_current V_current alpha_current years_ahead scenario kwargs w
   = (Unknown_scenario scenario, w)) /\
  (In scenario ["baseline"; "reform"; "lock-in"; "crisis"]%string ->
   exists kwargs',
     scenario_kwargs scenario kwargs = Some kwargs' /\
     (forall r w',
         simulate_kw H_current V_current alpha_current years_ahead
                     kwargs' w = (Ok r, w') ->
         forecast H_current V_current alpha_current years_ahead scenario
                  kwargs w
         = (Simulated (Ok (mkForecast r scenario)), w')) /\
     (forall e w',
         simulate_kw H_current V_current alpha_current years_ahead
                     kwargs' w = (Raise e, w') ->
         forecast H_current V_current alpha_current years_ahead scenario
                  kwargs w
         = (Simulated (Raise e), w')) /\
     kw_beta kwargs' = kw_beta kwargs /\
     kw_noise_seed kwargs' = kw_noise_seed kwargs /\
     (forall v, kw_gamma_H kwargs = Some v -> kw_gamma_H kwargs' = Some v) /\
     (forall v, kw_gamma_V kwargs = Some v -> kw_gamma_V kwargs' = Some v) /\
     (forall v, kw_sigma_H kwargs = Some v -> kw_sigma_H kwargs' = Some v) /\
     (forall v, kw_sigma_V kwargs = Some v -> kw_sigma_V kwargs' = Some v) /\
     (forall v, kw_sigma_alpha kwargs = Some v ->
                kw_sigma_alpha kwargs' = Some v) /\
     (scenario = "baseline"%string -> kwargs' = kwargs)).
Proof.
  split.
  - intros Hn. unfold predict_future_trajectory.
    rewrite (scenario_kwargs_unknown _ _ Hn). reflexivity.
  - intros Hin.
    destruct (scenario_kwargs_known scenario kwargs Hin)
      as (kwargs' & Hk & Hrest).
    exists kwargs'.
    split; [exact Hk|].
    split.
    { intros r w' Hsim. unfold predict_future_trajectory.
      rewrite Hk, (bind_ok _ _ _ _ _ Hsim). reflexivity. }
    split.
    { intros e w' Hsim. unfold predict_future_trajectory.
      rewrite Hk, (bind_raise _ _ _ _ _ Hsim). reflexivity. }
    exact Hrest.
Qed.

End ForecastFacts.

(** ** The full report *)

Lemma calculate_CHI_ok {G} H V alpha (w : World G) :
  0 <= H <= 1 -> 0 <= V <= 1 -> 0 <= alpha <= 1 ->
  exists c,
    calculate_CHI H V alpha PHI w
    = (Ok c, mkWorld (rng w)
                     (warnings w ++ repeat Warn_d_phi_V0 (zero_samples [V])))
    /\ 0 <= c <= 1.
Proof.
  intros HH HV Ha. unfold calculate_CHI.
  rewrite (bind_ok _ _ _ _ _ (check_unit_three_ok _ _ _ _ _ _ w HH HV Ha)).
  rewrite (bind_ok _ _ _ _ _ (calculate_d_phi_row H V w)).
  eexists. split; [reflexivity|].
  assert (Hd : 0 <= d_phi_of H V).
  { unfold d_phi_of. destruct (Reqb V 0); [lra|].
    apply round_nonneg, Rabs_pos. }
  assert (Hinv : 0 < / (1 + d_phi_of H V) <= 1).
  { split; [apply Rinv_0_lt_compat; lra|].
    rewrite <- Rinv_1 at 2. apply Rinv_le_contravar; lra. }
  assert (Hnum : 0 <= H * V * alpha <= 1).
  { split; [apply Rmult_le_pos; [apply Rmult_le_pos|]; lra|].
    assert (0 <= H * V <= 1) by nra. nra. }
  split.
  - apply round_nonneg. unfold Rdiv. apply Rmult_le_pos; lra.
  - apply Rle_trans with (round 1 3); [| rewrite round_one; lra].
    apply round_monotone. unfold Rdiv.
    apply Rle_trans with (1 * 1); [| lra].
    apply Rmult_le_compat; lra.
Qed.

Lemma goldilocks_score_ok {G} H V alpha (w : World G) :
  0 <= V <= 1 -> 0 <= alpha <= 1 ->
  exists s,
    goldilocks_score H V alpha PHI w
    = (Ok s, mkWorld (rng w)
                     (warnings w ++ repeat Warn_d_phi_V0 (zero_samples [V])))
    /\ 0 <= s <= 1.
Proof.
  intros HV Ha. unfold goldilocks_score.
  rewrite (bind_ok _ _ _ _ _ (calculate_d_phi_row H V w)).
  pose proof float_overflow_big as Hbig.
  rewrite (bind_ok _ _ _ _ _ (float_pow2_ok ((V - 0.6) / 0.2) _
                                 ltac:(nra))).
  rewrite (bind_ok _ _ _ _ _ (float_pow2_ok ((alpha - 0.7) / 0.2) _
                                 ltac:(nra))).
  eexists. split; [reflexivity|]. apply gaussian_score_in_unit.
Qed.

Lemma predict_viability_ok {G} H V alpha threshold_LEI (w : World G) :
  0 <= H <= 1 -> 0 <= V <= 1 -> 0 <= alpha <= 1 ->
  exists d,
    predict_viability H V alpha threshold_LEI w
    = (Ok (Rltb threshold_LEI (LEI_of H V alpha), d),
       mkWorld (rng w)
               (warnings w ++ repeat Warn_LEI_V0 (zero_samples [V]))).
Proof.
  intros HH HV Ha. unfold predict_viability.
  pose proof (calculate_LEI_row (H, V, alpha) w) as Hrow.
  cbn [fst snd] in Hrow.
  rewrite (bind_ok _ _ _ _ _ (Hrow (conj HH (conj HV Ha)))).
  eexists. reflexivity.
Qed.

Lemma comprehensive_metrics_in_cube
      {G} H V alpha country_name verbose (w : World G) :
  0 <= H <= 1 -> 0 <= V <= 1 -> 0 <= alpha <= 1 ->
   exists m w',
     comprehensive_metrics H V alpha country_name verbose w = (Ok m, w') /\
     m_country m = country_name /\
     (m_H m, m_V m, m_alpha m) = (H, V, alpha) /\
     0 <= m_LEI m /\ 0 <= m_d_phi m /\
     0 <= m_CHI m <= 1 /\ 0 <= m_goldilocks_score m <= 1 /\
     m_zone m = classify_zone H V alpha PHI /\
     m_viable m = Rltb 0.1 (m_LEI m) /\
     (m_zone m = "Goldilocks Zone"%string -> m_viable m = true) /\
     (m_zone m = "High Rigidity Zone (Terminal Lock-in)"%string ->
      m_viable m = false) /\
     (V <> 0 -> w' = w) /\
     (V = 0 ->
      m_LEI m = 0 /\ m_d_phi m = 10 /\ m_CHI m = 0 /\ m_viable m = false /\
      warnings w'
      = warnings w ++ [Warn_LEI_V0; Warn_d_phi_V0; Warn_d_phi_V0;
                       Warn_d_phi_V0; Warn_LEI_V0]).
Proof.
  intros HH HV Ha. unfold comprehensive_metrics.
  pose proof (calculate_LEI_row (H, V, alpha) w (conj HH (conj HV Ha)))
    as HLEI.
  cbn [fst snd] in HLEI.
  rewrite (bind_ok _ _ _ _ _ HLEI).
  rewrite (bind_ok _ _ _ _ _ (calculate_d_phi_row H V _)).
  destruct (calculate_CHI_ok H V alpha
              (mkWorld
                 (rng (mkWorld (rng w)
                         (warnings w
                          ++ repeat Warn_LEI_V0 (zero_samples [V]))))
                 (warnings (mkWorld (rng w)
                              (warnings w
                               ++ repeat Warn_LEI_V0 (zero_samples [V])))
                  ++ repeat Warn_d_phi_V0 (zero_samples [V])))
              HH HV Ha) as (c & HCHI & Hc).
  rewrite (bind_ok _ _ _ _ _ HCHI).
  match goal with
  | |- context [bind (goldilocks_score H V alpha PHI) _ ?w0] =>
      destruct (goldilocks_score_ok H V alpha w0 HV Ha) as (s & HGS & Hs)
  end.
  rewrite (bind_ok _ _ _ _ _ HGS).
  match goal with
  | |- context [bind (predict_viability H V alpha 0.1) _ ?w0] =>
      destruct (predict_viability_ok H V alpha 0.1 w0 HH HV Ha)
        as (d & Hd)
  end.
  rewrite (bind_ok _ _ _ _ _ Hd).
  eexists _, _. split; [reflexivity|].
  cbn [m_country m_H m_V m_alpha m_LEI m_d_phi m_CHI m_goldilocks_score
       m_zone m_viable fst snd rng warnings].
  assert (HLpos : 0 <= LEI_of H V alpha).
  { unfold LEI_of. destruct (Reqb V 0); [lra|].
    apply round_nonneg. pose proof (Rabs_pos (H / V - PHI)).
    unfold Rdiv. apply Rmult_le_pos; [nra|].
    apply Rlt_le, Rinv_0_lt_compat; lra. }
  assert (Hdpos : 0 <= d_phi_of H V).
  { unfold d_phi_of. destruct (Reqb V 0); [lra|].
    apply round_nonneg, Rabs_pos. }
  split; [reflexivity|]. split; [reflexivity|].
  split; [exact HLpos|]. split; [exact Hdpos|].
  split; [exact Hc|]. split; [exact Hs|].
  split; [reflexivity|]. split; [reflexivity|].
  split.
  { intros Hzone.
    destruct (goldilocks_LEI_bound H V alpha HH HV Ha Hzone) as [Hnz Hl].
    unfold LEI_of.
    replace (Reqb V 0) with false by (symmetry; apply Reqb_false; exact Hnz).
    apply Rltb_true. lra. }
  split.
  { intros Hzone.
    destruct (terminal_LEI_bound H V alpha HH HV Ha Hzone) as [Hnz Hl].
    unfold LEI_of.
    replace (Reqb V 0) with false by (symmetry; apply Reqb_false; exact Hnz).
    apply Rltb_false. lra. }
  unfold zero_samples. cbn [filter].
  split.
  + intros Hnz.
    replace (Reqb V 0) with false by (symmetry; apply Reqb_false; exact Hnz).
    cbn [List.length repeat]. rewrite !app_nil_r. apply world_eta.
  + intros Hz.
    assert (HCHI0 : c = 0).
    { unfold calculate_CHI in HCHI.
      rewrite (bind_ok _ _ _ _ _
                 (check_unit_three_ok _ _ _ _ _ _ _ HH HV Ha)) in HCHI.
      rewrite (bind_ok _ _ _ _ _ (calculate_d_phi_row H V _)) in HCHI.
      inversion HCHI as [Hc0]. subst V.
      replace (H * 0 * alpha / (1 + d_phi_of H 0)) with 0
        by (field; lra).
      apply round_zero. }
    unfold LEI_of, d_phi_of.
    replace (Reqb V 0) with true by (symmetry; apply Reqb_true; exact Hz).
    cbn [List.length repeat].
    split; [reflexivity|]. split; [reflexivity|]. split; [exact HCHI0|].
    split; [apply Rltb_false; lra|].
    rewrite <- !app_assoc. reflexivity.
Qed.


(** ** The parameter functions *)

Lemma first_outside_four_none a b c d na nb nc nd :
  first_outside [(a, na); (b, nb); (c, nc); (d, nd)] = None <->
  unit4 a b c d.
Proof.
  unfold unit4. simpl. rewrite <- !in_unit_true.
  destruct (in_unit a), (in_unit b), (in_unit c), (in_unit d); simpl;
    split; intros Hx; try discriminate; try reflexivity; try tauto;
    destruct Hx as (? & ? & ? & ?); discriminate.
Qed.

Lemma py_sum_acc xs : forall acc, fold_left Rplus xs acc = acc + Rsum xs.
Proof.
  induction xs as [| x xs IH]; intros acc; simpl.
  - unfold Rsum. simpl. lra.
  - rewrite IH. unfold Rsum. simpl. lra.
Qed.

Lemma py_sum_Rsum xs : py_sum xs = Rsum xs.
Proof. unfold py_sum. rewrite py_sum_acc. lra. Qed.

Lemma Rsum_nonneg xs : Forall (fun x => 0 <= x) xs -> 0 <= Rsum xs.
Proof.
  induction 1 as [| x xs Hx _ IH]; unfold Rsum in *; simpl; lra.
Qed.

Lemma np_isclose_one_true total :
  np_isclose total 1.0 = true <-> Rabs (total - 1) <= 1 / 10 ^ 8 + 1 / 10 ^ 5.
Proof.
  unfold np_isclose. rewrite Rleb_true.
  replace (Rabs 1.0) with 1 by (rewrite Rabs_right; lra).
  replace (total - 1.0) with (total - 1) by lra.
  replace (1 / 10 ^ 8 + 1 / 10 ^ 5 * 1) with (1 / 10 ^ 8 + 1 / 10 ^ 5)
    by lra.
  reflexivity.
Qed.

Lemma Rabs_le_bounds x b : Rabs x <= b -> - b <= x <= b.
Proof. unfold Rabs. destruct (Rcase_abs x); lra. Qed.

(** A value below [k + 1/2] thousandths rounds to at most [k]
    thousandths. *)
Lemma round_below_half x k :
  x * 10 ^ 3 < IZR k + 1 / 2 -> round x 3 <= IZR k / 10 ^ 3.
Proof.
  intros Hx. unfold round. pose proof (pow10_pos 3) as Hp.
  apply Rmult_le_compat_r; [apply Rlt_le, Rinv_0_lt_compat; exact Hp|].
  apply IZR_le.
  pose proof (rint_error (x * 10 ^ 3)) as He.
  apply Rabs_le_bounds in He.
  assert (Hlt : IZR (rint (x * 10 ^ 3)) < IZR (k + 1))
    by (rewrite plus_IZR; lra).
  apply lt_IZR in Hlt. lia.
Qed.

Lemma calculate_H_shape :
  calculate_H
  = weighted_score [0.35; 0.30; 0.25; 0.10] "precedent_strength"
                   "const_rigidity" "codification" "judicial_tenure".
Proof. reflexivity. Qed.

Lemma calculate_V_shape :
  calculate_V
  = weighted_score [0.40; 0.25; 0.20; 0.15] "federal_autonomy"
                   "amendment_freq" "judicial_review" "legislative_turnover".
Proof. reflexivity. Qed.

Lemma calculate_alpha_shape :
  calculate_alpha
  = weighted_score [0.35; 0.25; 0.25; 0.15] "compliance_rate"
                   "transparency_score" "enforcement_capacity"
                   "legitimacy_index".
Proof. reflexivity. Qed.

(** Each of the three functions is the shared body at default weights
    that are nonnegative and sum to one. *)
Lemma parameter_functions_shape f default :
  In (f, default) parameter_functions ->
  unit_weights default /\
  exists n1 n2 n3 n4, f = weighted_score default n1 n2 n3 n4.
Proof.
  intros [Heq | [Heq | [Heq | []]]]; inversion Heq; subst; split;
    try (eexists _, _, _, _; reflexivity);
    unfold unit_weights; eexists _, _, _, _;
    (split; [reflexivity|]); lra.
Qed.

(** The outcome of the shared body, case by case. *)
Lemma weighted_score_cases default n1 n2 n3 n4 a b c d weights :
  let ws := match weights with None => default | Some ws => ws end in
  (~ unit4 a b c d ->
   exists name got,
     first_outside [(a, n1); (b, n2); (c, n3); (d, n4)] = Some (name, got) /\
     weighted_score default n1 n2 n3 n4 a b c d weights
     = Raises (Param_out_of_range name got)) /\
  (unit4 a b c d -> np_isclose (py_sum ws) 1.0 = false ->
   weighted_score default n1 n2 n3 n4 a b c d weights
   = Raises (Weights_sum_error (py_sum ws))) /\
  (unit4 a b c d -> np_isclose (py_sum ws) 1.0 = true ->
   (List.length ws < 4)%nat ->
   weighted_score default n1 n2 n3 n4 a b c d weights
   = Raises Weights_IndexError) /\
  (unit4 a b c d -> np_isclose (py_sum ws) 1.0 = true ->
   forall w0 w1 w2 w3 rest,
     ws = w0 :: w1 :: w2 :: w3 :: rest ->
     weighted_score default n1 n2 n3 n4 a b c d weights
     = Returns (round (w0 * a + w1 * b + w2 * c + w3 * d) 3)).
Proof.
  intros ws. unfold weighted_score. fold ws.
  split; [| split; [| split]].
  - intros Hn.
    destruct (first_outside _) as [[name got] |] eqn:E.
    + exists name, got. split; reflexivity.
    + apply first_outside_four_none in E. contradiction.
  - intros Hu Hc.
    apply (first_outside_four_none a b c d n1 n2 n3 n4) in Hu.
    rewrite Hu, Hc. reflexivity.
  - intros Hu Hc Hlen.
    apply (first_outside_four_none a b c d n1 n2 n3 n4) in Hu.
    rewrite Hu, Hc. cbn [negb].
    destruct ws as [| w0 [| w1 [| w2 [| w3 rest]]]]; try reflexivity.
    simpl in Hlen. lia.
  - intros Hu Hc w0 w1 w2 w3 rest Hws.
    apply (first_outside_four_none a b c d n1 n2 n3 n4) in Hu.
    rewrite Hu, Hc, Hws. reflexivity.
Qed.

Lemma weighted_sum_bounds w0 w1 w2 w3 a b c d :
  0 <= w0 -> 0 <= w1 -> 0 <= w2 -> 0 <= w3 -> unit4 a b c d ->
  0 <= w0 * a + w1 * b + w2 * c + w3 * d <= w0 + w1 + w2 + w3.
Proof.
  intros H0 H1 H2 H3 (Ha & Hb & Hc & Hd). split; nra.
Qed.

Lemma weighted_score_default default n1 n2 n3 n4 a b c d :
  unit_weights default -> unit4 a b c d ->
  exists w0 w1 w2 w3,
    default = [w0; w1; w2; w3] /\
    0 <= w0 /\ 0 <= w1 /\ 0 <= w2 /\ 0 <= w3 /\
    weighted_score default n1 n2 n3 n4 a b c d None
    = Returns (round (w0 * a + w1 * b + w2 * c + w3 * d) 3) /\
    0 <= round (w0 * a + w1 * b + w2 * c + w3 * d) 3 <= 1.
Proof.
  intros (w0 & w1 & w2 & w3 & -> & H0 & H1 & H2 & H3 & Hsum) Hu.
  exists w0, w1, w2, w3. split; [reflexivity|].
  do 4 (split; [assumption|]).
  pose proof (weighted_sum_bounds w0 w1 w2 w3 a b c d H0 H1 H2 H3 Hu) as Hb.
  split.
  - destruct (weighted_score_cases [w0; w1; w2; w3] n1 n2 n3 n4 a b c d None)
      as (_ & _ & _ & Hret).
    apply (Hret Hu) with (rest := []); [| reflexivity].
    apply np_isclose_one_true. rewrite py_sum_Rsum. unfold Rsum. simpl.
    replace (w0 + (w1 + (w2 + (w3 + 0))) - 1) with 0 by lra.
    rewrite Rabs_R0. lra.
  - split; [apply round_nonneg; lra|].
    apply Rle_trans with (round 1 3); [| rewrite round_one; lra].
    apply round_monotone. lra.
Qed.

(** X18.  With their default weights the three parameter functions
    [calculate_H], [calculate_V] and [calculate_alpha] return for all
    components in [[0, 1]], with a value in [[0, 1]] that does not
    decrease when a component grows; passing the default weights
    explicitly gives the same value. *)
Theorem parameters_with_default_weights f default a b c d :
  In (f, default) parameter_functions ->
  unit4 a b c d ->
  exists x,
    f a b c d None = Returns x /\
    f a b c d (Some default) = Returns x /\
    0 <= x <= 1 /\
    (forall a' b' c' d' x',
        unit4 a' b' c' d' ->
        a <= a' -> b <= b' -> c <= c' -> d <= d' ->
        f a' b' c' d' None = Returns x' -> x <= x').
Proof.
  intros Hin Hu.
  destruct (parameter_functions_shape f default Hin)
    as (Hw & n1 & n2 & n3 & n4 & ->).
  destruct (weighted_score_default default n1 n2 n3 n4 a b c d Hw Hu)
    as (w0 & w1 & w2 & w3 & Hd & H0 & H1 & H2 & H3 & Hret & Hb).
  eexists. split; [exact Hret|]. split; [exact Hret|]. split; [exact Hb|].
  intros a' b' c' d' x' Hu' Ha Hb' Hc Hd' Hret'.
  destruct (weighted_score_default default n1 n2 n3 n4 a' b' c' d' Hw Hu')
    as (v0 & v1 & v2 & v3 & Hd2 & _ & _ & _ & _ & Hret2 & _).
  rewrite Hd in Hd2. inversion Hd2; subst v0 v1 v2 v3.
  rewrite Hret2 in Hret'. inversion Hret'.
  apply round_monotone.
  destruct Hu as (? & ? & ? & ?). destruct Hu' as (? & ? & ? & ?).
  nra.
Qed.

(** X19.  With weights passed by the caller the three parameter
    functions check in this order: a component outside [[0, 1]] is
    reported first (the first one in argument order), then a sum of the
    weights that is not within [1e-8 + 1e-5] of [1], then a list of
    fewer than four weights, which raises [IndexError]; weights beyond
    the fourth count for the sum and are otherwise ignored.  When all
    checks pass and the weights are nonnegative the value lies in
    [[0, 1]]. *)
Theorem parameters_with_custom_weights f default a b c d ws :
  In (f, default) parameter_functions ->
  (~ unit4 a b c d ->
   exists name got,
     f a b c d (Some ws) = Raises (Param_out_of_range name got) /\
     (got < 0 \/ 1 < got) /\ In got [a; b; c; d]) /\
  (unit4 a b c d -> np_isclose (py_sum ws) 1.0 = false ->
   f a b c d (Some ws) = Raises (Weights_sum_error (py_sum ws))) /\
  (unit4 a b c d -> np_isclose (py_sum ws) 1.0 = true ->
   (List.length ws < 4)%nat ->
   f a b c d (Some ws) = Raises Weights_IndexError) /\
  (unit4 a b c d -> np_isclose (py_sum ws) 1.0 = true ->
   (4 <= List.length ws)%nat ->
   exists x,
     f a b c d (Some ws) = Returns x /\
     x = round (nth 0 ws 0 * a + nth 1 ws 0 * b + nth 2 ws 0 * c
                + nth 3 ws 0 * d) 3 /\
     (Forall (fun w => 0 <= w) ws -> 0 <= x <= 1)).
Proof.
  intros Hin.
  destruct (parameter_functions_shape f default Hin)
    as (_ & n1 & n2 & n3 & n4 & ->).
  destruct (weighted_score_cases default n1 n2 n3 n4 a b c d (Some ws))
    as (Hrange & Hsum & Hidx & Hret).
  cbv zeta in Hrange, Hsum, Hidx, Hret.
  split; [| split; [| split]].
  - intros Hn. destruct (Hrange Hn) as (name & got & Hfirst & Hr).
    exists name, got. split; [exact Hr|].
    apply first_outside_some in Hfirst. destruct Hfirst as [Hi Hout].
    split; [exact Hout|].
    simpl in Hi. simpl.
    destruct Hi as [Hi | [Hi | [Hi | [Hi | []]]]]; inversion Hi; tauto.
  - exact Hsum.
  - exact Hidx.
  - intros Hu Hc Hlen.
    destruct ws as [| w0 [| w1 [| w2 [| w3 rest]]]];
      try (simpl in Hlen; lia).
    eexists. split; [apply (Hret Hu Hc w0 w1 w2 w3 rest eq_refl)|].
    cbn [nth]. split; [reflexivity|].
    intros Hpos.
    inversion Hpos as [| ? ? P0 Hpos1]; subst.
    inversion Hpos1 as [| ? ? P1 Hpos2]; subst.
    inversion Hpos2 as [| ? ? P2 Hpos3]; subst.
    inversion Hpos3 as [| ? ? P3 Hrest]; subst.
    pose proof (weighted_sum_bounds w0 w1 w2 w3 a b c d P0 P1 P2 P3 Hu)
      as Hb.
    pose proof (Rsum_nonneg rest Hrest) as Hr.
    apply np_isclose_one_true in Hc. rewrite py_sum_Rsum in Hc.
    unfold Rsum in Hc, Hr. cbn [fold_right] in Hc.
    apply Rabs_le_bounds in Hc.
    split; [apply round_nonneg; lra|].
    apply Rle_trans with (IZR 1000 / 10 ^ 3); [| simpl; lra].
    apply round_below_half.
    simpl in Hc |- *. lra.
Qed.

(** X20.  The parameter functions do not ask for nonnegative weights:
    with the weights [[1 + k, -k, 0, 0]], which sum to one, and the
    components [1] and [0] in the first two places, each of them returns
    the rounded [1 + k], which exceeds [1] as soon as [k] is a
    thousandth. *)
Theorem negative_weights_leave_the_unit_interval f default c d k :
  In (f, default) parameter_functions ->
  0 <= c <= 1 -> 0 <= d <= 1 -> 0.001 <= k ->
  f 1 0 c d (Some [1 + k; - k; 0; 0]) = Returns (round (1 + k) 3) /\
  1.001 <= round (1 + k) 3.
Proof.
  intros Hin Hc Hd Hk.
  destruct (parameter_functions_shape f default Hin)
    as (_ & n1 & n2 & n3 & n4 & ->).
  destruct (weighted_score_cases default n1 n2 n3 n4 1 0 c d
                                 (Some [1 + k; - k; 0; 0]))
    as (_ & _ & _ & Hret).
  cbv zeta in Hret.
  split.
  - rewrite (Hret ltac:(unfold unit4; lra)) with (rest := [])
      (w0 := 1 + k) (w1 := - k) (w2 := 0) (w3 := 0); [| | reflexivity].
    + f_equal. f_equal. lra.
    + apply np_isclose_one_true. rewrite py_sum_Rsum. unfold Rsum. simpl.
      replace (1 + k + (- k + (0 + (0 + 0))) - 1) with 0 by lra.
      rewrite Rabs_R0. lra.
  - replace 1.001 with (round (IZR 1001 / 10 ^ 3) 3)
      by (rewrite round_IZR_div; simpl; lra).
    apply round_monotone. simpl. lra.
Qed.

Lemma calculate_H_default a b c d :
  unit4 a b c d ->
  calculate_H a b c d None
  = Returns (round (0.35 * a + 0.30 * b + 0.25 * c + 0.10 * d) 3) /\
  0 <= round (0.35 * a + 0.30 * b + 0.25 * c + 0.10 * d) 3 <= 1.
Proof.
  intros Hu. rewrite calculate_H_shape.
  destruct (weighted_score_default
              [0.35; 0.30; 0.25; 0.10] "precedent_strength" "const_rigidity"
              "codification" "judicial_tenure" a b c d)
    as (w0 & w1 & w2 & w3 & Hd & _ & _ & _ & _ & Hret & Hb);
    [unfold unit_weights; eexists _, _, _, _;
     (split; [reflexivity|]); lra | exact Hu |].
  inversion Hd; subst. split; assumption.
Qed.

Lemma calculate_V_default a b c d :
  unit4 a b c d ->
  calculate_V a b c d None
  = Returns (round (0.40 * a + 0.25 * b + 0.20 * c + 0.15 * d) 3) /\
  0 <= round (0.40 * a + 0.25 * b + 0.20 * c + 0.15 * d) 3 <= 1.
Proof.
  intros Hu. rewrite calculate_V_shape.
  destruct (weighted_score_default
              [0.40; 0.25; 0.20; 0.15] "federal_autonomy" "amendment_freq"
              "judicial_review" "legislative_turnover" a b c d)
    as (w0 & w1 & w2 & w3 & Hd & _ & _ & _ & _ & Hret & Hb);
    [unfold unit_weights; eexists _, _, _, _;
     (split; [reflexivity|]); lra | exact Hu |].
  inversion Hd; subst. split; assumption.
Qed.

Lemma calculate_alpha_default a b c d :
  unit4 a b c d ->
  calculate_alpha a b c d None
  = Returns (round (0.35 * a + 0.25 * b + 0.25 * c + 0.15 * d) 3) /\
  0 <= round (0.35 * a + 0.25 * b + 0.25 * c + 0.15 * d) 3 <= 1.
Proof.
  intros Hu. rewrite calculate_alpha_shape.
  destruct (weighted_score_default
              [0.35; 0.25; 0.25; 0.15] "compliance_rate" "transparency_score"
              "enforcement_capacity" "legitimacy_index" a b c d)
    as (w0 & w1 & w2 & w3 & Hd & _ & _ & _ & _ & Hret & Hb);
    [unfold unit_weights; eexists _, _, _, _;
     (split; [reflexivity|]); lra | exact Hu |].
  inversion Hd; subst. split; assumption.
Qed.

(** The triple computed from components in [[0, 1]] with the default
    weights. *)
Lemma calculate_all_parameters_default components :
  unit_components components ->
  exists H V alpha,
    calculate_all_parameters components None None None
    = Returns (H, V, alpha) /\
    H = round (0.35 * pc_precedent_strength components
               + 0.30 * pc_const_rigidity components
               + 0.25 * pc_codification components
               + 0.10 * pc_judicial_tenure components) 3 /\
    V = round (0.40 * pc_federal_autonomy components
               + 0.25 * pc_amendment_freq components
               + 0.20 * pc_judicial_review components
               + 0.15 * pc_legislative_turnover components) 3 /\
    alpha = round (0.35 * pc_compliance_rate components
                   + 0.25 * pc_transparency_score components
                   + 0.25 * pc_enforcement_capacity components
                   + 0.15 * pc_legitimacy_index components) 3 /\
    in_cube (H, V, alpha).
Proof.
  intros (HuH & HuV & Hua).
  destruct (calculate_H_default _ _ _ _ HuH) as [HH HbH].
  destruct (calculate_V_default _ _ _ _ HuV) as [HV HbV].
  destruct (calculate_alpha_default _ _ _ _ Hua) as [Ha Hba].
  eexists _, _, _. split.
  { unfold calculate_all_parameters. rewrite HH, HV, Ha. reflexivity. }
  split; [reflexivity|]. split; [reflexivity|]. split; [reflexivity|].
  unfold in_cube. cbn [fst snd]. tauto.
Qed.

(** X21.  [calculate_all_parameters] with the default weights returns,
    for components in [[0, 1]], a triple of the unit cube, on which
    [comprehensive_metrics] in turn returns; when a component of the
    heredity group is out of range the error is that of [calculate_H],
    whatever the other groups and weights are. *)
Theorem all_parameters_feed_the_metrics components :
  (unit_components components ->
   exists H V alpha,
     calculate_all_parameters components None None None
     = Returns (H, V, alpha) /\
     in_cube (H, V, alpha) /\
     forall G (w : World G) country_name verbose,
     exists m w',
       comprehensive_metrics H V alpha country_name verbose w
       = (Ok m, w')) /\
  (~ unit4 (pc_precedent_strength components) (pc_const_rigidity components)
           (pc_codification components) (pc_judicial_tenure components) ->
   forall H_weights V_weights alpha_weights,
   exists name got,
     calculate_all_parameters components H_weights V_weights alpha_weights
     = Raises (Param_out_of_range name got) /\
     In name ["precedent_strength"; "const_rigidity"; "codification";
              "judicial_tenure"]%string).
Proof.
  split.
  - intros Hu.
    destruct (calculate_all_parameters_default components Hu)
      as (H & V & alpha & Hret & _ & _ & _ & Hcube).
    exists H, V, alpha. split; [exact Hret|]. split; [exact Hcube|].
    intros G w country_name verbose.
    destruct Hcube as (HH & HV & Ha). cbn [fst snd] in HH, HV, Ha.
    destruct (comprehensive_metrics_in_cube H V alpha country_name verbose w
                                            HH HV Ha)
      as (m & w' & Hm & _).
    exists m, w'. exact Hm.
  - intros Hn H_weights V_weights alpha_weights.
    unfold calculate_all_parameters, calculate_H.
    destruct (first_outside _) as [[name got] |] eqn:E.
    + exists name, got. split; [reflexivity|].
      apply first_outside_some in E. destruct E as [Hi _].
      simpl in Hi. simpl.
      destruct Hi as [Hi | [Hi | [Hi | [Hi | []]]]]; inversion Hi; tauto.
    + apply first_outside_four_none in E. contradiction.
Qed.

(** ** The table of countries *)

Lemma dict_lookup_In {A} key (items : list (string * A)) v :
  dict_lookup key items = Some v -> In (key, v) items.
Proof.
  induction items as [| [k x] rest IH]; simpl; [discriminate|].
  destruct (String.eqb_spec key k) as [-> | _].
  - intros Hv. inversion Hv. left. reflexivity.
  - intros Hv. right. apply IH. exact Hv.
Qed.

Lemma dict_lookup_None {A} key (items : list (string * A)) :
  dict_lookup key items = None -> ~ In key (map fst items).
Proof.
  induction items as [| [k x] rest IH]; simpl; [tauto|].
  destruct (String.eqb_spec key k) as [-> | Hne]; [discriminate|].
  intros Hn [Heq | Hin]; [congruence | exact (IH Hn Hin)].
Qed.

Lemma round_off x s :
  s + 1 / 2 / 10 ^ 3 < x \/ x < s - 1 / 2 / 10 ^ 3 -> round x 3 <> s.
Proof.
  intros Hfar Heq. pose proof (round_error x 3) as He.
  rewrite Heq in He. apply Rabs_le_bounds in He. lra.
Qed.

(** X22.  Every entry that [get_country_parameters] returns can be fed
    to the metrics: its stored parameters lie in the unit cube with
    [V > 0.1], so [comprehensive_metrics] returns on them without a
    warning, and its stored components lie in [[0, 1]].  The stored
    parameters are not the ones that [calculate_all_parameters] computes
    from the stored components with the default weights: the two differ
    in each of the three parameters, for every entry.  A name that is
    not a key after its spaces have been replaced by underscores raises
    [KeyError] with the name as given. *)
Theorem country_table_entries country :
  (forall entry,
      get_country_parameters country = Returns entry ->
      In (replace_spaces country, entry) COUNTRY_PARAMETERS /\
      in_cube (ce_H entry, ce_V entry, ce_alpha entry) /\
      0.1 < ce_V entry /\
      unit_components (ce_components entry) /\
      (forall G (w : World G) verbose,
        exists m,
          comprehensive_metrics (ce_H entry) (ce_V entry) (ce_alpha entry)
                                country verbose w = (Ok m, w)) /\
      exists H V alpha,
        calculate_all_parameters (ce_components entry) None None None
        = Returns (H, V, alpha) /\
        H <> ce_H entry /\ V <> ce_V entry /\ alpha <> ce_alpha entry) /\
  (forall e,
      get_country_parameters country = Raises e ->
      e = Country_KeyError country /\
      ~ In (replace_spaces country) (map fst COUNTRY_PARAMETERS)).
Proof.
  unfold get_country_parameters. split.
  - intros entry Hget.
    destruct (dict_lookup (replace_spaces country) COUNTRY_PARAMETERS)
      as [v |] eqn:E; [| discriminate].
    inversion Hget; subst v. apply dict_lookup_In in E.
    split; [exact E|].
    assert (Hcube : in_cube (ce_H entry, ce_V entry, ce_alpha entry) /\
                    0.1 < ce_V entry /\
                    unit_components (ce_components entry)).
    { unfold COUNTRY_PARAMETERS in E. simpl in E.
      destruct E as [E | [E | [E | [E | [E | []]]]]]; inversion E;
        unfold in_cube, unit_components, unit4; cbn; lra. }
    destruct Hcube as (Hcube & HV & Hcomp).
    split; [exact Hcube|]. split; [exact HV|]. split; [exact Hcomp|].
    split.
    { intros G w verbose.
      destruct Hcube as (HH & HVc & Ha). cbn [fst snd] in HH, HVc, Ha.
      destruct (comprehensive_metrics_in_cube
                  (ce_H entry) (ce_V entry) (ce_alpha entry) country verbose
                  w HH HVc Ha)
        as (m & w' & Hm & _ & _ & _ & _ & _ & _ & _ & _ & _ & _ & Hw & _).
      exists m. rewrite Hm, Hw by lra. reflexivity. }
    destruct (calculate_all_parameters_default (ce_components entry) Hcomp)
      as (H & V & alpha & Hret & -> & -> & -> & _).
    eexists _, _, _. split; [exact Hret|].
    unfold COUNTRY_PARAMETERS in E. simpl in E.
    destruct E as [E | [E | [E | [E | [E | []]]]]]; inversion E; cbn;
      repeat split; apply round_off; simpl; lra.
  - intros e Hget.
    destruct (dict_lookup (replace_spaces country) COUNTRY_PARAMETERS)
      as [v |] eqn:E; [discriminate|].
    inversion Hget. split; [reflexivity|].
    apply dict_lookup_None. exact E.
Qed.

(** ** The order of the ensemble *)

Lemma increasing_seq start len : increasing (seq start len).
Proof.
  revert start. induction len as [| len IH]; intros start; simpl.
  - exact I.
  - split; [| apply IH].
    apply Forall_forall. intros y Hy. apply in_seq in Hy. lia.
Qed.

Lemma increasing_position a xs :
  increasing (a :: xs) ->
  forall k x, nth_error (a :: xs) k = Some x -> (a + k <= x)%nat.
Proof.
  revert a. induction xs as [| b xs IH]; intros a [Hlt Hinc] k x Hk.
  - destruct k as [| [| k]]; simpl in Hk; inversion Hk. lia.
  - destruct k as [| k]; simpl in Hk.
    + inversion Hk. lia.
    + pose proof (IH b Hinc k x Hk) as Hb.
      inversion Hlt; subst. lia.
Qed.

Section OrderFacts.

Variable G : Type.
Variable seed_state : Z -> G.
Variable draw_uniform : R -> R -> G -> R * G.
Variable draw_normal : R -> R -> G -> R * G.
Variable Work : Type.
Variable work0 : Work.
Variable lsoda : Work -> State -> R -> R -> Solver (Work * State).

Local Abbreviation simulate_kw :=
  (simulate_evolution_kw G seed_state draw_normal Work work0 lsoda).
Local Abbreviation loop :=
  (sampler_loop G seed_state draw_uniform draw_normal Work work0 lsoda).
Local Abbreviation sampler :=
  (simulate_multiple_trajectories
     G seed_state draw_uniform draw_normal Work work0 lsoda).

Lemma simulate_evolution_kw_first_sample H0 V0 alpha0 years kwargs
      (w : World G) r w' :
  simulate_kw H0 V0 alpha0 years kwargs w = (Ok r, w') ->
  hd_error (samples r) = Some (H0, V0, alpha0).
Proof.
  unfold simulate_evolution_kw. intros Hsim.
  apply simulate_evolution_ok_inv in Hsim.
  destruct Hsim as (_ & solution & LEI_traj & d_phi_traj & w1 & w2
                    & Hint & _ & _ & ->).
  apply odeint_shape in Hint. destruct Hint as (_ & rows & ->).
  unfold samples. cbn [r_H r_V r_alpha]. rewrite zip3_columns.
  reflexivity.
Qed.

(** The loop appends: the runs that it adds carry indices of the loop, in
    the order of the loop, and each records the initial state that its
    trajectory starts from. *)
Lemma sampler_loop_order years H_range V_range alpha_range kwargs :
  forall indices trajectories (w : World G),
    increasing indices ->
    exists added w',
      loop years H_range V_range alpha_range kwargs indices trajectories w
      = (Ok (trajectories ++ added), w') /\
      increasing (map simulation_id added) /\
      Forall (fun t =>
                In (simulation_id t) indices /\
                hd_error (samples (run_result t))
                = Some (run_H0 t, run_V0 t, run_alpha0 t)) added.
Proof.
  induction indices as [| i rest IH]; intros trajectories w Hinc.
  - exists [], w. simpl. rewrite app_nil_r.
    split; [reflexivity|]. split; [exact I | constructor].
  - destruct Hinc as [Hlt Hinc]. cbn [sampler_loop]. unfold bind at 1.
    rewrite sampler_body_cases.
    set (d := draw_initial_state G draw_uniform H_range V_range alpha_range
                                 (rng w)).
    set (w0 := mkWorld (snd d) (warnings w)).
    destruct (simulate_kw _ _ _ years _ w0) as [[result | e] w1] eqn:Esim.
    + destruct (IH (trajectories ++
                    [mkRun result i (fst (fst (fst d))) (snd (fst (fst d)))
                           (snd (fst d))]) w1 Hinc)
        as (added & w' & Hloop & Hord & Hall).
      eexists (_ :: added), w'.
      split; [rewrite Hloop, <- app_assoc; reflexivity|].
      split.
      * cbn [map simulation_id increasing]. split; [| exact Hord].
        apply Forall_map, Forall_forall. intros t Ht.
        rewrite Forall_forall in Hall, Hlt.
        apply Hlt. apply (Hall t Ht).
      * constructor.
        -- cbn [simulation_id run_result run_H0 run_V0 run_alpha0].
           split; [left; reflexivity|].
           eapply simulate_evolution_kw_first_sample. exact Esim.
        -- apply Forall_forall. intros t Ht.
           rewrite Forall_forall in Hall. destruct (Hall t Ht) as [Hin Hhd].
           split; [right; exact Hin | exact Hhd].
    + destruct (IH trajectories
                   (mkWorld (rng w1)
                            (warnings w1 ++ [Warn_simulation_failed i e]))
                   Hinc)
        as (added & w' & Hloop & Hord & Hall).
      exists added, w'. split; [exact Hloop|]. split; [exact Hord|].
      apply Forall_forall. intros t Ht.
      rewrite Forall_forall in Hall. destruct (Hall t Ht) as [Hin Hhd].
      split; [right; exact Hin | exact Hhd].
Qed.

(** X23.  The sampler keeps the order of its loop: with an accepted base
    seed the returned ensemble lists its runs by strictly increasing
    [simulation_id], every index is below the number of runs asked for,
    and a run never stands before the position of its index, so after a
    failed run the position in the list and the [simulation_id] no
    longer agree.  The initial state that a run records under [H0],
    [V0], [alpha0] is the first sample of its trajectory. *)
Theorem ensemble_keeps_loop_order
        n years H_range V_range alpha_range kwargs (w : World G) :
  valid_seed (dict_get (kw_noise_seed kwargs) 42%Z) ->
  exists trajectories w',
    sampler n years H_range V_range alpha_range kwargs w
    = (Ok trajectories, w') /\
    increasing (map simulation_id trajectories) /\
    (forall k t, nth_error trajectories k = Some t ->
                 (k <= simulation_id t < n)%nat) /\
    Forall (fun t =>
              hd_error (samples (run_result t))
              = Some (run_H0 t, run_V0 t, run_alpha0 t)) trajectories.
Proof.
  intros Hseed. unfold simulate_multiple_trajectories.
  pose (ws := mkWorld (seed_state (dict_get (kw_noise_seed kwargs) 42%Z))
                      (warnings w)).
  destruct (sampler_loop_order years H_range V_range alpha_range kwargs
                               (seq 0 n) [] ws (increasing_seq 0 n))
    as (added & w' & Hloop & Hord & Hall).
  exists added, w'.
  split.
  { erewrite bind_ok by (apply np_random_seed_valid; exact Hseed).
    exact Hloop. }
  split; [exact Hord|].
  split.
  - intros k t Hk. split.
    + destruct added as [| t0 rest]; [destruct k; discriminate|].
      pose proof (increasing_position
                    (simulation_id t0) (map simulation_id rest) Hord
                    k (simulation_id t)) as Hpos.
      change (simulation_id t0 :: map simulation_id rest)
        with (map simulation_id (t0 :: rest)) in Hpos.
      rewrite nth_error_map, Hk in Hpos. specialize (Hpos eq_refl). lia.
    + apply nth_error_In in Hk. rewrite Forall_forall in Hall.
      destruct (Hall t Hk) as [Hin _]. apply in_seq in Hin. lia.
  - apply Forall_forall. intros t Ht. rewrite Forall_forall in Hall.
    apply (Hall t Ht).
Qed.

End OrderFacts.

(** ** Examples *)

Lemma PHI_upper : PHI < 1.7.
Proof.
  unfold PHI.
  assert (Hs : sqrt 5 < 2.4).
  { rewrite <- (sqrt_square 2.4) by lra. apply sqrt_lt_1; lra. }
  lra.
Qed.

Lemma classify_zone_goldilocks_intro (H V alpha phi : R) :
  V <> 0 -> Rabs (H / V - phi) < 0.5 -> 0.5 < alpha -> 0.4 < V ->
  classify_zone H V alpha phi = "Goldilocks Zone"%string.
Proof.
  intros Hnz Hd Ha HV. unfold classify_zone.
  replace (Reqb V 0) with false by (symmetry; apply Reqb_false; exact Hnz).
  replace (Rltb (Rabs (H / V - phi)) 0.5) with true
    by (symmetry; apply Rltb_true; exact Hd).
  replace (Rltb 0.5 alpha) with true by (symmetry; apply Rltb_true; exact Ha).
  replace (Rltb 0.4 V) with true by (symmetry; apply Rltb_true; exact HV).
  reflexivity.
Qed.

Lemma classify_zone_terminal_intro (H V alpha phi : R) :
  V <> 0 -> phi + 1.5 < H / V -> alpha < 0.2 ->
  classify_zone H V alpha phi
  = "High Rigidity Zone (Terminal Lock-in)"%string.
Proof.
  intros Hnz Hr Ha. unfold classify_zone.
  replace (Reqb V 0) with false by (symmetry; apply Reqb_false; exact Hnz).
  replace (Rltb (Rabs (H / V - phi)) 0.5) with false
    by (symmetry; apply Rltb_false; rewrite Rabs_right; lra).
  cbn [andb].
  replace (Rltb (phi + 1.5) (H / V)) with true
    by (symmetry; apply Rltb_true; exact Hr).
  replace (Rltb alpha 0.2) with true by (symmetry; apply Rltb_true; exact Ha).
  reflexivity.
Qed.

(** With a convergence rate of [4] per year the Euler stepper carries
    [H] from [0] past [1] within the first year. *)
Lemma demo_fast_H_leaves_cube :
  exists y1,
    1 < fst (fst y1) /\
    odeint Z unit tt euler_stepper
           (ode_system Z Demo.seed_state Demo.draw_normal)
           (0, 0.5, 0.5) (linspace 0 (INR 1) (1 + 1))
           (engine_params 0 0.5 0.5 4 0.08 0.015 0.01 0.01 0.005 42)
           Demo.world0
    = (Ok [(0, 0.5, 0.5); y1], mkWorld 48%Z []).
Proof.
  pose proof PHI_lower as Hlo. pose proof PHI_upper as Hup.
  pose proof PHI_square as Hsq.
  assert (HHun : PHI * ((0 + 0.5) / (PHI + 1)) = 0.5 / PHI).
  { rewrite <- Hsq. field. lra. }
  assert (Hinv : / 1.7 < / PHI) by (apply Rinv_lt_contravar; nra).
  assert (Hinv2 : / PHI < / 1.6) by (apply Rinv_lt_contravar; nra).
  assert (HHeq : clip (PHI * ((0 + 0.5) / (PHI + 1))) 0 1 = 0.5 / PHI).
  { rewrite HHun. apply clip_inside. unfold Rdiv. lra. }
  unfold engine_params.
  cbv beta iota zeta delta [calculate_equilibrium equilibrium_unclipped].
  rewrite linspace_years. change (map INR (seq 0 (1 + 1))) with [0; 1].
  unfold odeint. cbn [odeint_rows]. unfold euler_stepper. cbn [run_solver].
  unfold bind.
  rewrite ode_system_ok.
  2:{ cbn [dict_get p_noise_seed]. rewrite int_zero, Z.add_0_r.
      exact valid_seed_42. }
  unfold euler_update.
  cbn [dict_get p_noise_seed p_gamma_H p_gamma_V p_beta p_sigma_H p_sigma_V
       p_sigma_alpha p_H_eq p_V_eq p_alpha_eq run_solver ret fst snd].
  rewrite int_zero, Z.add_0_r, demo_noise.
  cbn [fst snd warnings Demo.world0].
  eexists. split; [| reflexivity].
  cbn [fst snd]. rewrite HHeq. unfold Rdiv. lra.
Qed.


Lemma calculate_LEI_bounds_and_monotonicity_witness :
  (0 <= 0.5 <= 1 /\ 0 < 0.1) /\
  exists l w',
    calculate_LEI 0.5 0.5 0.5 PHI 0.1 Demo.world0 = (Ok l, w') /\
    0 <= l <= round (0.5 * 0.5 / 0.1) 3.
Proof.
  split; [lra|].
  destruct (calculate_LEI_bounds_and_monotonicity
              0.5 0.5 0.5 PHI 0.1 Demo.world0)
    as (l & w' & Hl & Hb & _); try lra.
  exists l, w'. split; [exact Hl | exact Hb].
Defined.

Lemma float_overflow_IZR : float_overflow = IZR (2 ^ 1024 - 2 ^ 970).
Proof.
  unfold float_overflow. rewrite minus_IZR.
  rewrite (pow_IZR 2 1024), (pow_IZR 2 970). reflexivity.
Qed.

Lemma goldilocks_score_in_unit_interval_witness :
  (((0.5 - 0.6) / 0.2) ^ 2 < float_overflow /\
   exists s,
     goldilocks_score 0.5 0.5 0.5 PHI Demo.world0 = (Ok s, Demo.world0) /\
     0 <= s <= 1) /\
  (Rabs ((10 ^ 200 - 0.6) / 0.2) < float_overflow /\
   float_overflow <= ((10 ^ 200 - 0.6) / 0.2) ^ 2 /\
   fst (goldilocks_score 0.5 (10 ^ 200) 0.5 PHI Demo.world0)
   = Raise OverflowError).
Proof.
  pose proof float_overflow_big as Hbig.
  split.
  - assert (HV : ((0.5 - 0.6) / 0.2) ^ 2 < float_overflow) by nra.
    assert (Ha : ((0.5 - 0.7) / 0.2) ^ 2 < float_overflow) by nra.
    assert (Hd : 0.5 <> 0 ->
                 (round (Rabs (0.5 / 0.5 - PHI)) 3 / 0.5) ^ 2
                 < float_overflow).
    { intros _.
      assert (Hr : 0 <= round (Rabs (0.5 / 0.5 - PHI)) 3 <= 1).
      { split; [apply round_nonneg, Rabs_pos|].
        rewrite <- (round_one 3). apply round_monotone.
        pose proof PHI_lower. pose proof PHI_upper.
        apply Rabs_le. lra. }
      nra. }
    split; [exact HV|].
    destruct (proj1 (goldilocks_score_in_unit_interval
                       0.5 0.5 0.5 PHI Demo.world0) Hd HV Ha)
      as (s & Hs & Hb).
    exists s. split; [| exact Hb].
    rewrite Hs. unfold zero_samples. cbn [filter].
    replace (Reqb 0.5 0) with false by (symmetry; apply Reqb_false; lra).
    reflexivity.
  - assert (Ht : 10 ^ 200 = IZR (10 ^ 200)).
    { rewrite (pow_IZR 10 200). reflexivity. }
    assert (Hx : (10 ^ 200 - 0.6) / 0.2 = IZR (5 * 10 ^ 200 - 3)).
    { rewrite minus_IZR, mult_IZR, <- Ht. lra. }
    assert (Hfin : Rabs ((10 ^ 200 - 0.6) / 0.2) < float_overflow).
    { rewrite Hx, float_overflow_IZR, <- abs_IZR.
      apply IZR_lt. vm_compute. reflexivity. }
    assert (Hsq : float_overflow <= ((10 ^ 200 - 0.6) / 0.2) ^ 2).
    { rewrite Hx, float_overflow_IZR, (pow_IZR _ 2).
      apply IZR_le. vm_compute. discriminate. }
    split; [exact Hfin|]. split; [exact Hsq|].
    exact (proj1 (proj2 (goldilocks_score_in_unit_interval
                           0.5 (10 ^ 200) 0.5 PHI Demo.world0)) Hfin Hsq).
Defined.

Lemma calculate_CHI_in_unit_interval_witness :
  0 <= 0.5 <= 1 /\
  exists c w',
    calculate_CHI 0.5 0.5 0.5 PHI Demo.world0 = (Ok c, w') /\ 0 <= c <= 1.
Proof.
  split; [lra|].
  destruct (proj1 (calculate_CHI_in_unit_interval
                     0.5 0.5 0.5 PHI Demo.world0))
    as (c & w' & Hc & Hb & _); try lra.
  exists c, w'. split; [exact Hc | exact Hb].
Defined.

Lemma classify_zone_outer_zones_witness :
  classify_zone 0.5 0 0.5 PHI = "Low Variation Zone (Undefined H/V)"%string.
Proof.
  apply (proj2 (proj2 (proj2 (proj2 (classify_zone_outer_zones
                                        0.5 0 0.5 PHI))))).
  reflexivity.
Defined.

Lemma goldilocks_zone_is_viable_witness :
  (0 <= 0.8 <= 1 /\ 0 <= 0.5 <= 1 /\ 0 <= 0.6 <= 1 /\ 0.1 < 0.333 /\
   classify_zone 0.8 0.5 0.6 PHI = "Goldilocks Zone"%string) /\
  exists d,
    predict_viability 0.8 0.5 0.6 0.1 Demo.world0
    = (Ok (true, d), Demo.world0).
Proof.
  pose proof PHI_lower as Hlo. pose proof PHI_upper as Hup.
  assert (Hzone : classify_zone 0.8 0.5 0.6 PHI = "Goldilocks Zone"%string).
  { apply classify_zone_goldilocks_intro; try lra.
    replace (0.8 / 0.5) with 1.6 by lra.
    unfold Rabs. destruct (Rcase_abs (1.6 - PHI)); lra. }
  split; [repeat split; try lra; exact Hzone|].
  destruct (goldilocks_zone_is_viable 0.8 0.5 0.6 0.1 Demo.world0)
    as (l & d & _ & _ & Hv & _); try lra; [exact Hzone|].
  exists d. exact Hv.
Defined.

Lemma terminal_lock_in_is_not_viable_witness :
  (0 <= 0.92 <= 1 /\ 0 <= 0.18 <= 1 /\ 0 <= 0.09 <= 1 /\ 0.041 <= 0.1 /\
   classify_zone 0.92 0.18 0.09 PHI
   = "High Rigidity Zone (Terminal Lock-in)"%string) /\
  exists l,
    predict_viability 0.92 0.18 0.09 0.1 Demo.world0
    = (Ok (false, Terminal_Lock_in l 0.1), Demo.world0) /\
    0 <= l <= 0.041.
Proof.
  pose proof PHI_upper as Hup.
  assert (Hzone : classify_zone 0.92 0.18 0.09 PHI
                  = "High Rigidity Zone (Terminal Lock-in)"%string).
  { apply classify_zone_terminal_intro; lra. }
  split; [repeat split; try lra; exact Hzone|].
  destruct (terminal_lock_in_is_not_viable 0.92 0.18 0.09 0.1 Demo.world0)
    as (l & _ & Hl & Hv); try lra; [exact Hzone|].
  exists l. split; [exact Hv | exact Hl].
Defined.

Lemma calculate_equilibrium_clipping_witness :
  (0 <= 0.5 <= 1 /\ 0.5 + 0.5 <= PHI) /\
  exists H_eq V_eq alpha_eq,
    calculate_equilibrium 0.5 0.5 0.5 PHI = (H_eq, V_eq, alpha_eq) /\
    H_eq = PHI * V_eq /\ H_eq + V_eq = 0.5 + 0.5.
Proof.
  pose proof PHI_lower as Hlo.
  split; [lra|].
  destruct (calculate_equilibrium_clipping 0.5 0.5 0.5)
    as (H_eq & V_eq & alpha_eq & Heq & _ & _ & _ & _ & Hlow & _); try lra.
  exists H_eq, V_eq, alpha_eq. split; [exact Heq|]. apply Hlow. lra.
Defined.

Lemma rows_outside_the_cube_fail_the_simulation_witness :
  in_cube (0, 0.5, 0.5) /\
  exists got w',
    Demo.simulate 0 0.5 0.5 1 4 0.08 0.015 0.01 0.01 0.005 42 Demo.world0
    = (Raise (ValueError_range "H" got), w') /\
    1 < got.
Proof.
  assert (Hcube : in_cube (0, 0.5, 0.5))
    by (unfold in_cube; cbn [fst snd]; lra).
  split; [exact Hcube|].
  destruct demo_fast_H_leaves_cube as (y1 & Hy1 & Hint).
  destruct (proj2 (rows_outside_the_cube_fail_the_simulation
                     Z Demo.seed_state Demo.draw_normal unit tt euler_stepper
                     0 0.5 0.5 1 4 0.08 0.015 0.01 0.01 0.005 42
                     Demo.world0 _ _ Hcube Hint)
                  [(0, 0.5, 0.5)] y1 [] eq_refl)
    as (name & got & Hfirst & Hcall).
  { constructor; [exact Hcube | constructor]. }
  { intros (Hbad & _). lra. }
  cbn [first_outside] in Hfirst.
  replace (in_unit (fst (fst y1))) with false in Hfirst
    by (symmetry; apply in_unit_false; right; exact Hy1).
  inversion Hfirst; subst name got.
  eexists _, _. split; [exact Hcall | exact Hy1].
Defined.

Lemma returned_trajectory_is_consistent_witness :
  exists r w',
    Demo.simulate 0.7 0 0.5 0 0.05 0.08 0.015 0.01 0.01 0.005 42
                  Demo.world0 = (Ok r, w') /\
    samples r = [(0.7, 0, 0.5)] /\
    r_LEI r = [0] /\ r_d_phi r = [10] /\
    warnings w' = [Warn_LEI_V0; Warn_d_phi_V0].
Proof.
  destruct (simulate_evolution_zero_years_returns
              Z Demo.seed_state Demo.draw_normal unit tt euler_stepper
              0.7 0 0.5 0.05 0.08 0.015 0.01 0.01 0.005 42 Demo.world0)
    as (r & w' & Hsim & _); try lra.
  exists r, w'. split; [exact Hsim|].
  destruct (returned_trajectory_is_consistent
              Z Demo.seed_state Demo.draw_normal unit tt euler_stepper
              _ _ _ _ _ _ _ _ _ _ _ _ _ _ Hsim)
    as (_ & Hhd & HLEI & Hd & _ & _ & w0 & Hrun & _ & Hwarn).
  rewrite linspace_years in Hrun.
  change (map INR (seq 0 (0 + 1))) with [0] in Hrun.
  rewrite odeint_single in Hrun.
  assert (Hw0 : w0 = Demo.world0) by (inversion Hrun; reflexivity).
  subst w0. clear Hrun.
  apply simulate_evolution_ok_inv in Hsim.
  destruct Hsim as (_ & solution & LEI_traj & d_phi_traj & w1 & w2
                    & Hint & _ & _ & Hr).
  rewrite linspace_years in Hint.
  change (map INR (seq 0 (0 + 1))) with [0] in Hint.
  rewrite odeint_single in Hint. inversion Hint; subst solution w1.
  assert (Hs : samples r = [(0.7, 0, 0.5)]) by (rewrite Hr; reflexivity).
  assert (HV : r_V r = [0]) by (rewrite Hr; reflexivity).
  assert (Hz : Reqb 0 0 = true) by (apply Reqb_true; reflexivity).
  rewrite Hs in HLEI, Hd. rewrite HV in Hwarn.
  unfold zero_samples in Hwarn. cbn [map fst snd filter] in HLEI, Hd, Hwarn.
  unfold LEI_of in HLEI. unfold d_phi_of in Hd.
  rewrite Hz in HLEI, Hd, Hwarn.
  split; [exact Hs|]. split; [exact HLEI|]. split; [exact Hd|].
  exact Hwarn.
Defined.

Lemma noise_depends_on_seed_plus_time_witness :
  (42 + int (0 * 1000) = 42 + int (0 * 1000))%Z /\
  fst (ode_system Z Demo.seed_state Demo.draw_normal (0.3, 0.2, 0.3) 0
         (with_seed (engine_params 0.3 0.2 0.3 0.05 0.08 0.015 0.01 0.01
                                   0.005 7) 42)
         Demo.world0)
  = fst (ode_system Z Demo.seed_state Demo.draw_normal (0.3, 0.2, 0.3) 0
           (with_seed (engine_params 0.3 0.2 0.3 0.05 0.08 0.015 0.01 0.01
                                     0.005 7) 42)
           (mkWorld 7%Z [Warn_empty_slice])).
Proof.
  split; [reflexivity|].
  apply (proj1 (noise_depends_on_seed_plus_time
                  Z Demo.seed_state Demo.draw_normal (0.3, 0.2, 0.3)
                  (engine_params 0.3 0.2 0.3 0.05 0.08 0.015 0.01 0.01
                                 0.005 7))).
  reflexivity.
Defined.

Lemma stalled_run_indexable : indexable stalled_run.
Proof.
  unfold indexable, stalled_run. cbn.
  repeat split; try discriminate; lia.
Qed.

Lemma analyze_convergence_report_witness :
  ([stalled_run] <> [] /\ Forall indexable [stalled_run]) /\
  exists rep,
    analyze_convergence [stalled_run] 0.5 Demo.world0
    = (Ok rep, Demo.world0) /\
    n_total rep = 1%nat /\
    0 <= convergence_rate rep <= 1.
Proof.
  assert (Hne : [stalled_run] <> []) by discriminate.
  assert (Hall : Forall indexable [stalled_run])
    by (constructor; [exact stalled_run_indexable | constructor]).
  split; [split; assumption|].
  destruct (analyze_convergence_report [stalled_run] 0.5 Demo.world0
                                       Hne Hall)
    as (rep & Hrep & Hn & _ & _ & _ & Hrate & _).
  exists rep. split; [exact Hrep|]. split; [exact Hn | exact Hrate].
Defined.

Lemma sampled_ensemble_can_be_analyzed_witness :
  valid_seed (dict_get (kw_noise_seed no_kwargs) 42%Z) /\
  exists trajectories w',
    Demo.sampler 2 1 Demo.H_range Demo.V_range Demo.alpha_range no_kwargs
                 Demo.world0 = (Ok trajectories, w') /\
    Forall indexable trajectories.
Proof.
  assert (Hseed : valid_seed (dict_get (kw_noise_seed no_kwargs) 42%Z))
    by exact valid_seed_42.
  split; [exact Hseed|].
  destruct (sampled_ensemble_can_be_analyzed
              Z Demo.seed_state Demo.draw_uniform Demo.draw_normal
              unit tt euler_stepper
              2 1 Demo.H_range Demo.V_range Demo.alpha_range no_kwargs 0.5
              Demo.world0 Hseed)
    as (trajectories & w' & Hrun & Hall & _).
  exists trajectories, w'. split; [exact Hrun | exact Hall].
Defined.

Lemma analyze_convergence_needs_distance_samples_witness :
  let bare := mkRun (mkSimResult [] [] [] [] [] [] 0 0 0) 0 0 0 0 in
  Exists (fun t => r_d_phi (run_result t) = []) [stalled_run; bare] /\
  analyze_convergence [stalled_run; bare] 0.5 Demo.world0
  = (Raise IndexError, Demo.world0).
Proof.
  intros bare.
  assert (Hex : Exists (fun t => r_d_phi (run_result t) = [])
                       [stalled_run; bare])
    by (apply Exists_cons_tl, Exists_cons_hd; reflexivity).
  split; [exact Hex|].
  exact (proj1 (analyze_convergence_needs_distance_samples
                  [stalled_run; bare] 0.5 Demo.world0) Hex).
Defined.

Lemma d_phi_rounding_and_scaling_witness :
  0.5 <> 0 /\
  exists d,
    calculate_d_phi 0.8 0.5 PHI Demo.world0 = (Ok d, Demo.world0) /\
    calculate_d_phi (3 * 0.8) (3 * 0.5) PHI Demo.world0
    = (Ok d, Demo.world0).
Proof.
  assert (Hnz : 0.5 <> 0) by lra.
  split; [exact Hnz|].
  destruct (d_phi_rounding_and_scaling 0.8 0.5 PHI Demo.world0 Hnz)
    as (d & Hd & _ & _ & _ & Hscale).
  exists d. split; [exact Hd|]. apply Hscale. lra.
Defined.

Lemma forecast_scenarios_witness :
  ~ In "boom"%string ["baseline"; "reform"; "lock-in"; "crisis"]%string /\
  predict_future_trajectory Z Demo.seed_state Demo.draw_normal
                            unit tt euler_stepper
                            1.5 0.5 0.5 50 "boom" no_kwargs Demo.world0
  = (Unknown_scenario "boom", Demo.world0).
Proof.
  assert (Hn : ~ In "boom"%string
                    ["baseline"; "reform"; "lock-in"; "crisis"]%string).
  { intros [Hx | [Hx | [Hx | [Hx | []]]]]; discriminate. }
  split; [exact Hn|].
  exact (proj1 (forecast_scenarios
                  Z Demo.seed_state Demo.draw_normal unit tt euler_stepper
                  1.5 0.5 0.5 50 "boom" no_kwargs Demo.world0) Hn).
Defined.


Lemma parameters_with_default_weights_witness :
  (In (calculate_H, [0.35; 0.30; 0.25; 0.10]) parameter_functions /\
   unit4 0.80 0.75 0.55 0.65) /\
  exists x,
    calculate_H 0.80 0.75 0.55 0.65 None = Returns x /\ 0 <= x <= 1.
Proof.
  assert (Hin : In (calculate_H, [0.35; 0.30; 0.25; 0.10])
                   parameter_functions) by (left; reflexivity).
  assert (Hu : unit4 0.80 0.75 0.55 0.65) by (unfold unit4; lra).
  split; [split; assumption|].
  destruct (parameters_with_default_weights
              calculate_H [0.35; 0.30; 0.25; 0.10] 0.80 0.75 0.55 0.65
              Hin Hu)
    as (x & Hx & _ & Hb & _).
  exists x. split; [exact Hx | exact Hb].
Defined.

Lemma isclose_single_one : np_isclose (py_sum [1]) 1.0 = true.
Proof.
  apply np_isclose_one_true. unfold py_sum. simpl.
  replace (0 + 1 - 1) with 0 by lra. rewrite Rabs_R0. lra.
Qed.

Lemma parameters_with_custom_weights_witness :
  (In (calculate_V, [0.40; 0.25; 0.20; 0.15]) parameter_functions /\
   unit4 0.85 0.45 0.70 0.50 /\
   np_isclose (py_sum [1]) 1.0 = true /\ (List.length [1] < 4)%nat) /\
  calculate_V 0.85 0.45 0.70 0.50 (Some [1]) = Raises Weights_IndexError.
Proof.
  assert (Hin : In (calculate_V, [0.40; 0.25; 0.20; 0.15])
                   parameter_functions) by (right; left; reflexivity).
  assert (Hu : unit4 0.85 0.45 0.70 0.50) by (unfold unit4; lra).
  assert (Hlen : (List.length [1] < 4)%nat) by (simpl; lia).
  split; [repeat split; try exact Hin; try exact isclose_single_one;
          try exact Hlen; lra|].
  destruct (parameters_with_custom_weights
              calculate_V [0.40; 0.25; 0.20; 0.15] 0.85 0.45 0.70 0.50 [1]
              Hin)
    as (_ & _ & Hidx & _).
  exact (Hidx Hu isclose_single_one Hlen).
Defined.

Lemma negative_weights_leave_the_unit_interval_witness :
  (In (calculate_alpha, [0.35; 0.25; 0.25; 0.15]) parameter_functions /\
   0 <= 0.5 <= 1 /\ 0.001 <= 1) /\
  calculate_alpha 1 0 0.5 0.5 (Some [1 + 1; - 1; 0; 0])
  = Returns (round (1 + 1) 3) /\
  1.001 <= round (1 + 1) 3.
Proof.
  assert (Hin : In (calculate_alpha, [0.35; 0.25; 0.25; 0.15])
                   parameter_functions) by (right; right; left; reflexivity).
  split; [split; [exact Hin | lra]|].
  apply (negative_weights_leave_the_unit_interval
           calculate_alpha [0.35; 0.25; 0.25; 0.15] 0.5 0.5 1 Hin); lra.
Defined.

Lemma all_parameters_feed_the_metrics_witness :
  let usa := mkParameterComponents 0.80 0.75 0.55 0.65
                                   0.85 0.45 0.70 0.50
                                   0.65 0.70 0.55 0.45 in
  unit_components usa /\
  exists H V alpha,
    calculate_all_parameters usa None None None = Returns (H, V, alpha) /\
    in_cube (H, V, alpha).
Proof.
  intros usa.
  assert (Hu : unit_components usa)
    by (unfold unit_components, unit4, usa; cbn; lra).
  split; [exact Hu|].
  destruct (proj1 (all_parameters_feed_the_metrics usa) Hu)
    as (H & V & alpha & Hret & Hcube & _).
  exists H, V, alpha. split; [exact Hret | exact Hcube].
Defined.

Lemma country_table_entries_witness :
  exists entry,
    get_country_parameters "Argentina labor" = Returns entry /\
    0.1 < ce_V entry /\
    exists H V alpha,
      calculate_all_parameters (ce_components entry) None None None
      = Returns (H, V, alpha) /\
      H <> ce_H entry.
Proof.
  eexists. split; [reflexivity|].
  destruct (proj1 (country_table_entries "Argentina labor") _ eq_refl)
    as (_ & _ & HV & _ & _ & H & V & alpha & Hret & HH & _).
  split; [exact HV|].
  exists H, V, alpha. split; [exact Hret | exact HH].
Defined.

Lemma ensemble_keeps_loop_order_witness :
  valid_seed (dict_get (kw_noise_seed no_kwargs) 42%Z) /\
  exists trajectories w',
    Demo.sampler 2 1 Demo.H_range Demo.V_range Demo.alpha_range no_kwargs
                 Demo.world0 = (Ok trajectories, w') /\
    increasing (map simulation_id trajectories).
Proof.
  assert (Hseed : valid_seed (dict_get (kw_noise_seed no_kwargs) 42%Z))
    by exact valid_seed_42.
  split; [exact Hseed|].
  destruct (ensemble_keeps_loop_order
              Z Demo.seed_state Demo.draw_uniform Demo.draw_normal
              unit tt euler_stepper
              2 1 Demo.H_range Demo.V_range Demo.alpha_range no_kwargs
              Demo.world0 Hseed)
    as (trajectories & w' & Hrun & Hord & _).
  exists trajectories, w'. split; [exact Hrun | exact Hord].
Defined.

(** ** A batch with a failing run *)

Lemma simulate_evolution_kw_rejects_H0
      {G} seed_state draw_normal Work work0 lsoda
      H0 V0 alpha0 years kwargs (w : World G) :
  ~ 0 <= H0 <= 1 ->
  simulate_evolution_kw G seed_state draw_normal Work work0 lsoda
                        H0 V0 alpha0 years kwargs w
  = (Raise (ValueError_range "H0" H0), w).
Proof.
  intros Hout. unfold simulate_evolution_kw, simulate_evolution.
  apply bind_raise.
  destruct (check_unit_three_cases H0 V0 alpha0 "H0"%string "V0"%string
                                   "alpha0"%string w)
    as [(HH & _) | [(_ & Hc) | [(HH & _) | (HH & _)]]];
    [tauto | exact Hc | tauto | tauto].
Qed.

Lemma ensemble_isolates_run_failures_witness :
  valid_seed 42 /\
  exists trajectories w' new,
    Demo.sampler 2 0 (0.5, 4) Demo.V_range Demo.alpha_range no_kwargs
                 Demo.world0 = (Ok trajectories, w') /\
    warnings w' = warnings Demo.world0 ++ new /\
    In (1%nat, ValueError_range "H0" (0.5 + (4 - 0.5) * (3 / 7)))
       (failures new) /\
    (exists t,
        In t trajectories /\ simulation_id t = 0%nat /\
        run_H0 t = 0.5 + (4 - 0.5) * (0 / 7)) /\
    (forall t, In t trajectories -> simulation_id t = 0%nat).
Proof.
  assert (Hseed : valid_seed 42) by (unfold valid_seed; lia).
  split; [exact Hseed|].
  pose (ws := mkWorld (Demo.seed_state (dict_get (kw_noise_seed no_kwargs)
                                                 42%Z))
                      (warnings Demo.world0)).
  pose (outcome_of :=
          run_outcome Z Demo.seed_state Demo.draw_uniform Demo.draw_normal
                      unit tt euler_stepper
                      0 (0.5, 4) Demo.V_range Demo.alpha_range no_kwargs ws).
  pose (drawn :=
          run_draw Z Demo.seed_state Demo.draw_uniform Demo.draw_normal
                   unit tt euler_stepper
                   0 (0.5, 4) Demo.V_range Demo.alpha_range no_kwargs ws).
  assert (Hd0 : drawn 0%nat
                = ((0.5 + (4 - 0.5) * (0 / 7),
                    0.1 + (0.85 - 0.1) * (1 / 7),
                    0.1 + (0.80 - 0.1) * (2 / 7)), 45%Z))
    by reflexivity.
  assert (Hout0 : exists r w1, outcome_of 0%nat = (Ok r, w1) /\
                               rng w1 = 45%Z).
  { unfold outcome_of, run_outcome. fold (drawn 0%nat). rewrite Hd0.
    cbn [fst snd].
    apply (demo_simulate_kw_zero_years
             (0.5 + (4 - 0.5) * (0 / 7)) (0.1 + (0.85 - 0.1) * (1 / 7))
             (0.1 + (0.80 - 0.1) * (2 / 7))).
    unfold in_cube. cbn [fst snd]. lra. }
  destruct Hout0 as (r0 & w1 & Hout0 & Hrng1).
  assert (Hd1 : drawn 1%nat
                = ((0.5 + (4 - 0.5) * (3 / 7),
                    0.1 + (0.85 - 0.1) * (4 / 7),
                    0.1 + (0.80 - 0.1) * (5 / 7)), 48%Z)).
  { unfold drawn, run_draw. rewrite world_before_run_S.
    fold outcome_of. rewrite Hout0, Hrng1. reflexivity. }
  assert (Hout1 : fst (outcome_of 1%nat)
                  = Raise (ValueError_range "H0"
                                            (0.5 + (4 - 0.5) * (3 / 7)))).
  { unfold outcome_of, run_outcome. fold (drawn 1%nat). rewrite Hd1.
    cbn [fst snd].
    rewrite simulate_evolution_kw_rejects_H0 by lra. reflexivity. }
  destruct (ensemble_isolates_run_failures
              Z Demo.seed_state Demo.draw_uniform Demo.draw_normal
              unit tt euler_stepper
              2 0 (0.5, 4) Demo.V_range Demo.alpha_range no_kwargs
              Demo.world0 Hseed)
    as (trajectories & w' & new & Hrun & Hwarn & _ & _ & _ & Hfail & Hok).
  exists trajectories, w', new.
  split; [exact Hrun|]. split; [exact Hwarn|].
  split.
  { apply Hfail. split; [lia | exact Hout1]. }
  split.
  { exists (mkRun r0 0 (fst (fst (fst (drawn 0%nat))))
                  (snd (fst (fst (drawn 0%nat)))) (snd (fst (drawn 0%nat)))).
    split.
    - apply Hok. exists 0%nat, r0. split; [lia|].
      split; [fold ws; fold outcome_of; rewrite Hout0; reflexivity
             | reflexivity].
    - split; [reflexivity|]. cbn [run_H0]. rewrite Hd0. reflexivity. }
  intros t Hin. apply Hok in Hin.
  destruct Hin as (i & r & Hlt & Hi & Ht). cbv zeta in Ht.
  destruct i as [| [| i]]; [subst t; reflexivity | | lia].
  fold ws in Hi. fold outcome_of in Hi. rewrite Hout1 in Hi. discriminate.
Defined.
